(** * curlgen: conversion between cURL commands, fetch / axios snippets and
      Postman collections (src/index.ts)

    The functions of [src/index.ts] as Rocq functions, under the names they
    have there, and the properties of the specification that concern them.

    - A JavaScript string is a list of 8-bit characters ([str]); a
      character stands for the UTF-16 code unit of the same number, so the
      model covers the strings whose code units are below 256.
    - The [headers] object is an association list in insertion order.
    - A function whose code can throw returns a [Res]; [JSON.parse] is
      modelled by a parser for the JSON grammar, with [None] for its
      [SyntaxError].
    - The regular expressions of the extractors are terms of [re], run by
      a backtracking matcher with the priorities of JavaScript.
    - The collection importer reads the parsed JSON at the type
      [PostmanItem] that the code declares for it. *)

From Stdlib Require Import List Ascii String Bool Arith ZArith Lia.
Import ListNotations.

(** ** Strings *)

Definition str := list ascii.

Definition L (x : string) : str := list_ascii_of_string x.
Arguments L x%_string.

Definition SQ : ascii := "'"%char.      (* single quote *)
Definition DQ : ascii := "034"%char.    (* double quote *)
Definition BQ : ascii := "`"%char.      (* backtick *)
Definition BS : ascii := "\"%char.      (* backslash *)
Definition NL : ascii := "010"%char.    (* line feed *)
Definition SP : ascii := " "%char.
Definition COLON : ascii := ":"%char.

Fixpoint eqb_str (a b : str) : bool :=
  match a, b with
  | [], [] => true
  | x :: a', y :: b' => Ascii.eqb x y && eqb_str a' b'
  | _, _ => false
  end.

(** [s.startsWith(p)] *)
Fixpoint startsWith (p s : str) : bool :=
  match p, s with
  | [], _ => true
  | x :: p', y :: s' => Ascii.eqb x y && startsWith p' s'
  | _ :: _, [] => false
  end.

(** [s.includes(p)] *)
Fixpoint includes (p s : str) : bool :=
  startsWith p s ||
  match s with
  | [] => false
  | _ :: s' => includes p s'
  end.

(** White space of [String.prototype.trim] and of the regular-expression
    class [\s], restricted to code units below 256: TAB, LF, VT, FF, CR,
    space and the no-break space. *)
Definition isSpace (c : ascii) : bool :=
  let n := nat_of_ascii c in
  ((9 <=? n) && (n <=? 13)) || (n =? 32) || (n =? 160).

Fixpoint trimStart (s : str) : str :=
  match s with
  | c :: s' => if isSpace c then trimStart s' else s
  | [] => []
  end.

Definition trimEnd (s : str) : str := rev (trimStart (rev s)).

Definition trim (s : str) : str := trimEnd (trimStart s).

(** [toUpperCase] / [toLowerCase]: the ASCII letters are mapped, every
    other character is left as it is.  This is what JavaScript does on
    code units below 128; it also maps letters above them (of the code
    units below 256: 181, 223 to 246 and 248 to 255 by [toUpperCase], 192
    to 214 and 216 to 222 by [toLowerCase]), which the model does not. *)
Definition isLower (c : ascii) : bool :=
  let n := nat_of_ascii c in (97 <=? n) && (n <=? 122).

Definition isUpper (c : ascii) : bool :=
  let n := nat_of_ascii c in (65 <=? n) && (n <=? 90).

Definition upperChar (c : ascii) : ascii :=
  if isLower c then ascii_of_nat (nat_of_ascii c - 32) else c.

Definition lowerChar (c : ascii) : ascii :=
  if isUpper c then ascii_of_nat (nat_of_ascii c + 32) else c.

Definition toUpperCase (s : str) : str := map upperChar s.
Definition toLowerCase (s : str) : str := map lowerChar s.

(** [s.indexOf(c)] for a one-character needle: -1 when absent. *)
Fixpoint indexOf (c : ascii) (s : str) : Z :=
  match s with
  | [] => (-1)%Z
  | x :: s' =>
      if Ascii.eqb x c then 0%Z
      else let i := indexOf c s' in if (i <? 0)%Z then (-1)%Z else (i + 1)%Z
  end.

(** [s.substring(a, b)] and [s.substring(a)] for in-range indices. *)
Definition substring (a b : nat) (s : str) : str := firstn (b - a) (skipn a s).
Definition substringFrom (a : nat) (s : str) : str := skipn a s.

(** [s.split(c)] for a one-character separator: never empty. *)
Fixpoint split_go (c : ascii) (cur : str) (s : str) : list str :=
  match s with
  | [] => [rev cur]
  | x :: s' =>
      if Ascii.eqb x c then rev cur :: split_go c [] s'
      else split_go c (x :: cur) s'
  end.

Definition split (c : ascii) (s : str) : list str := split_go c [] s.

(** [parts.join(sep)] *)
Fixpoint join (sep : str) (parts : list str) : str :=
  match parts with
  | [] => []
  | [p] => p
  | p :: rest => p ++ sep ++ join sep rest
  end.

(** [s.replace(/'/g, ...)] with a backslash and a single quote as the
    replacement: every single quote gets a backslash in front. *)
Fixpoint escapeQuotes (s : str) : str :=
  match s with
  | [] => []
  | c :: s' => if Ascii.eqb c SQ then BS :: SQ :: escapeQuotes s'
               else c :: escapeQuotes s'
  end.

(** Truthiness of a string and of an optional string. *)
Definition truthy (s : str) : bool :=
  match s with [] => false | _ :: _ => true end.

Definition truthyOpt (o : option str) : bool :=
  match o with Some s => truthy s | None => false end.

(** ** The canonical request record *)

Record Auth := { user : str; pass : str }.

Record ParsedRequest := {
  method : str;
  url : str;
  headers : list (str * str);
  body : option str;
  contentType : option str;
  auth : option Auth;
  followRedirects : bool;
  insecure : bool
}.

(** [headers] is a JavaScript object used as a map: assignment to a key that
    is present replaces its value in place, assignment to a new key appends
    it, and [Object.entries] lists the pairs in that order.  This holds for
    every key but two kinds, which the model treats like the others: a key
    that is an array index (a canonical decimal numeral), which JavaScript
    lists first, and the key [__proto__], for which the assignment of a
    string adds no property. *)
Fixpoint setHeader (k v : str) (h : list (str * str)) : list (str * str) :=
  match h with
  | [] => [(k, v)]
  | (k', v') :: h' =>
      if eqb_str k' k then (k, v) :: h' else (k', v') :: setHeader k v h'
  end.

Fixpoint getHeader (k : str) (h : list (str * str)) : option str :=
  match h with
  | [] => None
  | (k', v') :: h' => if eqb_str k' k then Some v' else getHeader k h'
  end.

Definition emptyRequest : ParsedRequest :=
  {| method := L "GET"; url := []; headers := []; body := None;
     contentType := None; auth := None;
     followRedirects := true; insecure := false |}.

(** ** Tokenizer *)

Record TokState := {
  tokens : list str;
  current : str;
  inSingle : bool;
  inDouble : bool;
  escaped : bool
}.

Definition tokInit : TokState :=
  {| tokens := []; current := []; inSingle := false; inDouble := false;
     escaped := false |}.

(** One iteration of the character loop of [tokenize]. *)
Definition tokStep (st : TokState) (ch : ascii) : TokState :=
  if escaped st then
    {| tokens := tokens st; current := current st ++ [ch];
       inSingle := inSingle st; inDouble := inDouble st; escaped := false |}
  else if Ascii.eqb ch BS && negb (inSingle st) then
    {| tokens := tokens st; current := current st;
       inSingle := inSingle st; inDouble := inDouble st; escaped := true |}
  else if Ascii.eqb ch SQ && negb (inDouble st) then
    {| tokens := tokens st; current := current st;
       inSingle := negb (inSingle st); inDouble := inDouble st;
       escaped := false |}
  else if Ascii.eqb ch DQ && negb (inSingle st) then
    {| tokens := tokens st; current := current st;
       inSingle := inSingle st; inDouble := negb (inDouble st);
       escaped := false |}
  else if Ascii.eqb ch SP && negb (inSingle st) && negb (inDouble st) then
    if truthy (current st) then
      {| tokens := tokens st ++ [current st]; current := [];
         inSingle := inSingle st; inDouble := inDouble st; escaped := false |}
    else st
  else
    {| tokens := tokens st; current := current st ++ [ch];
       inSingle := inSingle st; inDouble := inDouble st; escaped := false |}.

Definition tokLoop (input : str) (st : TokState) : TokState :=
  fold_left tokStep input st.

(** The flush after the loop. *)
Definition tokFlush (st : TokState) : list str :=
  if truthy (current st) then tokens st ++ [current st] else tokens st.

Definition tokenize (input : str) : list str :=
  tokFlush (tokLoop input tokInit).

(** ** cURL parser *)

(** [input.replace(/\\\n\s*/g, ' ')]: every backslash followed by a line
    feed, together with the white space after it, becomes one space.  The
    flag [skip] is set while the scan is inside the [\s*] of a match. *)
Fixpoint joinLines (skip : bool) (s : str) : str :=
  match s with
  | [] => []
  | c :: s' =>
      if skip && isSpace c then joinLines true s'
      else
        match s' with
        | d :: s'' =>
            if Ascii.eqb c BS && Ascii.eqb d NL then SP :: joinLines true s''
            else c :: joinLines false s'
        | [] => [c]
        end
  end.

(** [normalized.replace(/^curl\s+/, '')] *)
Definition stripCurl (s : str) : str :=
  if startsWith (L "curl") s then
    match skipn 4 s with
    | x :: rest => if isSpace x then trimStart rest else s
    | [] => s
    end
  else s.

Definition isOneOf (token : str) (flags : list str) : bool :=
  existsb (eqb_str token) flags.

Definition withMethod (m : str) (r : ParsedRequest) : ParsedRequest :=
  {| method := m; url := url r; headers := headers r; body := body r;
     contentType := contentType r; auth := auth r;
     followRedirects := followRedirects r; insecure := insecure r |}.

Definition withUrl (u : str) (r : ParsedRequest) : ParsedRequest :=
  {| method := method r; url := u; headers := headers r; body := body r;
     contentType := contentType r; auth := auth r;
     followRedirects := followRedirects r; insecure := insecure r |}.

Definition withHeaders (h : list (str * str)) (r : ParsedRequest)
  : ParsedRequest :=
  {| method := method r; url := url r; headers := h; body := body r;
     contentType := contentType r; auth := auth r;
     followRedirects := followRedirects r; insecure := insecure r |}.

Definition withBody (b : option str) (r : ParsedRequest) : ParsedRequest :=
  {| method := method r; url := url r; headers := headers r; body := b;
     contentType := contentType r; auth := auth r;
     followRedirects := followRedirects r; insecure := insecure r |}.

Definition withContentType (c : option str) (r : ParsedRequest)
  : ParsedRequest :=
  {| method := method r; url := url r; headers := headers r; body := body r;
     contentType := c; auth := auth r;
     followRedirects := followRedirects r; insecure := insecure r |}.

Definition withAuth (a : option Auth) (r : ParsedRequest) : ParsedRequest :=
  {| method := method r; url := url r; headers := headers r; body := body r;
     contentType := contentType r; auth := a;
     followRedirects := followRedirects r; insecure := insecure r |}.

Definition withFollowRedirects (b : bool) (r : ParsedRequest)
  : ParsedRequest :=
  {| method := method r; url := url r; headers := headers r; body := body r;
     contentType := contentType r; auth := auth r;
     followRedirects := b; insecure := insecure r |}.

Definition withInsecure (b : bool) (r : ParsedRequest) : ParsedRequest :=
  {| method := method r; url := url r; headers := headers r; body := body r;
     contentType := contentType r; auth := auth r;
     followRedirects := followRedirects r; insecure := b |}.

(** The mutable variables of the token loop of [parseCurl]. *)
Record CurlState := {
  result : ParsedRequest;
  explicitMethod : bool
}.

Definition curlInit : CurlState :=
  {| result := emptyRequest; explicitMethod := false |}.

Definition onResult (f : ParsedRequest -> ParsedRequest) (st : CurlState)
  : CurlState :=
  {| result := f (result st); explicitMethod := explicitMethod st |}.

(** The default of [method] that a data flag installs. *)
Definition defaultPost (st : CurlState) : CurlState :=
  if explicitMethod st then st else onResult (withMethod (L "POST")) st.

(** The body of the [for] loop: [token = tokens[i]], [next = tokens[i+1]]
    ([None] past the end).  The boolean tells whether the case ran [i++],
    that is, consumed [next] as the argument of the flag. *)
Definition curlStep (token : str) (next : option str) (st : CurlState)
  : CurlState * bool :=
  if isOneOf token [L "-X"; L "--request"] then
    match next with
    | Some n =>
        if truthy n then
          ({| result := withMethod (toUpperCase n) (result st);
              explicitMethod := true |}, true)
        else (st, false)
    | None => (st, false)
    end
  else if isOneOf token [L "-H"; L "--header"] then
    match next with
    | Some n =>
        if truthy n then
          let colonIdx := indexOf COLON n in
          if (colonIdx >? 0)%Z then
            let key := trim (substring 0 (Z.to_nat colonIdx) n) in
            let value := trim (substringFrom (Z.to_nat colonIdx + 1) n) in
            let st1 := onResult (fun r => withHeaders
                                   (setHeader key value (headers r)) r) st in
            if eqb_str (toLowerCase key) (L "content-type") then
              (onResult (withContentType (Some value)) st1, true)
            else (st1, true)
          else (st, true)
        else (st, false)
    | None => (st, false)
    end
  else if isOneOf token [L "-d"; L "--data"; L "--data-raw"; L "--data-binary"]
  then
    match next with
    | Some n =>
        if truthy n then
          (defaultPost (onResult (withBody (Some n)) st), true)
        else (st, false)
    | None => (st, false)
    end
  else if isOneOf token [L "--data-urlencode"] then
    match next with
    | Some n =>
        if truthy n then
          let newBody :=
            match body (result st) with
            | Some b => if truthy b then b ++ L "&" ++ n else n
            | None => n
            end in
          let st1 := defaultPost (onResult (withBody (Some newBody)) st) in
          if truthyOpt (contentType (result st1)) then (st1, true)
          else
            let ct := L "application/x-www-form-urlencoded" in
            (onResult (fun r => withHeaders
                         (setHeader (L "Content-Type") ct (headers r))
                         (withContentType (Some ct) r)) st1, true)
        else (st, false)
    | None => (st, false)
    end
  else if isOneOf token [L "-u"; L "--user"] then
    match next with
    | Some n =>
        if truthy n then
          let parts := split COLON n in
          let user := nth 0 parts [] in
          let pass := nth_error parts 1 in
          (onResult (withAuth
                       (Some {| user := user;
                                pass := match pass with
                                        | Some p => p
                                        | None => []
                                        end |})) st, true)
        else (st, false)
    | None => (st, false)
    end
  else if isOneOf token [L "-L"; L "--location"] then
    (onResult (withFollowRedirects true) st, false)
  else if isOneOf token [L "-k"; L "--insecure"] then
    (onResult (withInsecure true) st, false)
  else if isOneOf token [L "-A"; L "--user-agent"] then
    match next with
    | Some n =>
        if truthy n then
          (onResult (fun r => withHeaders
                       (setHeader (L "User-Agent") n (headers r)) r) st, true)
        else (st, false)
    | None => (st, false)
    end
  else if isOneOf token [L "-b"; L "--cookie"] then
    match next with
    | Some n =>
        if truthy n then
          (onResult (fun r => withHeaders
                       (setHeader (L "Cookie") n (headers r)) r) st, true)
        else (st, false)
    | None => (st, false)
    end
  else if isOneOf token [L "-e"; L "--referer"] then
    match next with
    | Some n =>
        if truthy n then
          (onResult (fun r => withHeaders
                       (setHeader (L "Referer") n (headers r)) r) st, true)
        else (st, false)
    | None => (st, false)
    end
  else if isOneOf token [L "--compressed"] then
    if truthyOpt (getHeader (L "Accept-Encoding") (headers (result st)))
    then (st, false)
    else
      (onResult (fun r => withHeaders
                   (setHeader (L "Accept-Encoding") (L "gzip, deflate, br")
                      (headers r)) r) st, false)
  else if negb (startsWith (L "-") token)
          && (startsWith (L "http") token || startsWith (L "/") token) then
    (onResult (withUrl token) st, false)
  else (st, false).

(** The token loop: the list holds [tokens[i..]]. *)
Fixpoint curlLoop (toks : list str) (st : CurlState) : CurlState :=
  match toks with
  | [] => st
  | token :: rest =>
      match rest with
      | [] => fst (curlStep token None st)
      | next :: rest' =>
          let '(st', consumed) := curlStep token (Some next) st in
          if consumed then curlLoop rest' st' else curlLoop rest st'
      end
  end.

Definition normalize (input : str) : str := trim (joinLines false input).

Definition parseCurl (input : str) : ParsedRequest :=
  let normalized := normalize input in
  let cmdStr := stripCurl normalized in
  result (curlLoop (tokenize cmdStr) curlInit).

(** ** Shell-command generator *)

Definition toCurlParts (req : ParsedRequest) : list str :=
  [L "curl"]
  ++ (if eqb_str (method req) (L "GET") then []
      else [L "-X " ++ method req])
  ++ [SQ :: url req ++ [SQ]]
  ++ map (fun kv => L "-H '" ++ fst kv ++ L ": " ++ snd kv ++ L "'")
         (headers req)
  ++ match auth req with
     | Some a => [L "-u '" ++ user a ++ L ":" ++ pass a ++ L "'"]
     | None => []
     end
  ++ match body req with
     | Some b => if truthy b then [L "-d '" ++ b ++ L "'"] else []
     | None => []
     end
  ++ (if insecure req then [L "-k"] else []).

Definition toCurl (req : ParsedRequest) : str :=
  join (SP :: BS :: NL :: L "  ") (toCurlParts req).

(** ** Regular expressions

    The fragment of JavaScript regular expressions the extractors use:
    literals, character classes, greedy [*] and [+] over a class, sequence,
    alternation and capture groups, matched by backtracking (leftmost,
    longest repetition first, left alternative first). *)

Inductive re : Type :=
| Eps : re
| Lit : str -> re
| Chr : (ascii -> bool) -> re
| Star : (ascii -> bool) -> re
| Plus : (ascii -> bool) -> re
| Cat : re -> re -> re
| Alt : re -> re -> re
| Grp : nat -> re -> re.

(** Captures: the most recent binding of a group comes first; a group that
    took no part in the match has no binding ([undefined]). *)
Definition caps := list (nat * str).

Fixpoint getCap (n : nat) (c : caps) : option str :=
  match c with
  | [] => None
  | (m, t) :: c' => if Nat.eqb m n then Some t else getCap n c'
  end.

Record MatchResult := {
  groups : caps;
  after : str        (* the input that follows the match *)
}.

Fixpoint stripPrefix (p s : str) : option str :=
  match p, s with
  | [], _ => Some s
  | x :: p', y :: s' => if Ascii.eqb x y then stripPrefix p' s' else None
  | _ :: _, [] => None
  end.

(** The part of [s] in front of its suffix [s']. *)
Definition consumed (s s' : str) : str := firstn (List.length s - List.length s') s.

Section Matcher.
Variable R : Type.

(** Greedy repetition of a class: the longest run first, then shorter. *)
Fixpoint star (p : ascii -> bool) (s : str) (k : str -> option R)
  : option R :=
  match s with
  | x :: s' =>
      if p x then
        match star p s' k with
        | Some r => Some r
        | None => k s
        end
      else k s
  | [] => k s
  end.

(** Backtracking matcher in continuation-passing style: [k] is what has
    to match after [r]. *)
Fixpoint mt (r : re) (s : str) (c : caps) (k : str -> caps -> option R)
  : option R :=
  match r with
  | Eps => k s c
  | Lit l =>
      match stripPrefix l s with
      | Some s' => k s' c
      | None => None
      end
  | Chr p =>
      match s with
      | x :: s' => if p x then k s' c else None
      | [] => None
      end
  | Star p => star p s (fun s' => k s' c)
  | Plus p =>
      match s with
      | x :: s' => if p x then star p s' (fun s'' => k s'' c) else None
      | [] => None
      end
  | Cat a b => mt a s c (fun s' c' => mt b s' c' k)
  | Alt a b =>
      match mt a s c k with
      | Some x => Some x
      | None => mt b s c k
      end
  | Grp n a => mt a s c (fun s' c' => k s' ((n, consumed s s') :: c'))
  end.
End Matcher.
Arguments star {R} p s k.
Arguments mt {R} r s c k.

(** A match that starts at the first character of [s]. *)
Definition matchAt (r : re) (s : str) : option MatchResult :=
  mt r s [] (fun s' c => Some {| groups := c; after := s' |}).

(** [s.match(r)] without the [g] flag: the leftmost match. *)
Fixpoint exec (r : re) (s : str) : option MatchResult :=
  match matchAt r s with
  | Some m => Some m
  | None =>
      match s with
      | [] => None
      | _ :: s' => exec r s'
      end
  end.

(** [s.matchAll(r)] with the [g] flag: the matches from left to right, each
    search starting where the previous match ended (one character further
    after an empty match).  [skip] counts the characters of the previous
    match still to be passed. *)
Fixpoint matchAllFrom (r : re) (skip : nat) (s : str) : list MatchResult :=
  match skip with
  | S k =>
      match s with
      | [] => []
      | _ :: s' => matchAllFrom r k s'
      end
  | O =>
      match matchAt r s with
      | Some m =>
          m :: match s with
               | [] => []
               | _ :: s' =>
                   matchAllFrom r (List.length s - List.length (after m) - 1) s'
               end
      | None =>
          match s with
          | [] => []
          | _ :: s' => matchAllFrom r 0 s'
          end
      end
  end.

Definition matchAll (r : re) (s : str) : list MatchResult :=
  matchAllFrom r 0 s.

(** [seq [r1; ...; rn]] is the sequence [r1 ... rn]. *)
Definition seq (rs : list re) : re := fold_right Cat Eps rs.

(** Character classes.  In the comments below [Q] stands for the class of
    the three quote characters (single quote, double quote, backtick) and
    [^Q] for its complement. *)
Definition isQuote (c : ascii) : bool :=
  Ascii.eqb c SQ || Ascii.eqb c DQ || Ascii.eqb c BQ.
Definition notQuote (c : ascii) : bool := negb (isQuote c).
Definition isDigit (c : ascii) : bool :=
  let n := nat_of_ascii c in (48 <=? n) && (n <=? 57).
Definition isWord (c : ascii) : bool :=                        (* \w *)
  isLower c || isUpper c || isDigit c || Ascii.eqb c "_"%char.
Definition notCloseBrace (c : ascii) : bool :=                 (* [^}] *)
  negb (Ascii.eqb c "}"%char).
Definition notCloseParen (c : ascii) : bool :=                 (* [^)] *)
  negb (Ascii.eqb c ")"%char).

(** [name\s*:\s*Q([^Q]+)Q] *)
Definition quotedField (name : str) : re :=
  seq [Lit name; Star isSpace; Lit (L ":"); Star isSpace;
       Chr isQuote; Grp 1 (Plus notQuote); Chr isQuote].

(** [name\s*\(\s*Q([^Q]+)Q] *)
Definition quotedCall (name : str) : re :=
  seq [Lit name; Star isSpace; Lit (L "("); Star isSpace;
       Chr isQuote; Grp 1 (Plus notQuote); Chr isQuote].

(** [name\s*:\s*\{([^}]+)\}] *)
Definition braceBlock (name : str) : re :=
  seq [Lit name; Star isSpace; Lit (L ":"); Star isSpace;
       Lit (L "{"); Grp 1 (Plus notCloseBrace); Lit (L "}")].

Definition fetchUrlRe : re := quotedCall (L "fetch").
Definition methodRe : re :=
  seq [Lit (L "method"); Star isSpace; Lit (L ":"); Star isSpace;
       Chr isQuote; Grp 1 (Plus isWord); Chr isQuote].
Definition headersRe : re := braceBlock (L "headers").
(** [Q([^Q]+)Q\s*:\s*Q([^Q]+)Q] *)
Definition headerEntryRe : re :=
  seq [Chr isQuote; Grp 1 (Plus notQuote); Chr isQuote;
       Star isSpace; Lit (L ":"); Star isSpace;
       Chr isQuote; Grp 2 (Plus notQuote); Chr isQuote].
Definition bodyStringRe : re := quotedField (L "body").
(** [body\s*:\s*JSON\.stringify\s*\(([^)]+)\)] *)
Definition bodyJsonRe : re :=
  seq [Lit (L "body"); Star isSpace; Lit (L ":"); Star isSpace;
       Lit (L "JSON.stringify"); Star isSpace; Lit (L "(");
       Grp 1 (Plus notCloseParen); Lit (L ")")].
Definition axiosGetRe : re := quotedCall (L "axios.get").
Definition axiosPostRe : re := quotedCall (L "axios.post").
Definition urlRe : re := quotedField (L "url").
Definition authRe : re := braceBlock (L "auth").
Definition usernameRe : re := quotedField (L "username").
Definition passwordRe : re := quotedField (L "password").
(** [data\s*:\s*(Q([^Q]+)Q|\{[^}]+\})] *)
Definition dataRe : re :=
  seq [Lit (L "data"); Star isSpace; Lit (L ":"); Star isSpace;
       Grp 1 (Alt (seq [Chr isQuote; Grp 2 (Plus notQuote); Chr isQuote])
                  (seq [Lit (L "{"); Plus notCloseBrace; Lit (L "}")]))].

(** ** Results of code that can throw *)

Inductive Exn : Type := TypeError | SyntaxError.

Inductive Res (A : Type) : Type :=
| Ok : A -> Res A
| Throw : Exn -> Res A.
Arguments Ok {A} _.
Arguments Throw {A} _.

Definition bind {A B} (x : Res A) (f : A -> Res B) : Res B :=
  match x with
  | Ok a => f a
  | Throw e => Throw e
  end.

Notation "x <- e ;; k" := (bind e (fun x => k))
  (at level 61, e at next level, right associativity).

(** [m[n]] used as a string: a group that took no part in the match is
    [undefined], and a method call on it throws.  The model reports every
    use of an undefined capture as a string this way, so that a record that
    is returned is well typed. *)
Definition group (n : nat) (m : MatchResult) : Res str :=
  match getCap n (groups m) with
  | Some t => Ok t
  | None => Throw TypeError
  end.

(** ** Extractors for fetch and axios snippets *)

(** The [for] loop over the header entries of a [headers: { ... }] block. *)
Fixpoint addHeaderEntries (ms : list MatchResult) (r : ParsedRequest)
  : Res ParsedRequest :=
  match ms with
  | [] => Ok r
  | m :: ms' =>
      k <- group 1 m ;;
      v <- group 2 m ;;
      addHeaderEntries ms' (withHeaders (setHeader k v (headers r)) r)
  end.

Definition extractHeaders (code : str) (r : ParsedRequest)
  : Res ParsedRequest :=
  match exec headersRe code with
  | Some headersBlock =>
      block <- group 1 headersBlock ;;
      addHeaderEntries (matchAll headerEntryRe block) r
  | None => Ok r
  end.

Definition extractMethod (code : str) (r : ParsedRequest)
  : Res ParsedRequest :=
  match exec methodRe code with
  | Some methodMatch =>
      m <- group 1 methodMatch ;;
      Ok (withMethod (toUpperCase m) r)
  | None => Ok r
  end.

Definition parseFetchCode (code : str) : Res ParsedRequest :=
  let result := emptyRequest in
  result <- match exec fetchUrlRe code with
            | Some urlMatch =>
                u <- group 1 urlMatch ;; Ok (withUrl u result)
            | None => Ok result
            end ;;
  result <- extractMethod code result ;;
  result <- extractHeaders code result ;;
  let bodyStringMatch := exec bodyStringRe code in
  let bodyJsonMatch := exec bodyJsonRe code in
  match bodyJsonMatch with
  | Some m => b <- group 1 m ;; Ok (withBody (Some (trim b)) result)
  | None =>
      match bodyStringMatch with
      | Some m => b <- group 1 m ;; Ok (withBody (Some b) result)
      | None => Ok result
      end
  end.

Definition parseAxiosCode (code : str) : Res ParsedRequest :=
  let result := emptyRequest in
  match exec axiosGetRe code with
  | Some simpleGet =>
      u <- group 1 simpleGet ;; Ok (withUrl u result)
  | None =>
      result <- match exec axiosPostRe code with
                | Some simplePost =>
                    u <- group 1 simplePost ;;
                    Ok (withMethod (L "POST") (withUrl u result))
                | None => Ok result
                end ;;
      result <- match exec urlRe code with
                | Some urlMatch =>
                    u <- group 1 urlMatch ;; Ok (withUrl u result)
                | None => Ok result
                end ;;
      result <- extractMethod code result ;;
      result <- extractHeaders code result ;;
      result <- match exec authRe code with
                | Some authBlock =>
                    block <- group 1 authBlock ;;
                    match exec usernameRe block with
                    | Some userMatch =>
                        u <- group 1 userMatch ;;
                        p <- match exec passwordRe block with
                             | Some passMatch => group 1 passMatch
                             | None => Ok []
                             end ;;
                        Ok (withAuth (Some {| user := u; pass := p |}) result)
                    | None => Ok result
                    end
                | None => Ok result
                end ;;
      match exec dataRe code with
      | Some dataMatch =>
          match getCap 2 (groups dataMatch) with
          | Some (x :: t) => Ok (withBody (Some (x :: t)) result)
          | _ => b <- group 1 dataMatch ;; Ok (withBody (Some b) result)
          end
      | None => Ok result
      end
  end.

(** ** JSON.parse

    The grammar of [JSON.parse] (ECMA-404).  A string value is kept as its
    list of UTF-16 code units, since a [\u] escape can denote any of them;
    a number is kept as its literal text. *)

#[local] Set Warnings "-register-all".
Inductive json : Type :=
| JNull : json
| JBool : bool -> json
| JNum : str -> json
| JStr : list N -> json
| JArr : list json -> json
| JObj : list (list N * json) -> json.
#[local] Set Warnings "register-all".

Definition units (s : str) : list N := map N_of_ascii s.

Definition isJsonWs (c : ascii) : bool :=
  let n := nat_of_ascii c in (n =? 9) || (n =? 10) || (n =? 13) || (n =? 32).

Fixpoint skipWs (s : str) : str :=
  match s with
  | c :: s' => if isJsonWs c then skipWs s' else s
  | [] => []
  end.

Definition hexVal (c : ascii) : option N :=
  let n := nat_of_ascii c in
  if isDigit c then Some (N.of_nat (n - 48))
  else if (97 <=? n) && (n <=? 102) then Some (N.of_nat (n - 87))
  else if (65 <=? n) && (n <=? 70) then Some (N.of_nat (n - 55))
  else None.

Definition hex4 (a b c d : ascii) : option N :=
  match hexVal a, hexVal b, hexVal c, hexVal d with
  | Some x, Some y, Some z, Some w => Some (((x * 16 + y) * 16 + z) * 16 + w)%N
  | _, _, _, _ => None
  end.

Definition simpleEscape (c : ascii) : option N :=
  if Ascii.eqb c DQ then Some 34%N
  else if Ascii.eqb c BS then Some 92%N
  else if Ascii.eqb c "/"%char then Some 47%N
  else if Ascii.eqb c "b"%char then Some 8%N
  else if Ascii.eqb c "f"%char then Some 12%N
  else if Ascii.eqb c "n"%char then Some 10%N
  else if Ascii.eqb c "r"%char then Some 13%N
  else if Ascii.eqb c "t"%char then Some 9%N
  else None.

(** The characters of a string after its opening quote, up to and including
    the closing quote; [acc] holds the code units read so far, reversed. *)
Fixpoint parseStringBody (s : str) (acc : list N) : option (list N * str) :=
  match s with
  | [] => None
  | c :: s' =>
      if Ascii.eqb c DQ then Some (rev acc, s')
      else if Ascii.eqb c BS then
        match s' with
        | e :: s'' =>
            if Ascii.eqb e "u"%char then
              match s'' with
              | h1 :: h2 :: h3 :: h4 :: s4 =>
                  match hex4 h1 h2 h3 h4 with
                  | Some u => parseStringBody s4 (u :: acc)
                  | None => None
                  end
              | _ => None
              end
            else
              match simpleEscape e with
              | Some u => parseStringBody s'' (u :: acc)
              | None => None
              end
        | [] => None
        end
      else if nat_of_ascii c <? 32 then None
      else parseStringBody s' (N_of_ascii c :: acc)
  end.

Fixpoint spanDigits (s : str) : str :=
  match s with
  | c :: s' => if isDigit c then spanDigits s' else s
  | [] => []
  end.

(** One or more digits. *)
Definition digits1 (s : str) : option str :=
  match s with
  | c :: s' => if isDigit c then Some (spanDigits s') else None
  | [] => None
  end.

(** The rest of the input after a number literal: an optional minus sign,
    then a zero or a non-zero digit followed by digits, then optionally a
    point with one or more digits, then optionally an exponent ([e] or [E],
    an optional sign, one or more digits). *)
Definition parseNumber (s : str) : option str :=
  let s1 := match s with
            | c :: s' => if Ascii.eqb c "-"%char then s' else s
            | [] => s
            end in
  match s1 with
  | [] => None
  | c :: s2 =>
      let afterInt :=
        if Ascii.eqb c "0"%char then Some s2
        else if isDigit c then Some (spanDigits s2)
        else None in
      match afterInt with
      | None => None
      | Some s3 =>
          let afterFrac :=
            match s3 with
            | d :: s4 =>
                if Ascii.eqb d "."%char then digits1 s4 else Some s3
            | [] => Some s3
            end in
          match afterFrac with
          | None => None
          | Some s5 =>
              match s5 with
              | e :: s6 =>
                  if Ascii.eqb e "e"%char || Ascii.eqb e "E"%char then
                    match s6 with
                    | g :: s7 =>
                        if Ascii.eqb g "+"%char || Ascii.eqb g "-"%char
                        then digits1 s7 else digits1 s6
                    | [] => None
                    end
                  else Some s5
              | [] => Some s5
              end
          end
      end
  end.

(** A value, the elements of an array after its first bracket, and the
    members of an object after its first brace.  The three parsers call
    one another; each body takes the parsers it calls as arguments. *)
Definition Parser (A : Type) : Type := str -> A -> option (json * str).

Definition valueBody (elements : Parser (list json))
           (members : Parser (list (list N * json))) (s : str)
  : option (json * str) :=
  match skipWs s with
  | [] => None
  | c :: s1 =>
      if Ascii.eqb c "{"%char then
        match skipWs s1 with
        | d :: s2 =>
            if Ascii.eqb d "}"%char then Some (JObj [], s2)
            else members (skipWs s1) []
        | [] => None
        end
      else if Ascii.eqb c "["%char then
        match skipWs s1 with
        | d :: s2 =>
            if Ascii.eqb d "]"%char then Some (JArr [], s2)
            else elements (skipWs s1) []
        | [] => None
        end
      else if Ascii.eqb c DQ then
        match parseStringBody s1 [] with
        | Some (u, s2) => Some (JStr u, s2)
        | None => None
        end
      else
        match stripPrefix (L "true") (c :: s1),
              stripPrefix (L "false") (c :: s1),
              stripPrefix (L "null") (c :: s1) with
        | Some s2, _, _ => Some (JBool true, s2)
        | _, Some s2, _ => Some (JBool false, s2)
        | _, _, Some s2 => Some (JNull, s2)
        | None, None, None =>
            match parseNumber (c :: s1) with
            | Some s2 => Some (JNum (consumed (c :: s1) s2), s2)
            | None => None
            end
        end
  end.

Definition elementsBody (value : str -> option (json * str))
           (elements : Parser (list json)) (s : str) (acc : list json)
  : option (json * str) :=
  match value s with
  | Some (v, s1) =>
      match skipWs s1 with
      | d :: s2 =>
          if Ascii.eqb d ","%char then elements s2 (v :: acc)
          else if Ascii.eqb d "]"%char
               then Some (JArr (rev (v :: acc)), s2)
               else None
      | [] => None
      end
  | None => None
  end.

Definition membersBody (value : str -> option (json * str))
           (members : Parser (list (list N * json))) (s : str)
           (acc : list (list N * json))
  : option (json * str) :=
  match skipWs s with
  | d :: s1 =>
      if Ascii.eqb d DQ then
        match parseStringBody s1 [] with
        | Some (k, s2) =>
            match skipWs s2 with
            | e :: s3 =>
                if Ascii.eqb e ":"%char then
                  match value s3 with
                  | Some (v, s4) =>
                      match skipWs s4 with
                      | g :: s5 =>
                          if Ascii.eqb g ","%char
                          then members s5 ((k, v) :: acc)
                          else if Ascii.eqb g "}"%char
                               then Some (JObj (rev ((k, v) :: acc)), s5)
                               else None
                      | [] => None
                      end
                  | None => None
                  end
                else None
            | [] => None
            end
        | None => None
        end
      else None
  | [] => None
  end.

(** Every call takes one unit of [fuel]. *)
Fixpoint parseValue (fuel : nat) (s : str) : option (json * str) :=
  match fuel with
  | O => None
  | S f => valueBody (parseElements f) (parseMembers f) s
  end
with parseElements (fuel : nat) (s : str) (acc : list json)
  : option (json * str) :=
  match fuel with
  | O => None
  | S f => elementsBody (parseValue f) (parseElements f) s acc
  end
with parseMembers (fuel : nat) (s : str) (acc : list (list N * json))
  : option (json * str) :=
  match fuel with
  | O => None
  | S f => membersBody (parseValue f) (parseMembers f) s acc
  end.

(** [JSON.parse(text)]: [None] stands for the [SyntaxError]. *)
Definition JSON_parse (text : str) : option json :=
  match parseValue (2 * List.length text + 2) text with
  | Some (v, s') =>
      match skipWs s' with
      | [] => Some v
      | _ :: _ => None
      end
  | None => None
  end.

(** [v.name] on a parsed value, for a name that no prototype defines:
    [Throw TypeError] on [null], [Ok None] for [undefined].  Of two members
    with the same key the later one wins. *)
Fixpoint lookupKey (name : list N) (ms : list (list N * json))
  : option json :=
  match ms with
  | [] => None
  | (k, v) :: ms' =>
      match lookupKey name ms' with
      | Some v' => Some v'
      | None => if list_eq_dec N.eq_dec k name then Some v else None
      end
  end.

Definition getProp (v : json) (name : str) : Res (option json) :=
  match v with
  | JNull => Throw TypeError
  | JObj ms => Ok (lookupKey (units name) ms)
  | _ => Ok None
  end.

(** A number literal as [m * 10^e], sign apart: [m] is the number that the
    digits of the integer and of the fraction part spell, [e] the exponent
    less the number of fraction digits. *)
Fixpoint scanDigits (s : str) (acc count : Z) : Z * Z * str :=
  match s with
  | c :: s' =>
      if isDigit c
      then scanDigits s' (10 * acc + Z.of_nat (nat_of_ascii c - 48))%Z
                      (count + 1)%Z
      else (acc, count, s)
  | [] => (acc, count, [])
  end.

Definition decimalOf (lit : str) : Z * Z :=
  let s := match lit with
           | c :: s' => if Ascii.eqb c "-"%char then s' else lit
           | [] => lit
           end in
  let '(m1, _, s1) := scanDigits s 0%Z 0%Z in
  let '(m2, k, s2) :=
    match s1 with
    | c :: s' => if Ascii.eqb c "."%char then scanDigits s' m1 0%Z
                 else (m1, 0%Z, s1)
    | [] => (m1, 0%Z, s1)
    end in
  let digitsOf t := fst (fst (scanDigits t 0%Z 0%Z)) in
  let e :=
    match s2 with
    | c :: s' =>
        if Ascii.eqb c "e"%char || Ascii.eqb c "E"%char then
          match s' with
          | g :: s'' =>
              if Ascii.eqb g "-"%char then (- digitsOf s'')%Z
              else if Ascii.eqb g "+"%char then digitsOf s''
              else digitsOf s'
          | [] => 0%Z
          end
        else 0%Z
    | [] => 0%Z
    end in
  (m2, (e - k)%Z).

(** [JSON.parse] gives the double nearest to the literal (ties to even):
    that is zero when the mantissa is zero, and when the value is at most
    [2^-1075], half of the least positive double. *)
Definition numberIsZero (lit : str) : bool :=
  let '(m, e) := decimalOf lit in
  if (m =? 0)%Z then true
  else if (0 <=? e)%Z then false
  else (m * 2 ^ 1075 <=? 10 ^ (- e))%Z.

(** Truthiness of a parsed value. *)
Definition truthyJson (v : json) : bool :=
  match v with
  | JNull => false
  | JBool b => b
  | JNum lit => negb (numberIsZero lit)
  | JStr u => match u with [] => false | _ :: _ => true end
  | JArr _ => true
  | JObj _ => true
  end.

Definition truthyProp (o : option json) : bool :=
  match o with Some v => truthyJson v | None => false end.

(** ** Format detector *)

Inductive InputType : Type :=
| curl | fetch | axios | postman | unknown.

(** The body of the [try] block: [Ok true] when it returns ['postman'],
    [Ok false] when it runs to its end, [Throw _] when it throws. *)
Definition postmanCheck (trimmed : str) : Res bool :=
  match JSON_parse trimmed with
  | None => Throw SyntaxError
  | Some parsed =>
      info <- getProp parsed (L "info") ;;
      if truthyProp info then
        item <- getProp parsed (L "item") ;;
        Ok (truthyProp item)
      else Ok false
  end.

Definition detectType (input : str) : InputType :=
  let trimmed := trim input in
  if startsWith (L "curl ") trimmed || startsWith (L "curl" ++ [NL]) trimmed
  then curl
  else
    match postmanCheck trimmed with
    | Ok true => postman
    | _ =>
        if includes (L "fetch(") trimmed || includes (L "fetch (") trimmed
        then fetch
        else if includes (L "axios") trimmed then axios
        else unknown
    end.

(** ** Code generators *)

Definition isSome {A} (o : option A) : bool :=
  match o with Some _ => true | None => false end.

Definition hasKeys (h : list (str * str)) : bool :=
  match h with [] => false | _ :: _ => true end.

(** The [try { JSON.parse(body) ... } catch { ... }] of both generators:
    the body text itself after [open] when it is JSON, the body between
    single quotes, with its single quotes escaped, when it is not. *)
Definition bodyLine (field : str) (open close : str) (b : str) : str :=
  match JSON_parse b with
  | Some _ => field ++ open ++ b ++ close ++ L ","
  | None => field ++ L "'" ++ escapeQuotes b ++ L "',"
  end.

Definition toFetchLines (req : ParsedRequest) : list str :=
  let hasOptions :=
    negb (eqb_str (method req) (L "GET")) || hasKeys (headers req)
    || truthyOpt (body req) || isSome (auth req) in
  match auth req with
  | Some a =>
      [L "const credentials = btoa('" ++ user a ++ L ":" ++ pass a ++ L "');";
       []]
  | None => []
  end
  ++ (if negb hasOptions then
        [L "const response = await fetch('" ++ url req ++ L "');"]
      else
        [L "const response = await fetch('" ++ url req ++ L "', {";
         L "  method: '" ++ method req ++ L "',"]
        ++ (let headers' :=
              match auth req with
              | Some _ => setHeader (L "Authorization")
                            (L "${`Basic ${credentials}`}") (headers req)
              | None => headers req
              end in
            if hasKeys headers' then
              [L "  headers: {"]
              ++ map (fun kv =>
                        if eqb_str (fst kv) (L "Authorization")
                           && isSome (auth req)
                        then L "    'Authorization': `Basic ${credentials}`,"
                        else L "    '" ++ fst kv ++ L "': '"
                             ++ escapeQuotes (snd kv) ++ L "',")
                     headers'
              ++ [L "  },"]
            else [])
        ++ match body req with
           | Some b =>
               if truthy b
               then [bodyLine (L "  body: ") (L "JSON.stringify(") (L ")") b]
               else []
           | None => []
           end
        ++ [L "});"])
  ++ [[]; L "const data = await response.json();"; L "console.log(data);"].

Definition toFetch (req : ParsedRequest) : str :=
  join [NL] (toFetchLines req).

(** The [config] array of [toAxios]. *)
Definition toAxiosConfig (req : ParsedRequest) : list str :=
  [L "  method: '" ++ toLowerCase (method req) ++ L "',";
   L "  url: '" ++ url req ++ L "',"]
  ++ (if hasKeys (headers req) then
        [L "  headers: {"]
        ++ map (fun kv => L "    '" ++ fst kv ++ L "': '"
                          ++ escapeQuotes (snd kv) ++ L "',")
               (headers req)
        ++ [L "  },"]
      else [])
  ++ match auth req with
     | Some a =>
         [L "  auth: {";
          L "    username: '" ++ user a ++ L "',";
          L "    password: '" ++ pass a ++ L "',";
          L "  },"]
     | None => []
     end
  ++ match body req with
     | Some b =>
         if truthy b then [bodyLine (L "  data: ") [] [] b] else []
     | None => []
     end.

Definition toAxiosLines (req : ParsedRequest) : list str :=
  [L "import axios from 'axios';"; []]
  ++ (if eqb_str (method req) (L "GET") && negb (truthyOpt (body req))
         && negb (hasKeys (headers req)) && negb (isSome (auth req))
      then
        [L "const { data } = await axios.get('" ++ url req ++ L "');";
         L "console.log(data);"]
      else
        [L "const { data } = await axios({";
         join [NL] (toAxiosConfig req);
         L "});";
         [];
         L "console.log(data);"]).

Definition toAxios (req : ParsedRequest) : str :=
  join [NL] (toAxiosLines req).

(** ** Postman collection importer

    [JSON.parse] returns [any]; the importer reads it at the declared type
    [PostmanItem].  The model is over documents of that type: each field
    the code tests for presence is optional, and an array that is present
    is truthy even when empty. *)

Module Postman.

Record KeyValue := { key : str; value : str }.

Record UrlObject := {
  raw : option str;
  protocol : option str;
  host : option (list str);
  path : option (list str)
}.

Inductive Url : Type :=
| UrlString : str -> Url
| UrlObj : UrlObject -> Url.

Record Body := {
  mode : str;
  body_raw : option str;
  urlencoded : option (list KeyValue)
}.

Record AuthSpec := {
  type : str;
  basic : option (list KeyValue)
}.

Record Request := {
  req_method : option str;
  req_url : option Url;
  header : option (list KeyValue);
  req_body : option Body;
  req_auth : option AuthSpec
}.

#[local] Set Warnings "-register-all".
Inductive Item : Type :=
| MkItem (name : str) (request : option Request)
         (item : option (list Item)).
#[local] Set Warnings "register-all".

Definition name (i : Item) : str := let 'MkItem n _ _ := i in n.
Definition request (i : Item) : option Request :=
  let 'MkItem _ r _ := i in r.
Definition item (i : Item) : option (list Item) :=
  let 'MkItem _ _ l := i in l.

(** The importer reads only the [item] field of the collection. *)
Record Collection := {
  collection_item : option (list Item)
}.

(** What one iteration of the loop of [flattenItems] pushes to [items]. *)
Fixpoint flattenItem (i : Item) : list Item :=
  match i with
  | MkItem _ request item =>
      match item with
      | Some sub =>
          (fix flattenList (l : list Item) : list Item :=
             match l with
             | [] => []
             | x :: l' => flattenItem x ++ flattenList l'
             end) sub
      | None =>
          match request with
          | Some _ => [i]
          | None => []
          end
      end
  end.

(** [flattenItems(itemList)]: the items pushed, in the order of the
    pushes. *)
Fixpoint flattenItems (itemList : list Item) : list Item :=
  match itemList with
  | [] => []
  | x :: l' => flattenItem x ++ flattenItems l'
  end.

(** [a || b] on optional strings. *)
Definition orElse (a : option str) (b : str) : str :=
  match a with
  | Some s => if truthy s then s else b
  | None => b
  end.

Definition resolveUrl (u : option Url) : str :=
  match u with
  | Some (UrlString s) => s
  | Some (UrlObj o) =>
      if truthyOpt (raw o) then orElse (raw o) []
      else
        let protocol := orElse (protocol o) (L "https") in
        let host := orElse (option_map (join (L ".")) (host o))
                           (L "localhost") in
        let path := orElse (option_map (join (L "/")) (path o)) [] in
        protocol ++ L "://" ++ host ++ L "/" ++ path
  | None => []
  end.

Definition resolveHeaders (h : option (list KeyValue))
  : list (str * str) :=
  match h with
  | Some l => fold_left (fun acc kv => setHeader (key kv) (value kv) acc)
                        l []
  | None => []
  end.

Definition resolveBody (b : option Body) : option str :=
  match b with
  | Some b =>
      if eqb_str (mode b) (L "raw") && truthyOpt (body_raw b)
      then body_raw b
      else if eqb_str (mode b) (L "urlencoded") && isSome (urlencoded b)
      then option_map
             (fun l => join (L "&")
                            (map (fun p => key p ++ L "=" ++ value p) l))
             (urlencoded b)
      else None
  | None => None
  end.

Definition resolveAuth (a : option AuthSpec) : option Auth :=
  match a with
  | Some a =>
      if eqb_str (type a) (L "basic") then
        match basic a with
        | Some entries =>
            let userEntry :=
              find (fun e => eqb_str (key e) (L "username")) entries in
            let passEntry :=
              find (fun e => eqb_str (key e) (L "password")) entries in
            match userEntry with
            | Some u =>
                Some {| user := value u;
                        pass := orElse (option_map value passEntry) [] |}
            | None => None
            end
        | None => None
        end
      else None
  | None => None
  end.

(** The callback of [items.map]. *)
Definition toRequest (req : Request) : ParsedRequest :=
  {| method := orElse (req_method req) (L "GET");
     url := resolveUrl (req_url req);
     headers := resolveHeaders (header req);
     body := resolveBody (req_body req);
     contentType := None;
     auth := resolveAuth (req_auth req);
     followRedirects := true;
     insecure := false |}.

(** The statements of [parsePostmanCollection] after [JSON.parse], on a
    document of the declared type. *)
Definition importCollection (collection : Collection)
  : list ParsedRequest :=
  let items :=
    match collection_item collection with
    | Some l => flattenItems l
    | None => []
    end in
  flat_map (fun i => match request i with
                     | Some req => [toRequest req]
                     | None => []
                     end) items.

(** *** Reading the parsed JSON at the declared type

    A field that is absent or [null] is an optional field that is not
    there (both are falsy and no code path tells them apart); a string has
    to be a string of code units below 256; members the importer never
    reads are ignored.  [None] means that the value is not of the declared
    type. *)

Definition ofUnits (u : list N) : option str :=
  if forallb (fun n => (n <? 256)%N) u then Some (map ascii_of_N u)
  else None.

Definition field (name : string) (ms : list (list N * json))
  : option json :=
  lookupKey (units (L name)) ms.

Definition reqStr (o : option json) : option str :=
  match o with
  | Some (JStr u) => ofUnits u
  | _ => None
  end.

Definition optStr (o : option json) : option (option str) :=
  match o with
  | None | Some JNull => Some None
  | Some (JStr u) => option_map Some (ofUnits u)
  | Some _ => None
  end.

Fixpoint mapM {A B} (f : A -> option B) (l : list A) : option (list B) :=
  match l with
  | [] => Some []
  | x :: l' =>
      match f x, mapM f l' with
      | Some y, Some ys => Some (y :: ys)
      | _, _ => None
      end
  end.

Definition optArr {B} (f : json -> option B) (o : option json)
  : option (option (list B)) :=
  match o with
  | None | Some JNull => Some None
  | Some (JArr l) => option_map Some (mapM f l)
  | Some _ => None
  end.

Definition asStr (v : json) : option str := reqStr (Some v).

Definition asKeyValue (v : json) : option KeyValue :=
  match v with
  | JObj ms =>
      match reqStr (field "key" ms), reqStr (field "value" ms) with
      | Some k, Some x => Some {| key := k; value := x |}
      | _, _ => None
      end
  | _ => None
  end.

Definition asUrl (o : option json) : option (option Url) :=
  match o with
  | None | Some JNull => Some None
  | Some (JStr u) => option_map (fun s => Some (UrlString s)) (ofUnits u)
  | Some (JObj ms) =>
      match optStr (field "raw" ms), optStr (field "protocol" ms),
            optArr asStr (field "host" ms), optArr asStr (field "path" ms)
      with
      | Some r, Some p, Some h, Some pa =>
          Some (Some (UrlObj {| raw := r; protocol := p;
                                host := h; path := pa |}))
      | _, _, _, _ => None
      end
  | Some _ => None
  end.

Definition asBody (o : option json) : option (option Body) :=
  match o with
  | None | Some JNull => Some None
  | Some (JObj ms) =>
      match reqStr (field "mode" ms), optStr (field "raw" ms),
            optArr asKeyValue (field "urlencoded" ms) with
      | Some m, Some r, Some u =>
          Some (Some {| mode := m; body_raw := r; urlencoded := u |})
      | _, _, _ => None
      end
  | Some _ => None
  end.

Definition asAuth (o : option json) : option (option AuthSpec) :=
  match o with
  | None | Some JNull => Some None
  | Some (JObj ms) =>
      match reqStr (field "type" ms),
            optArr asKeyValue (field "basic" ms) with
      | Some t, Some b => Some (Some {| type := t; basic := b |})
      | _, _ => None
      end
  | Some _ => None
  end.

Definition asRequest (o : option json) : option (option Request) :=
  match o with
  | None | Some JNull => Some None
  | Some (JObj ms) =>
      match optStr (field "method" ms), asUrl (field "url" ms),
            optArr asKeyValue (field "header" ms),
            asBody (field "body" ms), asAuth (field "auth" ms) with
      | Some m, Some u, Some h, Some b, Some a =>
          Some (Some {| req_method := m; req_url := u; header := h;
                        req_body := b; req_auth := a |})
      | _, _, _, _, _ => None
      end
  | Some _ => None
  end.

(** The [item] member of an object, read as a list of items: not found,
    or found with what it reads as. *)
Inductive ItemField : Type :=
| NotFound : ItemField
| Found : option (option (list Item)) -> ItemField.

Fixpoint asItem (v : json) : option Item :=
  match v with
  | JObj ms =>
      let sub :=
        (fix scan (l : list (list N * json)) : ItemField :=
           match l with
           | [] => NotFound
           | (k, x) :: l' =>
               match scan l' with
               | Found r => Found r
               | NotFound =>
                   if list_eq_dec N.eq_dec k (units (L "item")) then
                     match x with
                     | JNull => Found (Some None)
                     | JArr xs =>
                         Found
                           (option_map Some
                              ((fix all (ys : list json)
                                  : option (list Item) :=
                                  match ys with
                                  | [] => Some []
                                  | y :: ys' =>
                                      match asItem y, all ys' with
                                      | Some i, Some tl => Some (i :: tl)
                                      | _, _ => None
                                      end
                                  end) xs))
                     | _ => Found None
                     end
                   else NotFound
               end
           end) ms in
      match reqStr (field "name" ms), asRequest (field "request" ms),
            match sub with NotFound => Some None | Found r => r end with
      | Some n, Some r, Some l => Some (MkItem n r l)
      | _, _, _ => None
      end
  | _ => None
  end.

End Postman.

(** What a call does: it returns, it throws, or (for the importer) its
    input is not of the type the code declares for it.  On such an input
    the code may throw or return records whose fields are not strings; the
    model does not follow it there, and [Untyped] says so: it stands for
    no particular behaviour, also not for a return. *)
Inductive Outcome (A : Type) : Type :=
| Returns : A -> Outcome A
| Throws : Exn -> Outcome A
| Untyped : Outcome A.
Arguments Returns {A} _.
Arguments Throws {A} _.
Arguments Untyped {A}.

(** [parsePostmanCollection(json)].  [collection.item] throws on [null]
    and is [undefined] on a value that is not an object. *)
Definition parsePostmanCollection (json : str)
  : Outcome (list ParsedRequest) :=
  match JSON_parse json with
  | None => Throws SyntaxError
  | Some JNull => Throws TypeError
  | Some (JObj ms) =>
      match Postman.optArr Postman.asItem (Postman.field "item" ms) with
      | Some l =>
          Returns (Postman.importCollection
                     {| Postman.collection_item := l |})
      | None => Untyped
      end
  | Some _ => Returns []
  end.


(** ** Vocabulary of the properties *)

(** What the characters between double quotes contribute to the token: a
    backslash is dropped and the character after it is kept. *)
Fixpoint unescape (pending : bool) (s : str) : str :=
  match s with
  | [] => []
  | c :: s' =>
      if pending then c :: unescape false s'
      else if Ascii.eqb c BS then unescape true s'
      else c :: unescape false s'
  end.

(** A double-quoted stretch that is open where [s] starts is still open
    where [s] ends: every double quote of [s] stands behind a backslash
    that is not itself escaped.  [pending] says that [s] starts right
    after such a backslash. *)
Fixpoint staysOpen (pending : bool) (s : str) : bool :=
  match s with
  | [] => true
  | c :: s' =>
      if pending then staysOpen false s'
      else if Ascii.eqb c BS then staysOpen true s'
      else if Ascii.eqb c DQ then false
      else staysOpen false s'
  end.


(** The flag spellings of [parseCurl]. *)
Definition methodFlags : list str := [L "-X"; L "--request"].
Definition dataFlags : list str :=
  [L "-d"; L "--data"; L "--data-raw"; L "--data-binary"].
Definition valuedFlags : list str :=
  methodFlags ++ [L "-H"; L "--header"] ++ dataFlags
  ++ [L "--data-urlencode"; L "-u"; L "--user"; L "-A"; L "--user-agent";
      L "-b"; L "--cookie"; L "-e"; L "--referer"].

(** The command as the token loop reads it: the tokens it visits as flags,
    each with the argument it consumes ([None] for a token that stands
    alone). *)
Fixpoint flagUses (toks : list str) : list (str * option str) :=
  match toks with
  | [] => []
  | token :: rest =>
      match rest with
      | [] => [(token, None)]
      | next :: rest' =>
          if isOneOf token valuedFlags && truthy next
          then (token, Some next) :: flagUses rest'
          else (token, None) :: flagUses rest
      end
  end.

(** One iteration of the loop on a flag use. *)
Definition applyUse (st : CurlState) (u : str * option str) : CurlState :=
  fst (curlStep (fst u) (snd u) st).

(** The arguments of the uses of the given flags, in order. *)
Definition useArg (flags : list str) (u : str * option str) : list str :=
  match snd u with
  | Some n => if isOneOf (fst u) flags && truthy n then [n] else []
  | None => []
  end.

Definition argsOf (flags : list str) (toks : list str) : list str :=
  flat_map (useArg flags) (flagUses toks).

Definition methodArgs : list str -> list str := argsOf methodFlags.
Definition dataArgs : list str -> list str := argsOf dataFlags.

(** The last element of a list. *)
Definition lastOpt {A} (l : list A) : option A :=
  fold_left (fun _ x => Some x) l None.

(** A method as the record wants it: not empty, and equal to its own upper
    case. *)
Definition validMethod (m : str) : Prop := m <> [] /\ toUpperCase m = m.

(** What a successful run of the matcher stands for: [matches r s c s' c']
    says that [r] matches a prefix of [s], leaving [s'], and turns the
    captures [c] into [c']. *)
Inductive matches : re -> str -> caps -> str -> caps -> Prop :=
| M_Eps s c : matches Eps s c s c
| M_Lit l s c : matches (Lit l) (l ++ s) c s c
| M_Chr p x s c : p x = true -> matches (Chr p) (x :: s) c s c
| M_Star p l s c :
    Forall (fun x => p x = true) l -> matches (Star p) (l ++ s) c s c
| M_Plus p x l s c :
    p x = true -> Forall (fun x => p x = true) l ->
    matches (Plus p) (x :: l ++ s) c s c
| M_Cat a b s c s1 c1 s2 c2 :
    matches a s c s1 c1 -> matches b s1 c1 s2 c2 ->
    matches (Cat a b) s c s2 c2
| M_AltL a b s c s' c' : matches a s c s' c' -> matches (Alt a b) s c s' c'
| M_AltR a b s c s' c' : matches b s c s' c' -> matches (Alt a b) s c s' c'
| M_Grp n a s c s' c' :
    matches a s c s' c' ->
    matches (Grp n a) s c s' ((n, consumed s s') :: c').

(** [r] can match the empty string. *)
Fixpoint nullable (r : re) : bool :=
  match r with
  | Eps => true
  | Lit l => negb (truthy l)
  | Chr _ => false
  | Star _ => true
  | Plus _ => false
  | Cat a b => nullable a && nullable b
  | Alt a b => nullable a || nullable b
  | Grp _ a => nullable a
  end.

(** Group [n] occurs in [r]. *)
Fixpoint mentions (n : nat) (r : re) : bool :=
  match r with
  | Cat a b | Alt a b => mentions n a || mentions n b
  | Grp m a => Nat.eqb m n || mentions n a
  | _ => false
  end.

(** Every match of [r] binds group [n] to a string that is not empty. *)
Fixpoint binds (n : nat) (r : re) : bool :=
  match r with
  | Cat a b => binds n b || (binds n a && negb (mentions n b))
  | Alt a b => binds n a && binds n b
  | Grp m a => if Nat.eqb m n then negb (nullable a) else binds n a
  | _ => false
  end.

(** [sameBut m u h b a r r']: the record [r'] has the fields of [r], but
    for the ones whose flag is set. *)
Definition sameBut (skipMethod skipUrl skipHeaders skipBody skipAuth : bool)
           (r r' : ParsedRequest) : Prop :=
  (skipMethod = false -> method r' = method r)
  /\ (skipUrl = false -> url r' = url r)
  /\ (skipHeaders = false -> headers r' = headers r)
  /\ (skipBody = false -> body r' = body r)
  /\ (skipAuth = false -> auth r' = auth r)
  /\ contentType r' = contentType r
  /\ followRedirects r' = followRedirects r
  /\ insecure r' = insecure r.


(** JSON text, written with a single quote where the text has a double
    quote. *)
Definition jsonText (x : string) : str :=
  map (fun c => if Ascii.eqb c SQ then DQ else c) (L x).
Arguments jsonText x%_string.

(** What is left after a parser has run is no longer than its input. *)
Definition shrinks {A} (p : Parser A) : Prop :=
  forall s acc v s', p s acc = Some (v, s') -> List.length s' <= List.length s.


(** ** Vocabulary of the further properties *)

(** [st] with the tokens [ts] put in front of its own. *)
Definition withTokensBefore (ts : list str) (st : TokState) : TokState :=
  {| tokens := ts ++ tokens st; current := current st;
     inSingle := inSingle st; inDouble := inDouble st;
     escaped := escaped st |}.

(** No quote is open and no escape is pending. *)
Definition closedState (st : TokState) : bool :=
  negb (inSingle st) && negb (inDouble st) && negb (escaped st).

(** A character the tokenizer treats specially, the space apart. *)
Definition isShellSpecial (c : ascii) : bool :=
  Ascii.eqb c SQ || Ascii.eqb c DQ || Ascii.eqb c BS.

(** The test of the [default] case of [parseCurl]: the token does not start
    with a dash and starts with [http] or with a slash. *)
Definition urlShaped (token : str) : bool :=
  negb (startsWith (L "-") token)
  && (startsWith (L "http") token || startsWith (L "/") token).

(** The tokens of a command that the token loop reads as flags or bare
    words (not as the argument of a flag). *)
Definition flagTokens (toks : list str) : list str :=
  map fst (flagUses toks).

(** The keys of a headers object. *)
Definition keys (h : list (str * str)) : list str := map fst h.

(** An optional string that is not the empty string. *)
Definition notEmptyString (o : option str) : Prop :=
  match o with
  | Some b => b <> []
  | None => True
  end.

(** The cached content type is the value of a header whose name is
    [content-type] in some spelling. *)
Definition contentTypeCached (r : ParsedRequest) : Prop :=
  forall v, contentType r = Some v ->
            exists k, toLowerCase k = L "content-type"
                      /\ getHeader k (headers r) = Some v.


(** [body ? body + '&' + next : next] *)
Definition ampersand (b : option str) (n : str) : option str :=
  Some match b with
       | Some x => if truthy x then x ++ L "&" ++ n else n
       | None => n
       end.

(** ** Requests that survive the shell command

    [toCurl] writes the method bare and every other field between single
    quotes, and joins the parts with a backslash, a line feed and two
    spaces. *)

(** The separator of [toCurl] and what [parseCurl] makes of it. *)
Definition curlSep : str := SP :: BS :: NL :: L "  ".
Definition twoSpaces : str := [SP; SP].

(** A part of the command that the line joining of [parseCurl] leaves as
    it is: it holds no backslash followed by a line feed and it starts and
    ends with a character that is not white space. *)
Definition partOk (p : str) : bool :=
  negb (includes [BS; NL] p)
  && match p with c :: _ => negb (isSpace c) | [] => false end
  && match rev p with c :: _ => negb (isSpace c) | [] => false end.

(** A text that can stand between single quotes. *)
Definition quotable (x : str) : bool :=
  forallb (fun c => negb (Ascii.eqb c SQ)) x && negb (includes [BS; NL] x).

(** A word that can stand bare: not empty, no white space, no quote and no
    backslash. *)
Definition bareChar (c : ascii) : bool :=
  negb (isShellSpecial c) && negb (isSpace c).

Definition bareWord (x : str) : bool := truthy x && forallb bareChar x.

Definition noColon (x : str) : bool :=
  forallb (fun c => negb (Ascii.eqb c COLON)) x.

(** A header that [-H 'name: value'] carries unchanged.  The name is not
    an array index and not [__proto__], for which assignment to a
    JavaScript object does not append a property. *)
Definition headerOk (kv : str * str) : bool :=
  truthy (fst kv) && noColon (fst kv) && eqb_str (trim (fst kv)) (fst kv)
  && negb (forallb isDigit (fst kv))
  && negb (eqb_str (fst kv) (L "__proto__"))
  && quotable (fst kv)
  && eqb_str (trim (snd kv)) (snd kv) && quotable (snd kv).

Definition authOk (a : Auth) : bool :=
  noColon (user a) && noColon (pass a)
  && quotable (user a) && quotable (pass a).

(** A character on which [toUpperCase] of the model and of JavaScript
    agree. *)
Definition isAscii7 (c : ascii) : bool := nat_of_ascii c <? 128.

Definition curlSafe (r : ParsedRequest) : bool :=
  bareWord (method r) && forallb isAscii7 (method r)
  && eqb_str (toUpperCase (method r)) (method r)
  && (negb (truthy (url r)) || urlShaped (url r)) && quotable (url r)
  && forallb headerOk (headers r)
  && match auth r with Some a => authOk a | None => true end
  && match body r with Some b => quotable b | None => true end.

Definition isContentType (kv : str * str) : bool :=
  eqb_str (toLowerCase (fst kv)) (L "content-type").

(** The record that [parseCurl] reads from what [toCurl] writes for [r]. *)
Definition readBack (r : ParsedRequest) : ParsedRequest :=
  {| method := if eqb_str (method r) (L "GET") && truthyOpt (body r)
               then L "POST" else method r;
     url := url r;
     headers := headers r;
     body := if truthyOpt (body r) then body r else None;
     contentType := lastOpt (map snd (filter isContentType (headers r)));
     auth := auth r;
     followRedirects := true;
     insecure := insecure r |}.

(** [x] between single quotes, and a flag with a quoted argument. *)
Definition quoted (x : str) : str := SQ :: x ++ [SQ].
Definition flagged (f x : str) : str := f ++ SP :: quoted x.

(** The state of the tokenizer after a part that left [ts] as finished
    tokens and [cur] as the token under way, all quotes closed. *)
Definition tokAfter (ts : list str) (cur : str) : TokState :=
  {| tokens := ts; current := cur; inSingle := false; inDouble := false;
     escaped := false |}.

(** The parts of [toCurl] after the command name, and the tokens that
    [parseCurl] makes of them. *)
Definition curlArgs (r : ParsedRequest) : list str :=
  (if eqb_str (method r) (L "GET") then []
   else [L "-X" ++ SP :: method r])
  ++ [quoted (url r)]
  ++ map (fun kv => flagged (L "-H") (fst kv ++ L ": " ++ snd kv))
         (headers r)
  ++ match auth r with
     | Some a => [flagged (L "-u") (user a ++ L ":" ++ pass a)]
     | None => []
     end
  ++ match body r with
     | Some b => if truthy b then [flagged (L "-d") b] else []
     | None => []
     end
  ++ (if insecure r then [L "-k"] else []).

Definition curlTokens (r : ParsedRequest) : list str :=
  (if eqb_str (method r) (L "GET") then [] else [L "-X"; method r])
  ++ (if truthy (url r) then [url r] else [])
  ++ List.concat (map (fun kv => [L "-H"; fst kv ++ L ": " ++ snd kv])
                      (headers r))
  ++ match auth r with
     | Some a => [L "-u"; user a ++ L ":" ++ pass a]
     | None => []
     end
  ++ match body r with
     | Some b => if truthy b then [L "-d"; b] else []
     | None => []
     end
  ++ (if insecure r then [L "-k"] else []).

(** The parts [ps] pass the line joining unchanged, each leaves the
    tokenizer with all quotes closed, and together they give the tokens
    [toks]. *)
Definition segReads (ps : list str) (toks : list str) : Prop :=
  forallb partOk ps = true
  /\ forallb (fun p => closedState (tokLoop p tokInit)) ps = true
  /\ List.concat (map tokenize ps) = toks.

(** What the [-H] case of [parseCurl] does with a header [name: value]. *)
Definition addHeader (st : CurlState) (kv : str * str) : CurlState :=
  let st1 := onResult (fun r => withHeaders
                         (setHeader (fst kv) (snd kv) (headers r)) r) st in
  if isContentType kv then onResult (withContentType (Some (snd kv))) st1
  else st1.

(** ** The command line

    [main] reads the arguments, then the input (from the arguments, from a
    file or from the standard input), parses it, and writes to the
    console.  The model takes what [main] reads from outside as a [World]
    and gives the console calls in their order, together with the way the
    process ends.  Each call is an [Event]: the generated code is kept as
    text, the fixed messages are kept by name. *)

Module Cli.

Record World := {
  (* [fs.readFileSync(path.resolve(p), 'utf8')]: [None] when it throws *)
  readFile : str -> option str;
  (* [None] when the standard input is a terminal, the data read up to
     its end otherwise *)
  stdinData : option str
}.

(** The variables that the argument loop sets. *)
Record Options := {
  toFormat : str;
  fromFormat : str;
  filePath : str;
  jsonOutput : bool;
  showAll : bool;
  inputParts : list str
}.

Definition initOptions : Options :=
  {| toFormat := L "fetch"; fromFormat := []; filePath := [];
     jsonOutput := false; showAll := false; inputParts := [] |}.

Definition withTo (t : str) (o : Options) : Options :=
  {| toFormat := t; fromFormat := fromFormat o; filePath := filePath o;
     jsonOutput := jsonOutput o; showAll := showAll o;
     inputParts := inputParts o |}.

Definition withFrom (f : str) (o : Options) : Options :=
  {| toFormat := toFormat o; fromFormat := f; filePath := filePath o;
     jsonOutput := jsonOutput o; showAll := showAll o;
     inputParts := inputParts o |}.

Definition withFile (p : str) (o : Options) : Options :=
  {| toFormat := toFormat o; fromFormat := fromFormat o; filePath := p;
     jsonOutput := jsonOutput o; showAll := showAll o;
     inputParts := inputParts o |}.

Definition withJson (o : Options) : Options :=
  {| toFormat := toFormat o; fromFormat := fromFormat o;
     filePath := filePath o; jsonOutput := true; showAll := showAll o;
     inputParts := inputParts o |}.

Definition withAll (o : Options) : Options :=
  {| toFormat := toFormat o; fromFormat := fromFormat o;
     filePath := filePath o; jsonOutput := jsonOutput o; showAll := true;
     inputParts := inputParts o |}.

Definition pushInput (a : str) (o : Options) : Options :=
  {| toFormat := toFormat o; fromFormat := fromFormat o;
     filePath := filePath o; jsonOutput := jsonOutput o;
     showAll := showAll o; inputParts := inputParts o ++ [a] |}.

(** How the argument loop ends: with [process.exit(0)] after the help or
    the version, or at the end of the arguments. *)
Inductive ArgsResult : Type :=
| HelpAsked : ArgsResult
| VersionAsked : ArgsResult
| Parsed : Options -> ArgsResult.

(** [args[++i] || d] where [rest] is [args[i+1..]]. *)
Definition nextOr (rest : list str) (d : str) : str :=
  match rest with
  | n :: _ => if truthy n then n else d
  | [] => d
  end.

(** The argument loop: the list holds [args[i..]]. *)
Fixpoint argLoop (args : list str) (o : Options) : ArgsResult :=
  match args with
  | [] => Parsed o
  | a :: rest =>
      if isOneOf a [L "--help"; L "-h"] then HelpAsked
      else if isOneOf a [L "--version"; L "-v"] then VersionAsked
      else if isOneOf a [L "--to"] then
        match rest with
        | _ :: rest' => argLoop rest' (withTo (nextOr rest (L "fetch")) o)
        | [] => Parsed (withTo (nextOr rest (L "fetch")) o)
        end
      else if isOneOf a [L "--from"] then
        match rest with
        | _ :: rest' => argLoop rest' (withFrom (nextOr rest []) o)
        | [] => Parsed (withFrom (nextOr rest []) o)
        end
      else if isOneOf a [L "--file"; L "-f"] then
        match rest with
        | _ :: rest' => argLoop rest' (withFile (nextOr rest []) o)
        | [] => Parsed (withFile (nextOr rest []) o)
        end
      else if isOneOf a [L "--json"] then argLoop rest (withJson o)
      else if isOneOf a [L "--all"] then argLoop rest (withAll o)
      else argLoop rest (pushInput a o)
  end.

(** The calls of [console.log] and [console.error], and of the two
    printing functions. *)
Inductive Event : Type :=
| PrintHelp : Event                      (* printHelp() *)
| PrintVersion : Event                   (* printVersion() *)
| Log : str -> Event                     (* console.log(output) *)
| LogJson : ParsedRequest -> Event       (* JSON.stringify(req, null, 2) *)
| LogBlank : Event                       (* console.log() *)
| LogFound : nat -> Event                (* Found n requests. ... *)
| LogTitle : nat -> Event                (* --- Request n --- *)
| LogSummary : str -> str -> Event       (* method, space, url *)
| ErrCantRead : str -> Event             (* Can't read file: path *)
| ErrFileMessage : Event                 (* err.message of the read *)
| ErrNoInput : Event                     (* No input provided. ... *)
| ErrCantDetect : Event                  (* Can't detect input format. *)
| ErrUnknownFormat : str -> Event        (* Unknown format: name *)
| ErrUnknownOutput : str -> Event        (* Unknown output format: name *)
| ErrUncaught : Exn -> Event.            (* the handler of main().catch *)

(** How the process ends: [process.exit(code)] or the return of [main].
    [OutsideModel] is no ending: the input is a collection that is not of
    the type the importer declares, and from the call of the importer on
    the model does not follow the run, which may print and fail in ways
    the model does not describe.  The events of such a run are those
    written before that call. *)
Inductive Ending : Type :=
| Exit : nat -> Ending
| Returned : Ending
| OutsideModel : Ending.

Definition Run : Type := list Event * Ending.

Definition typeName (t : InputType) : str :=
  match t with
  | curl => L "curl"
  | fetch => L "fetch"
  | axios => L "axios"
  | postman => L "postman"
  | unknown => L "unknown"
  end.

(** The input after the file has been looked at: [None] when the file
    cannot be read. *)
Definition readInput (w : World) (o : Options) : option str :=
  let input := join (L " ") (inputParts o) in
  if truthy (filePath o) then option_map trim (readFile w (filePath o))
  else Some input.

(** [readStdin()], called when the input is empty. *)
Definition readStdin (w : World) : str :=
  match stdinData w with
  | Some data => trim data
  | None => []
  end.

(** The [switch] on the detected type: the requests with the notice
    printed on the way, or the way it fails. *)
Inductive ParseResult : Type :=
| Requests : list Event -> list ParsedRequest -> ParseResult
| Uncaught : Exn -> ParseResult
| UnknownFormat : ParseResult
| Unreadable : ParseResult.

Definition ofRes (r : Res ParsedRequest) : ParseResult :=
  match r with
  | Ok req => Requests [] [req]
  | Throw e => Uncaught e
  end.

Definition parseInput (detectedType : str) (o : Options) (input : str)
  : ParseResult :=
  if eqb_str detectedType (L "curl") then Requests [] [parseCurl input]
  else if eqb_str detectedType (L "fetch") then ofRes (parseFetchCode input)
  else if eqb_str detectedType (L "axios") then ofRes (parseAxiosCode input)
  else if eqb_str detectedType (L "postman") then
    match parsePostmanCollection input with
    | Returns requests =>
        if negb (showAll o) && (1 <? List.length requests) then
          Requests [LogFound (List.length requests)] (firstn 1 requests)
        else Requests [] requests
    | Throws e => Uncaught e
    | Untyped => Unreadable
    end
  else UnknownFormat.

(** The text printed for one request: [None] when the output format is
    not known. *)
Definition render (o : Options) (req : ParsedRequest) : option Event :=
  if jsonOutput o then Some (LogJson req)
  else if eqb_str (toFormat o) (L "fetch") then Some (Log (toFetch req))
  else if eqb_str (toFormat o) (L "axios") then Some (Log (toAxios req))
  else if eqb_str (toFormat o) (L "curl") then Some (Log (toCurl req))
  else None.

(** The output loop: [many] is [requests.length > 1], the list holds
    [requests[i..]]. *)
Fixpoint outputLoop (o : Options) (many : bool) (i : nat)
         (requests : list ParsedRequest) : Run :=
  match requests with
  | [] => ([], Returned)
  | req :: rest =>
      let title :=
        if many then [LogTitle (i + 1); LogSummary (method req) (url req)]
        else [] in
      match render o req with
      | Some e =>
          let blank := match rest with [] => [] | _ :: _ => [LogBlank] end in
          let '(events, ending) := outputLoop o many (i + 1) rest in
          (title ++ [e] ++ blank ++ events, ending)
      | None => (title ++ [ErrUnknownOutput (toFormat o)], Exit 1)
      end
  end.

(** [main] after the argument loop. *)
Definition mainWith (w : World) (o : Options) : Run :=
  match readInput w o with
  | None => ([ErrCantRead (filePath o); ErrFileMessage], Exit 1)
  | Some input =>
      let input := if truthy input then input else readStdin w in
      if negb (truthy input) then ([ErrNoInput], Exit 1)
      else
        let detectedType :=
          if truthy (fromFormat o) then fromFormat o
          else typeName (detectType input) in
        if eqb_str detectedType (L "unknown") then ([ErrCantDetect], Exit 1)
        else
          match parseInput detectedType o input with
          | Requests notice requests =>
              let '(events, ending) :=
                outputLoop o (1 <? List.length requests) 0 requests in
              (notice ++ events, ending)
          | Uncaught e => ([ErrUncaught e], Exit 1)
          | UnknownFormat => ([ErrUnknownFormat detectedType], Exit 1)
          | Unreadable => ([], OutsideModel)
          end
  end.

Definition main (w : World) (args : list str) : Run :=
  match argLoop args initOptions with
  | HelpAsked => ([PrintHelp], Exit 0)
  | VersionAsked => ([PrintVersion], Exit 0)
  | Parsed o => mainWith w o
  end.



(** The arguments that the loop does not push to the input. *)
Definition isOption (a : str) : bool :=
  isOneOf a [L "--help"; L "-h"; L "--version"; L "-v"; L "--to";
             L "--from"; L "--file"; L "-f"; L "--json"; L "--all"].

Definition isHelp (a : str) : bool := isOneOf a [L "--help"; L "-h"].
Definition isVersion (a : str) : bool :=
  isOneOf a [L "--version"; L "-v"].

(** The options whose value is the next argument. *)
Definition takesValue (a : str) : bool :=
  isOneOf a [L "--to"; L "--from"; L "--file"; L "-f"].

End Cli.
(** * Properties *)

(** ** Strings *)

#[local] Arguments Ascii.eqb !a !b : simpl nomatch.

Lemma eqb_str_eq (a b : str) : eqb_str a b = true <-> a = b.
Proof.
  revert b; induction a as [|x a IH]; intros [|y b]; simpl;
    try (split; [discriminate | discriminate]); try tauto.
  rewrite andb_true_iff, IH, Ascii.eqb_eq.
  split; [intros [-> ->]; reflexivity | intros H; inversion H; auto].
Qed.

Lemma eqb_str_refl (a : str) : eqb_str a a = true.
Proof. apply eqb_str_eq; reflexivity. Qed.

Lemma startsWith_prefix (p s : str) :
  startsWith p s = true -> exists t, s = p ++ t.
Proof.
  revert s; induction p as [|x p IH]; intros s H; simpl in *.
  - exists s; reflexivity.
  - destruct s as [|y s]; [discriminate|].
    apply andb_true_iff in H as [Hxy Hp].
    apply Ascii.eqb_eq in Hxy; subst y.
    destruct (IH _ Hp) as [t ->]; exists t; reflexivity.
Qed.

Lemma startsWith_app (p t : str) : startsWith p (p ++ t) = true.
Proof.
  induction p as [|x p IH]; simpl; [reflexivity|].
  rewrite Ascii.eqb_refl; exact IH.
Qed.

Lemma includes_startsWith (p s : str) :
  startsWith p s = true -> includes p s = true.
Proof. destruct s; simpl; intros ->; reflexivity. Qed.

Lemma includes_app (p a b : str) : includes p (a ++ p ++ b) = true.
Proof.
  induction a as [|x a IH]; simpl.
  - apply includes_startsWith, startsWith_app.
  - rewrite IH; apply orb_true_r.
Qed.

Lemma trimEnd_snoc (a : str) (x : ascii) :
  isSpace x = false -> trimEnd (a ++ [x]) = a ++ [x].
Proof.
  intros H; unfold trimEnd.
  rewrite rev_app_distr; simpl; rewrite H; simpl.
  rewrite rev_involutive; reflexivity.
Qed.

Lemma upperChar_idem (c : ascii) : upperChar (upperChar c) = upperChar c.
Proof.
  destruct c as [[] [] [] [] [] [] [] []]; reflexivity.
Qed.

Lemma toUpperCase_idem (s : str) :
  toUpperCase (toUpperCase s) = toUpperCase s.
Proof.
  unfold toUpperCase; rewrite map_map.
  apply map_ext; intros; apply upperChar_idem.
Qed.

Lemma toUpperCase_nonempty (s : str) : s <> [] -> toUpperCase s <> [].
Proof. destruct s; simpl; [congruence | discriminate]. Qed.

Lemma truthy_nonempty (s : str) : truthy s = true <-> s <> [].
Proof. destruct s; simpl; split; congruence. Qed.

(** ** Proof tactics *)

(** Case analysis on a token against the flag spellings it is compared
    with: in each case the token is a known flag, or differs from all. *)
Ltac flag_cases t :=
  repeat match goal with
         | |- context [eqb_str t ?l] =>
             let E := fresh "E" in
             destruct (eqb_str t l) eqn:E;
             [apply eqb_str_eq in E; subst t|]
         end.

Ltac break_ifs :=
  repeat match goal with
         | |- context [if ?c then _ else _] => destruct c eqn:?
         | |- context [match ?c with Some _ => _ | None => _ end] =>
             destruct c eqn:?
         end.

(** Unpacks [sameBut]; the fields that are the same become equations. *)
Ltac use_same S :=
  let a := fresh "Sm" in let b := fresh "Su" in let c := fresh "Sh" in
  let d := fresh "Sb" in let e := fresh "Sa" in let f := fresh "Sc" in
  let g := fresh "Sf" in let h := fresh "Si" in
  destruct S as (a & b & c & d & e & f & g & h);
  try specialize (a eq_refl); try specialize (b eq_refl);
  try specialize (c eq_refl); try specialize (d eq_refl);
  try specialize (e eq_refl).

(** ** Tokenizer *)

Lemma tokLoop_app (a b : str) (st : TokState) :
  tokLoop (a ++ b) st = tokLoop b (tokLoop a st).
Proof. apply fold_left_app. Qed.

Lemma tokLoop_cons (c : ascii) (rest : str) (st : TokState) :
  tokLoop (c :: rest) st = tokLoop rest (tokStep st c).
Proof. reflexivity. Qed.

(** Inside single quotes every character but the single quote is appended
    to the current token. *)
Lemma tokLoop_inSingle (rest : str) : forall st,
  inSingle st = true -> inDouble st = false -> escaped st = false ->
  ~ In SQ rest ->
  tokLoop rest st =
  {| tokens := tokens st; current := current st ++ rest;
     inSingle := true; inDouble := false; escaped := false |}.
Proof.
  induction rest as [|c rest IH]; intros st Hs Hd He Hn.
  - simpl; rewrite app_nil_r; destruct st; simpl in *; congruence.
  - assert (Hc : Ascii.eqb c SQ = false).
    { apply Ascii.eqb_neq; intros ->; apply Hn; left; reflexivity. }
    rewrite tokLoop_cons.
    unfold tokStep; rewrite He, Hs, Hd, Hc; simpl.
    rewrite !andb_false_r; simpl.
    rewrite IH; simpl; auto.
    + rewrite <- app_assoc; reflexivity.
    + intros H; apply Hn; right; exact H.
Qed.

Lemma tokLoop_inDouble (rest : str) : forall st,
  inSingle st = false -> inDouble st = true ->
  staysOpen (escaped st) rest = true ->
  tokFlush (tokLoop rest st) =
  tokFlush {| tokens := tokens st;
              current := current st ++ unescape (escaped st) rest;
              inSingle := false; inDouble := true; escaped := false |}.
Proof.
  induction rest as [|c rest IH]; intros st Hs Hd Hn.
  - simpl; rewrite app_nil_r; unfold tokFlush; reflexivity.
  - rewrite tokLoop_cons.
    unfold tokStep; rewrite Hs, Hd.
    cbn [staysOpen] in Hn.
    destruct (escaped st) eqn:He.
    + rewrite IH; simpl; auto. rewrite <- app_assoc; reflexivity.
    + simpl negb. rewrite !andb_true_r, !andb_false_r.
      destruct (Ascii.eqb c BS) eqn:Hb.
      * rewrite IH; simpl; auto. rewrite Hb; reflexivity.
      * destruct (Ascii.eqb c DQ) eqn:Hc; [discriminate Hn|]. simpl.
        rewrite IH; simpl; auto. rewrite Hb, <- app_assoc; reflexivity.
Qed.

(** A text without double quote leaves the stretch open. *)
Lemma staysOpen_noDQ (rest : str) : forall pending,
  ~ In DQ rest -> staysOpen pending rest = true.
Proof.
  induction rest as [|c rest IH]; intros pending Hn; [reflexivity|].
  assert (Hn' : ~ In DQ rest) by (intros H; apply Hn; right; exact H).
  cbn [staysOpen]. destruct pending; [apply IH, Hn'|].
  destruct (Ascii.eqb c BS); [apply IH, Hn'|].
  destruct (Ascii.eqb_spec c DQ) as [->|_]; [|apply IH, Hn'].
  exfalso; apply Hn; left; reflexivity.
Qed.

(** C4.  [tokenize] splits [a 'b c' d] into [a], [b c], [d]; after a quote
    that is never closed the rest of the input goes into one final token:
    verbatim after a single quote that no single quote follows, and with
    the backslash escapes resolved after a double quote that only escaped
    double quotes follow; and a backslash followed by a quote character
    inside an unquoted token appends the quote and leaves the quoting state
    untouched. *)
Theorem C4_tokenizer :
  tokenize (L "a 'b c' d") = [L "a"; L "b c"; L "d"]
  /\ (forall pre rest : str,
        let st := tokLoop pre tokInit in
        inSingle st = false -> inDouble st = false -> escaped st = false ->
        ~ In SQ rest ->
        tokenize (pre ++ SQ :: rest) =
        tokens st ++ (if truthy (current st ++ rest)
                      then [current st ++ rest] else []))
  /\ (forall pre rest : str,
        let st := tokLoop pre tokInit in
        inSingle st = false -> inDouble st = false -> escaped st = false ->
        staysOpen false rest = true ->
        tokenize (pre ++ DQ :: rest) =
        tokens st ++ (if truthy (current st ++ unescape false rest)
                      then [current st ++ unescape false rest] else []))
  /\ (forall (st : TokState) (q : ascii),
        inSingle st = false -> inDouble st = false -> escaped st = false ->
        q = SQ \/ q = DQ ->
        tokLoop [BS; q] st =
        {| tokens := tokens st; current := current st ++ [q];
           inSingle := false; inDouble := false; escaped := false |})
  /\ tokenize (L "a\'b c") = [L "a'b"; L "c"]
  /\ (forall rest : str, ~ In DQ rest -> staysOpen false rest = true)
  /\ tokenize (DQ :: L "a" ++ BS :: DQ :: L "b c") = [L "a" ++ DQ :: L "b c"].
Proof.
  split; [reflexivity|].
  split.
  { intros pre rest st Hs Hd He Hn.
    unfold tokenize. rewrite tokLoop_app, tokLoop_cons. fold st.
    assert (E : tokStep st SQ =
                {| tokens := tokens st; current := current st;
                   inSingle := true; inDouble := false; escaped := false |}).
    { unfold tokStep; rewrite He, Hs, Hd; reflexivity. }
    rewrite E, tokLoop_inSingle by (simpl; auto).
    unfold tokFlush; simpl.
    destruct (truthy (current st ++ rest)); [reflexivity|].
    rewrite app_nil_r; reflexivity. }
  split.
  { intros pre rest st Hs Hd He Hn.
    unfold tokenize. rewrite tokLoop_app, tokLoop_cons. fold st.
    assert (E : tokStep st DQ =
                {| tokens := tokens st; current := current st;
                   inSingle := false; inDouble := true; escaped := false |}).
    { unfold tokStep; rewrite He, Hs, Hd; reflexivity. }
    rewrite E, tokLoop_inDouble by (simpl; auto).
    unfold tokFlush; simpl.
    destruct (truthy (current st ++ unescape false rest)); [reflexivity|].
    rewrite app_nil_r; reflexivity. }
  split.
  { intros st q Hs Hd He Hq.
    change (tokLoop [BS; q] st) with (tokStep (tokStep st BS) q).
    assert (E : tokStep st BS =
                {| tokens := tokens st; current := current st;
                   inSingle := false; inDouble := false; escaped := true |}).
    { unfold tokStep; rewrite He, Hs, Hd; reflexivity. }
    rewrite E; reflexivity. }
  split; [reflexivity|].
  split; [|reflexivity].
  intros rest Hn. apply staysOpen_noDQ; exact Hn.
Qed.

Lemma C4_tokenizer_witness :
  tokenize (L "a " ++ SQ :: L "b c") = [L "a"; L "b c"]
  /\ tokenize (L "a " ++ DQ :: L "b\ c" ++ BS :: DQ :: L " d")
     = [L "a"; L "b c" ++ DQ :: L " d"]
  /\ tokLoop [BS; SQ] tokInit =
     {| tokens := []; current := [SQ];
        inSingle := false; inDouble := false; escaped := false |}.
Proof.
  split; [|split].
  - apply (proj1 (proj2 C4_tokenizer) (L "a ") (L "b c"));
      try reflexivity.
    simpl; intros H; repeat destruct H as [H|H]; try discriminate H; exact H.
  - apply (proj1 (proj2 (proj2 C4_tokenizer)) (L "a ")
             (L "b\ c" ++ BS :: DQ :: L " d"));
      reflexivity.
  - apply (proj1 (proj2 (proj2 (proj2 C4_tokenizer))) tokInit SQ);
      auto.
Defined.

(** ** The token loop of the cURL parser *)

Lemma curlStep_consumed (t n : str) (st : CurlState) :
  snd (curlStep t (Some n) st) = isOneOf t valuedFlags && truthy n.
Proof.
  unfold curlStep, isOneOf, valuedFlags, methodFlags, dataFlags.
  cbn [existsb app].
  flag_cases t; cbn; break_ifs; reflexivity.
Qed.

Lemma curlStep_unconsumed (t n : str) (st : CurlState) :
  snd (curlStep t (Some n) st) = false ->
  fst (curlStep t (Some n) st) = fst (curlStep t None st).
Proof.
  unfold curlStep, isOneOf.
  cbn [existsb].
  flag_cases t; cbn; break_ifs; cbn; congruence.
Qed.

(** What one iteration does to [method] and [explicitMethod]. *)
Lemma curlStep_method (t : str) (next : option str) (st : CurlState) :
  let st' := fst (curlStep t next st) in
  match next with
  | Some n =>
      if truthy n then
        if isOneOf t methodFlags then
          method (result st') = toUpperCase n /\ explicitMethod st' = true
        else if isOneOf t (dataFlags ++ [L "--data-urlencode"]) then
          explicitMethod st' = explicitMethod st
          /\ method (result st') =
             (if explicitMethod st then method (result st) else L "POST")
        else
          explicitMethod st' = explicitMethod st
          /\ method (result st') = method (result st)
      else
        explicitMethod st' = explicitMethod st
        /\ method (result st') = method (result st)
  | None =>
      explicitMethod st' = explicitMethod st
      /\ method (result st') = method (result st)
  end.
Proof.
  unfold curlStep, isOneOf, methodFlags, dataFlags, defaultPost.
  cbn [existsb app].
  destruct next as [n|]; [destruct (truthy n) eqn:Hn|];
    flag_cases t; cbn; try rewrite Hn; cbn; break_ifs; cbn; auto.
Qed.


Lemma curlLoop_cons2 (t n : str) (rest : list str) (st : CurlState) :
  curlLoop (t :: n :: rest) st =
  (let '(st', c) := curlStep t (Some n) st in
   if c then curlLoop rest st' else curlLoop (n :: rest) st').
Proof. reflexivity. Qed.

Lemma flagUses_cons2 (t n : str) (rest : list str) :
  flagUses (t :: n :: rest) =
  if isOneOf t valuedFlags && truthy n
  then (t, Some n) :: flagUses rest
  else (t, None) :: flagUses (n :: rest).
Proof. reflexivity. Qed.

Lemma curlLoop_uses_len (k : nat) : forall toks st,
  List.length toks <= k ->
  curlLoop toks st = fold_left applyUse (flagUses toks) st.
Proof.
  induction k as [|k IH]; intros toks st Hk.
  - destruct toks; [reflexivity | simpl in Hk; lia].
  - destruct toks as [|t [|n rest]]; [reflexivity | reflexivity |].
    simpl in Hk.
    rewrite curlLoop_cons2, flagUses_cons2.
    rewrite <- curlStep_consumed with (st := st).
    destruct (curlStep t (Some n) st) as [st' c] eqn:E.
    cbn [snd]. destruct c.
    + cbn [fold_left]. unfold applyUse at 2. cbn [fst snd]. rewrite E.
      apply IH; lia.
    + cbn [fold_left]. unfold applyUse at 2. cbn [fst snd].
      rewrite <- (curlStep_unconsumed t n st) by (rewrite E; reflexivity).
      rewrite E. apply IH; simpl; lia.
Qed.

Lemma curlLoop_uses (toks : list str) (st : CurlState) :
  curlLoop toks st = fold_left applyUse (flagUses toks) st.
Proof. apply (curlLoop_uses_len (List.length toks)); lia. Qed.

Lemma applyUse_method (u : str * option str) (st : CurlState) :
  let st' := applyUse st u in
  match useArg methodFlags u with
  | m :: _ =>
      method (result st') = toUpperCase m /\ explicitMethod st' = true
      /\ m <> []
  | [] =>
      explicitMethod st' = explicitMethod st
      /\ (method (result st') = method (result st)
          \/ (explicitMethod st = false /\ method (result st') = L "POST"))
      /\ (useArg dataFlags u <> [] -> explicitMethod st = false ->
          method (result st') = L "POST")
  end.
Proof.
  destruct u as [t next]; unfold applyUse, useArg; cbn [fst snd].
  pose proof (curlStep_method t next st) as H; cbv zeta in H.
  destruct next as [n|].
  - destruct (truthy n) eqn:Hn.
    + rewrite !andb_true_r.
      destruct (isOneOf t methodFlags) eqn:Hm.
      * destruct H as [H1 H2]; repeat split; auto.
        apply truthy_nonempty; exact Hn.
      * unfold isOneOf in H |- *. rewrite existsb_app in H.
        destruct (existsb (eqb_str t) dataFlags) eqn:Hd; cbn [orb] in H.
        -- destruct H as [H1 H2]; repeat split; auto.
           ++ destruct (explicitMethod st); auto.
           ++ intros _ He; rewrite He in H2; exact H2.
        -- destruct (existsb (eqb_str t) [L "--data-urlencode"]);
             destruct H as [H1 H2]; repeat split; auto; try congruence.
           destruct (explicitMethod st); auto.
    + rewrite !andb_false_r. destruct H as [H1 H2]; repeat split; auto.
      congruence.
  - destruct H as [H1 H2]; repeat split; auto. congruence.
Qed.

Lemma lastOpt_app {A} (l l' : list A) :
  l' <> [] -> lastOpt (l ++ l') = lastOpt l'.
Proof.
  unfold lastOpt; rewrite fold_left_app.
  generalize (fold_left (fun (_ : option A) x => Some x) l None).
  destruct l' as [|x l']; [congruence|]; intros; reflexivity.
Qed.

(** The loop from a state on: without a use of a method flag the explicit
    mark stays and a data flag leaves POST behind; with one, the last
    method argument is the method. *)
Lemma fold_no_method (us : list (str * option str)) : forall st,
  flat_map (useArg methodFlags) us = [] ->
  let st' := fold_left applyUse us st in
  explicitMethod st' = explicitMethod st
  /\ (explicitMethod st = true ->
      method (result st') = method (result st))
  /\ (explicitMethod st = false ->
      flat_map (useArg dataFlags) us <> [] \/ method (result st) = L "POST" ->
      method (result st') = L "POST").
Proof.
  induction us as [|u us IH]; intros st Hno; cbn [fold_left flat_map] in *.
  - repeat split; auto. intros _ [H|H]; [congruence | exact H].
  - apply app_eq_nil in Hno as [Hu Hus].
    pose proof (applyUse_method u st) as H; cbv zeta in H; rewrite Hu in H.
    destruct H as (He & Hm & Hd).
    destruct (IH (applyUse st u) Hus) as (IH1 & IH2 & IH3).
    repeat split.
    + congruence.
    + intros E. rewrite IH2 by congruence.
      destruct Hm as [Hm|[Hm _]]; congruence.
    + intros E Hor. apply IH3; [congruence|].
      destruct (useArg dataFlags u) eqn:Hda.
      * destruct Hor as [Hor|Hor]; [left; exact Hor|].
        right. destruct Hm as [Hm|[_ Hm]]; congruence.
      * right. apply Hd; [discriminate | exact E].
Qed.

Lemma fold_last_method (us : list (str * option str)) : forall st m,
  lastOpt (flat_map (useArg methodFlags) us) = Some m ->
  method (result (fold_left applyUse us st)) = toUpperCase m.
Proof.
  induction us as [|u us IH]; intros st m Hl; cbn [fold_left flat_map] in *.
  - discriminate.
  - destruct (flat_map (useArg methodFlags) us) eqn:Hus.
    + rewrite app_nil_r in Hl.
      pose proof (applyUse_method u st) as H; cbv zeta in H.
      destruct (fold_no_method us (applyUse st u) Hus) as (_ & F2 & _).
      unfold useArg in Hl, H.
      destruct (snd u) as [n|]; [|discriminate].
      destruct (isOneOf (fst u) methodFlags && truthy n); [|discriminate].
      injection Hl as <-. destruct H as (H1 & H2 & _).
      rewrite F2 by exact H2. exact H1.
    + rewrite lastOpt_app in Hl by discriminate.
      apply IH; exact Hl.
Qed.

Lemma fold_validMethod (us : list (str * option str)) : forall st,
  validMethod (method (result st)) ->
  validMethod (method (result (fold_left applyUse us st))).
Proof.
  induction us as [|u us IH]; intros st Hv; cbn [fold_left]; [exact Hv|].
  apply IH.
  pose proof (applyUse_method u st) as H; cbv zeta in H.
  destruct (useArg methodFlags u) as [|m l].
  - destruct H as (_ & [H|[_ H]] & _); rewrite H; [exact Hv|].
    split; [discriminate | reflexivity].
  - destruct H as (H & _ & Hm); rewrite H; split.
    + apply toUpperCase_nonempty; exact Hm.
    + apply toUpperCase_idem.
Qed.

(** C5.  A data flag with an argument sets the body to the argument as it
    is and, when no method was set explicitly before, the method to POST.
    Over the whole command: with no use of a method flag and a use of a
    data flag the method is POST, and with a use of a method flag the
    method is the upper-cased argument of the last one, wherever the data
    flags stand. *)
Theorem C5_data_flag_method :
  (forall (flag n : str) (st : CurlState),
      isOneOf flag dataFlags = true -> truthy n = true ->
      let st' := fst (curlStep flag (Some n) st) in
      snd (curlStep flag (Some n) st) = true
      /\ body (result st') = Some n
      /\ method (result st') =
         (if explicitMethod st then method (result st) else L "POST"))
  /\ (forall input : str,
        let toks := tokenize (stripCurl (normalize input)) in
        methodArgs toks = [] -> dataArgs toks <> [] ->
        method (parseCurl input) = L "POST")
  /\ (forall input m : str,
        let toks := tokenize (stripCurl (normalize input)) in
        lastOpt (methodArgs toks) = Some m ->
        method (parseCurl input) = toUpperCase m)
  /\ (method (parseCurl (L "curl http://x -d 'x'")) = L "POST"
      /\ body (parseCurl (L "curl http://x -d 'x'")) = Some (L "x"))
  /\ method (parseCurl (L "curl -X PUT http://x -d 'x'")) = L "PUT"
  /\ method (parseCurl (L "curl http://x -d 'x' -X PUT")) = L "PUT".
Proof.
  split.
  { intros flag n st Hf Hn; cbv zeta.
    revert Hf. unfold curlStep, isOneOf, dataFlags, defaultPost.
    cbn [existsb]. 
    flag_cases flag; cbn; rewrite ?Hn; cbn; intros Hf; try discriminate Hf;
      destruct (explicitMethod st); cbn; auto. }
  split.
  { intros input toks Hm Hd. unfold parseCurl. fold toks.
    rewrite curlLoop_uses.
    destruct (fold_no_method (flagUses toks) curlInit Hm) as (_ & _ & H).
    apply H; [reflexivity | left; exact Hd]. }
  split.
  { intros input m toks Hl. unfold parseCurl. fold toks.
    rewrite curlLoop_uses. apply fold_last_method; exact Hl. }
  repeat split; reflexivity.
Qed.

Lemma C5_data_flag_method_witness :
  (snd (curlStep (L "--data-raw") (Some (L "x=1")) curlInit) = true
   /\ body (result (fst (curlStep (L "--data-raw") (Some (L "x=1")) curlInit)))
      = Some (L "x=1")
   /\ method (result (fst (curlStep (L "--data-raw") (Some (L "x=1"))
                                   curlInit))) = L "POST")
  /\ method (parseCurl (L "curl http://x/y --data 'a=b' -k")) = L "POST"
  /\ method (parseCurl (L "curl -d 'a=b' http://x/y --request patch"))
     = L "PATCH".
Proof.
  split; [|split].
  - apply (proj1 C5_data_flag_method (L "--data-raw") (L "x=1") curlInit);
      reflexivity.
  - apply (proj1 (proj2 C5_data_flag_method)
             (L "curl http://x/y --data 'a=b' -k")).
    + reflexivity.
    + vm_compute; discriminate.
  - apply (proj1 (proj2 (proj2 C5_data_flag_method))
             (L "curl -d 'a=b' http://x/y --request patch") (L "patch")).
    reflexivity.
Defined.

(** C2.  The argument of the basic-auth flag is split at every colon and
    the first two pieces become [user] and [pass]: [alice:secret] and
    [alice] come out as the claim says, but of [alice:sec:ret] only [sec]
    is kept as the password, not the whole rest [sec:ret] after the first
    colon. *)
Theorem C2_basic_auth_split :
  auth (parseCurl (L "curl -u alice:secret http://x"))
  = Some {| user := L "alice"; pass := L "secret" |}
  /\ auth (parseCurl (L "curl -u alice http://x"))
     = Some {| user := L "alice"; pass := [] |}
  /\ auth (parseCurl (L "curl -u alice:sec:ret http://x"))
     = Some {| user := L "alice"; pass := L "sec" |}
  /\ substringFrom (Z.to_nat (indexOf COLON (L "alice:sec:ret")) + 1)
       (L "alice:sec:ret") = L "sec:ret"
  /\ (forall (flag n : str) (st : CurlState),
        isOneOf flag [L "-u"; L "--user"] = true -> truthy n = true ->
        auth (result (fst (curlStep flag (Some n) st)))
        = Some {| user := nth 0 (split COLON n) [];
                  pass := nth 1 (split COLON n) [] |}).
Proof.
  repeat split; try reflexivity.
  intros flag n st Hf Hn. revert Hf.
  unfold curlStep, isOneOf. cbn [existsb].
  flag_cases flag; cbn; rewrite ?Hn; cbn; intros Hf; try discriminate Hf;
    destruct (split COLON n) as [|a [|b l]]; reflexivity.
Qed.

Lemma C2_basic_auth_split_witness :
  auth (result (fst (curlStep (L "--user") (Some (L "bob:pw")) curlInit)))
  = Some {| user := L "bob"; pass := L "pw" |}.
Proof.
  apply (proj2 (proj2 (proj2 (proj2 C2_basic_auth_split)))
           (L "--user") (L "bob:pw") curlInit); reflexivity.
Defined.

(** ** Round trip through the shell command *)

Lemma joinLines_plain (skip : bool) (c : ascii) (s : str) :
  isSpace c = false -> c <> BS ->
  joinLines skip (c :: s) = c :: joinLines false s.
Proof.
  intros Hs Hb; simpl; rewrite Hs, andb_false_r.
  apply Ascii.eqb_neq in Hb; rewrite Hb; simpl.
  destruct s; reflexivity.
Qed.

Lemma joinLines_url (u : str) : forall rest,
  includes [BS; NL] u = false ->
  joinLines false (u ++ SQ :: rest) = u ++ joinLines false (SQ :: rest).
Proof.
  induction u as [|c u IH]; intros rest H; [reflexivity|].
  simpl in H. apply orb_false_iff in H as [H1 H2].
  change ((c :: u) ++ SQ :: rest) with (c :: (u ++ SQ :: rest)).
  change (joinLines false (c :: u ++ SQ :: rest)) with
    (match u ++ SQ :: rest with
     | d :: s'' =>
         if Ascii.eqb c BS && Ascii.eqb d NL then SP :: joinLines true s''
         else c :: joinLines false (u ++ SQ :: rest)
     | [] => [c]
     end).
  destruct u as [|d u'].
  - simpl. rewrite andb_false_r. reflexivity.
  - simpl app at 1.
    assert (E : Ascii.eqb c BS && Ascii.eqb d NL = false).
    { destruct (Ascii.eqb_spec c BS), (Ascii.eqb_spec d NL); subst;
        simpl in *; try reflexivity; discriminate. }
    cbv iota beta. rewrite E. rewrite IH by exact H2. reflexivity.
Qed.

Lemma curlLoop_url (u : str) (st : CurlState) :
  startsWith (L "http") u = true \/ startsWith (L "/") u = true ->
  curlStep u None st = (onResult (withUrl u) st, false)
  /\ forall n, curlStep u (Some n) st = (onResult (withUrl u) st, false).
Proof.
  intros [H|H]; apply startsWith_prefix in H as [t ->]; split; intros;
    reflexivity.
Qed.


Lemma trim_fixed (c x : ascii) (a : str) :
  isSpace c = false -> isSpace x = false ->
  trim (c :: a ++ [x]) = c :: a ++ [x].
Proof.
  intros Hc Hx; unfold trim; simpl; rewrite Hc.
  apply (trimEnd_snoc (c :: a)); exact Hx.
Qed.


Lemma toCurl_simple (u : str) (ct : option str) (fr ins : bool) :
  toCurl {| method := L "GET"; url := u; headers := []; body := None;
            contentType := ct; auth := None; followRedirects := fr;
            insecure := ins |}
  = L "curl" ++ SP :: BS :: NL :: SP :: SP :: SQ :: u
      ++ SQ :: (if ins then SP :: BS :: NL :: L "  -k" else []).
Proof.
  unfold toCurl, toCurlParts; destruct ins; simpl;
    rewrite <- ?app_assoc; reflexivity.
Qed.

Lemma normalize_simple (u : str) (ins : bool) :
  includes [BS; NL] u = false ->
  normalize (L "curl" ++ SP :: BS :: NL :: SP :: SP :: SQ :: u
               ++ SQ :: (if ins then SP :: BS :: NL :: L "  -k" else []))
  = L "curl" ++ SP :: SP :: SQ :: u
      ++ SQ :: (if ins then SP :: SP :: L "-k" else []).
Proof.
  intros Hc. unfold normalize.
  assert (E : joinLines false
                (L "curl" ++ SP :: BS :: NL :: SP :: SP :: SQ :: u
                   ++ SQ :: (if ins then SP :: BS :: NL :: L "  -k" else []))
              = L "curl" ++ SP :: SP :: SQ :: u
                  ++ SQ :: (if ins then SP :: SP :: L "-k" else [])).
  { change (joinLines false
                (L "curl" ++ SP :: BS :: NL :: SP :: SP :: SQ :: u
                   ++ SQ :: (if ins then SP :: BS :: NL :: L "  -k" else [])))
      with (L "curl" ++ SP :: SP :: joinLines true (SQ :: u
                   ++ SQ :: (if ins then SP :: BS :: NL :: L "  -k" else []))).
    rewrite joinLines_plain by (reflexivity || discriminate).
    rewrite joinLines_url by exact Hc.
    destruct ins; reflexivity. }
  rewrite E. 
  destruct ins.
  - change (L "curl" ++ SP :: SP :: SQ :: u ++ SQ :: SP :: SP :: L "-k")
      with ("c"%char :: (L "url" ++ SP :: SP :: SQ :: u ++ SQ :: SP :: SP :: L "-k")).
    replace (L "url" ++ SP :: SP :: SQ :: u ++ SQ :: SP :: SP :: L "-k")
      with ((L "url" ++ SP :: SP :: SQ :: u ++ SQ :: SP :: SP :: L "-") ++ ["k"%char]).
    + apply trim_fixed; reflexivity.
    + simpl. rewrite <- app_assoc. reflexivity.
  - change (L "curl" ++ SP :: SP :: SQ :: u ++ [SQ])
      with ("c"%char :: (L "url" ++ SP :: SP :: SQ :: u) ++ [SQ]).
    apply trim_fixed; reflexivity.
Qed.

Lemma tokenize_simple (u : str) (ins : bool) :
  ~ In SQ u ->
  tokenize (SQ :: u ++ SQ :: (if ins then SP :: SP :: L "-k" else []))
  = (if truthy u then [u] else []) ++ (if ins then [L "-k"] else []).
Proof.
  intros Hq. unfold tokenize.
  rewrite tokLoop_cons.
  change (tokStep tokInit SQ) with
    {| tokens := []; current := []; inSingle := true; inDouble := false;
       escaped := false |}.
  rewrite tokLoop_app.
  rewrite (tokLoop_inSingle u
             {| tokens := []; current := []; inSingle := true;
                inDouble := false; escaped := false |})
    by (auto; reflexivity).
  cbn [tokens current app].
  destruct ins, u; reflexivity.
Qed.

(** C3 (amended).  For a record with method GET, no headers, no body and no
    auth whose URL is empty or starts with [http] or [/], holds no single
    quote and no backslash directly followed by a line feed, [parseCurl]
    of [toCurl] gives back the URL and the method. *)
Theorem C3_roundtrip_simple_get (r : ParsedRequest) :
  method r = L "GET" -> headers r = [] -> body r = None -> auth r = None ->
  url r = [] \/ startsWith (L "http") (url r) = true
             \/ startsWith (L "/") (url r) = true ->
  ~ In SQ (url r) ->
  includes [BS; NL] (url r) = false ->
  url (parseCurl (toCurl r)) = url r
  /\ method (parseCurl (toCurl r)) = method r.
Proof.
  destruct r as [m u h b ct a fr ins]; cbn [method url headers body auth].
  intros -> -> -> -> Hu Hq Hc.
  unfold parseCurl.
  rewrite toCurl_simple, normalize_simple by exact Hc.
  change (stripCurl (L "curl" ++ SP :: SP :: SQ :: u
                       ++ SQ :: (if ins then SP :: SP :: L "-k" else [])))
    with (SQ :: u ++ SQ :: (if ins then SP :: SP :: L "-k" else [])).
  rewrite tokenize_simple by exact Hq.
  destruct Hu as [->|Hu].
  - destruct ins; split; reflexivity.
  - assert (Ht : truthy u = true).
    { destruct Hu as [H|H]; apply startsWith_prefix in H as [t ->];
        reflexivity. }
    rewrite Ht.
    destruct (curlLoop_url u curlInit Hu) as [E1 E2].
    destruct ins; simpl app; unfold curlLoop.
    + rewrite E2. cbn. split; reflexivity.
    + rewrite E1. cbn. split; reflexivity.
Qed.

Lemma C3_roundtrip_simple_get_witness :
  let r := withUrl (L "http://a.b/c") emptyRequest in
  url (parseCurl (toCurl r)) = url r
  /\ method (parseCurl (toCurl r)) = method r.
Proof.
  apply C3_roundtrip_simple_get; try reflexivity.
  - right; left; reflexivity.
  - simpl; intros H; repeat destruct H as [H|H]; try discriminate H; exact H.
Defined.

(** C3 as stated fails: a URL that starts with neither [http] nor [/] is
    not taken as the URL by [parseCurl]. *)
Lemma C3_roundtrip_counterexample :
  let r := withUrl (L "example.com") emptyRequest in
  method r = L "GET" /\ headers r = [] /\ body r = None /\ auth r = None
  /\ url (parseCurl (toCurl r)) = []
  /\ url (parseCurl (toCurl r)) <> url r.
Proof.
  repeat split; try reflexivity.
  vm_compute; discriminate.
Qed.

(** ** The matcher *)

Lemma stripPrefix_sound (p s s' : str) :
  stripPrefix p s = Some s' -> s = p ++ s'.
Proof.
  revert s; induction p as [|x p IH]; intros [|y s] H; simpl in H;
    try discriminate.
  - injection H as <-; reflexivity.
  - injection H as <-; reflexivity.
  - destruct (Ascii.eqb_spec x y); [subst|discriminate].
    simpl; f_equal; apply IH; exact H.
Qed.

Lemma star_sound (R : Type) (p : ascii -> bool) (k : str -> option R)
      (s : str) : forall x,
  star p s k = Some x ->
  exists l s', s = l ++ s' /\ Forall (fun c => p c = true) l
               /\ k s' = Some x.
Proof.
  induction s as [|c s IH]; intros x H; simpl in H.
  - exists [], []; auto.
  - destruct (p c) eqn:Hp.
    + destruct (star p s k) as [y|] eqn:Hs.
      * injection H as <-.
        destruct (IH _ eq_refl) as (l & s' & -> & Hl & Hk).
        exists (c :: l), s'; repeat split; auto.
      * exists [], (c :: s); auto.
    + exists [], (c :: s); auto.
Qed.

Lemma mt_sound (R : Type) (r : re) : forall s c (k : str -> caps -> option R) x,
  mt r s c k = Some x ->
  exists s' c', matches r s c s' c' /\ k s' c' = Some x.
Proof.
  induction r as [|l|p|p|p|a IHa b IHb|a IHa b IHb|n a IHa];
    intros s c k x H; simpl in H.
  - exists s, c; split; [constructor | exact H].
  - destruct (stripPrefix l s) as [s'|] eqn:E; [|discriminate].
    apply stripPrefix_sound in E; subst s.
    exists s', c; split; [constructor | exact H].
  - destruct s as [|y s]; [discriminate|].
    destruct (p y) eqn:Hp; [|discriminate].
    exists s, c; split; [constructor; exact Hp | exact H].
  - apply star_sound in H as (l & s' & -> & Hl & Hk).
    exists s', c; split; [constructor; exact Hl | exact Hk].
  - destruct s as [|y s]; [discriminate|].
    destruct (p y) eqn:Hp; [|discriminate].
    apply star_sound in H as (l & s' & -> & Hl & Hk).
    exists s', c; split; [constructor; assumption | exact Hk].
  - apply IHa in H as (s1 & c1 & Ha & H).
    apply IHb in H as (s2 & c2 & Hb & H).
    exists s2, c2; split; [econstructor; eassumption | exact H].
  - destruct (mt a s c k) as [y|] eqn:E.
    + injection H as <-. apply IHa in E as (s' & c' & Ha & Hk).
      exists s', c'; split; [apply M_AltL; exact Ha | exact Hk].
    + apply IHb in H as (s' & c' & Hb & Hk).
      exists s', c'; split; [apply M_AltR; exact Hb | exact Hk].
  - apply IHa in H as (s' & c' & Ha & Hk).
    exists s', ((n, consumed s s') :: c'); split;
      [constructor; exact Ha | exact Hk].
Qed.

Lemma consumed_app (t s' : str) : consumed (t ++ s') s' = t.
Proof.
  unfold consumed. rewrite length_app.
  replace (List.length t + List.length s' - List.length s')
    with (List.length t) by lia.
  rewrite firstn_app, Nat.sub_diag, firstn_all. simpl.
  apply app_nil_r.
Qed.

(** A match consumes a prefix, and one that is not empty when the
    expression is not nullable. *)
Lemma matches_prefix r s c s' c' :
  matches r s c s' c' ->
  exists t, s = t ++ s' /\ (nullable r = false -> t <> []).
Proof.
  induction 1; simpl.
  - exists []; split; [reflexivity | discriminate].
  - exists l; split; [reflexivity|].
    destruct l; simpl; [discriminate | intros _; discriminate].
  - exists [x]; split; [reflexivity | intros _; discriminate].
  - exists l; split; [reflexivity | discriminate].
  - exists (x :: l); split; [reflexivity | intros _; discriminate].
  - destruct IHmatches1 as (t1 & -> & H1), IHmatches2 as (t2 & -> & H2).
    exists (t1 ++ t2); split; [apply app_assoc|].
    intros Hn. apply andb_false_iff in Hn as [Hn|Hn].
    + specialize (H1 Hn). destruct t1; [congruence | discriminate].
    + specialize (H2 Hn). destruct t1, t2; try congruence; discriminate.
  - destruct IHmatches as (t & -> & Ht). exists t; split; auto.
    intros Hn; apply orb_false_iff in Hn as [Hn _]; auto.
  - destruct IHmatches as (t & -> & Ht). exists t; split; auto.
    intros Hn; apply orb_false_iff in Hn as [_ Hn]; auto.
  - exact IHmatches.
Qed.

Lemma matches_caps r s c s' c' :
  matches r s c s' c' ->
  forall n,
    (mentions n r = false -> getCap n c' = getCap n c)
    /\ (binds n r = true -> exists t, getCap n c' = Some t /\ t <> []).
Proof.
  induction 1; intros k; simpl; try (split; [reflexivity | discriminate]).
  - destruct (IHmatches1 k) as [A1 A2], (IHmatches2 k) as [B1 B2].
    split.
    + intros Hm; apply orb_false_iff in Hm as [Ha Hb].
      rewrite B1, A1; auto.
    + intros Hb. apply orb_true_iff in Hb as [Hb|Hb]; [auto|].
      apply andb_true_iff in Hb as [Hb Hm].
      apply negb_true_iff in Hm. rewrite B1 by exact Hm. auto.
  - destruct (IHmatches k) as [A1 A2]. split.
    + intros Hm; apply orb_false_iff in Hm as [Ha _]; auto.
    + intros Hb; apply andb_true_iff in Hb as [Hb _]; auto.
  - destruct (IHmatches k) as [A1 A2]. split.
    + intros Hm; apply orb_false_iff in Hm as [_ Hb]; auto.
    + intros Hb; apply andb_true_iff in Hb as [_ Hb]; auto.
  - destruct (IHmatches k) as [A1 A2].
    destruct (Nat.eqb n k) eqn:E; simpl.
    + split; [discriminate|]. intros Hn.
      apply negb_true_iff in Hn.
      destruct (matches_prefix _ _ _ _ _ H) as (t & -> & Ht).
      rewrite consumed_app. exists t; auto.
    + split; auto.
Qed.

Lemma matchAt_sound (r : re) (s : str) (m : MatchResult) :
  matchAt r s = Some m -> matches r s [] (after m) (groups m).
Proof.
  unfold matchAt; intros H.
  apply mt_sound in H as (s' & c' & Hm & Hk).
  injection Hk as <-; exact Hm.
Qed.

Lemma exec_sound (r : re) (s : str) (m : MatchResult) :
  exec r s = Some m -> exists s0, matches r s0 [] (after m) (groups m).
Proof.
  induction s as [|x s IH]; simpl; intros H.
  - destruct (matchAt r []) eqn:E; [|discriminate].
    injection H as ->. eexists; eapply matchAt_sound; eauto.
  - destruct (matchAt r (x :: s)) eqn:E.
    + injection H as ->. eexists; eapply matchAt_sound; eauto.
    + auto.
Qed.

Lemma matchAllFrom_sound (r : re) (s : str) : forall k m,
  In m (matchAllFrom r k s) ->
  exists s0, matches r s0 [] (after m) (groups m).
Proof.
  induction s as [|x s IH]; intros k m H.
  - destruct k; simpl in H; [|contradiction].
    destruct (matchAt r []) eqn:E; [|contradiction].
    destruct H as [<-|[]]. eexists; eapply matchAt_sound; eauto.
  - destruct k; simpl in H; [|eauto].
    destruct (matchAt r (x :: s)) eqn:E; [|eauto].
    destruct H as [<-|H]; [|eauto].
    eexists; eapply matchAt_sound; eauto.
Qed.

(** A group that every match binds is defined, and not empty, in the
    result of [exec]. *)
Lemma matches_group (r : re) (s0 : str) (m : MatchResult) (n : nat) :
  matches r s0 [] (after m) (groups m) -> binds n r = true ->
  exists t, group n m = Ok t /\ getCap n (groups m) = Some t /\ t <> [].
Proof.
  intros H Hb. destruct (matches_caps _ _ _ _ _ H n) as [_ A].
  destruct (A Hb) as (t & Ht & Hne).
  exists t; unfold group; rewrite Ht; auto.
Qed.

Lemma exec_group (r : re) (s : str) (m : MatchResult) (n : nat) :
  exec r s = Some m -> binds n r = true ->
  exists t, group n m = Ok t /\ getCap n (groups m) = Some t /\ t <> [].
Proof.
  intros H Hb. apply exec_sound in H as [s0 H].
  eapply matches_group; eauto.
Qed.

(** ** The extractors *)

Lemma extractMethod_ok (code : str) (r : ParsedRequest) :
  exists r', extractMethod code r = Ok r'
    /\ sameBut true false false false false r r'
    /\ (validMethod (method r) -> validMethod (method r'))
    /\ (exec methodRe code = None -> method r' = method r)
    /\ (forall m, exec methodRe code = Some m ->
        exists t, getCap 1 (groups m) = Some t
                  /\ method r' = toUpperCase t).
Proof.
  unfold extractMethod, sameBut.
  destruct (exec methodRe code) as [m|] eqn:E.
  - destruct (exec_group methodRe code m 1 E eq_refl) as (t & Ht & Hc & Hne).
    rewrite Ht; cbn [bind].
    exists (withMethod (toUpperCase t) r); repeat split; try discriminate.
    + apply toUpperCase_nonempty; exact Hne.
    + apply toUpperCase_idem.
    + intros m' Hm'; injection Hm' as <-. exists t; auto.
  - exists r; repeat split; auto; try apply H; discriminate.
Qed.

Lemma addHeaderEntries_ok (ms : list MatchResult) : forall r,
  (forall m, In m ms ->
             exists s0, matches headerEntryRe s0 [] (after m) (groups m)) ->
  exists r', addHeaderEntries ms r = Ok r'
             /\ sameBut false false true false false r r'.
Proof.
  induction ms as [|m ms IH]; intros r Hms; cbn [addHeaderEntries].
  - exists r; unfold sameBut; repeat split; auto.
  - destruct (Hms m (or_introl eq_refl)) as [s0 Hm].
    destruct (matches_group headerEntryRe s0 m 1 Hm eq_refl)
      as (k & Hk & _).
    destruct (matches_group headerEntryRe s0 m 2 Hm eq_refl)
      as (v & Hv & _).
    rewrite Hk, Hv; cbn [bind].
    destruct (IH (withHeaders (setHeader k v (headers r)) r)) as (r' & E & S).
    { intros m' Hin; apply Hms; right; exact Hin. }
    exists r'; split; [exact E|].
    unfold sameBut in *; cbn in S.
    destruct S as (? & ? & ? & ? & ? & ? & ? & ?).
    repeat split; auto; discriminate.
Qed.

Lemma extractHeaders_ok (code : str) (r : ParsedRequest) :
  exists r', extractHeaders code r = Ok r'
    /\ sameBut false false true false false r r'
    /\ (exec headersRe code = None -> headers r' = headers r).
Proof.
  unfold extractHeaders.
  destruct (exec headersRe code) as [m|] eqn:E.
  - destruct (exec_group headersRe code m 1 E eq_refl) as (t & Ht & _).
    rewrite Ht; cbn [bind].
    destruct (addHeaderEntries_ok (matchAll headerEntryRe t) r)
      as (r' & E' & S).
    { intros m' Hin; eapply matchAllFrom_sound; exact Hin. }
    exists r'; split; [exact E' | split; [exact S | discriminate]].
  - exists r; unfold sameBut; repeat split; auto.
Qed.

Lemma parseFetchCode_ok (code : str) :
  exists r, parseFetchCode code = Ok r
    /\ validMethod (method r)
    /\ (exec fetchUrlRe code = None -> url r = [])
    /\ (exec methodRe code = None -> method r = L "GET")
    /\ (exec headersRe code = None -> headers r = [])
    /\ (exec bodyStringRe code = None -> exec bodyJsonRe code = None ->
        body r = None)
    /\ auth r = None /\ contentType r = None
    /\ followRedirects r = true /\ insecure r = false.
Proof.
  unfold parseFetchCode.
  assert (H1 : exists r1,
             match exec fetchUrlRe code with
             | Some urlMatch =>
                 u <- group 1 urlMatch ;; Ok (withUrl u emptyRequest)
             | None => Ok emptyRequest
             end = Ok r1
             /\ sameBut false true false false false emptyRequest r1
             /\ (exec fetchUrlRe code = None -> url r1 = [])).
  { destruct (exec fetchUrlRe code) as [m|] eqn:E.
    - destruct (exec_group fetchUrlRe code m 1 E eq_refl) as (t & Ht & _).
      rewrite Ht; cbn [bind]. eexists; split; [reflexivity|].
      unfold sameBut; repeat split; auto; discriminate.
    - exists emptyRequest; unfold sameBut; repeat split; auto. }
  destruct H1 as (r1 & -> & S1 & U1); cbn [bind].
  destruct (extractMethod_ok code r1) as (r2 & -> & S2 & V2 & M2 & _).
  cbn [bind].
  destruct (extractHeaders_ok code r2) as (r3 & -> & S3 & H3).
  cbn [bind].
  unfold sameBut in *.
  destruct S1 as (S1m & _ & S1h & S1b & S1a & S1c & S1f & S1i).
  destruct S2 as (_ & S2u & S2h & S2b & S2a & S2c & S2f & S2i).
  destruct S3 as (S3m & S3u & _ & S3b & S3a & S3c & S3f & S3i).
  specialize (S1m eq_refl); specialize (S1h eq_refl);
    specialize (S1b eq_refl); specialize (S1a eq_refl).
  specialize (S2u eq_refl); specialize (S2h eq_refl);
    specialize (S2b eq_refl); specialize (S2a eq_refl).
  specialize (S3m eq_refl); specialize (S3u eq_refl);
    specialize (S3b eq_refl); specialize (S3a eq_refl).
  assert (V3 : validMethod (method r3)).
  { rewrite S3m; apply V2; rewrite S1m; split; [discriminate|reflexivity]. }
  assert (R : forall b, 
             validMethod (method (withBody b r3))
             /\ (exec fetchUrlRe code = None -> url (withBody b r3) = [])
             /\ (exec methodRe code = None ->
                 method (withBody b r3) = L "GET")
             /\ (exec headersRe code = None -> headers (withBody b r3) = [])
             /\ auth (withBody b r3) = None
             /\ contentType (withBody b r3) = None
             /\ followRedirects (withBody b r3) = true
             /\ insecure (withBody b r3) = false).
  { intros b; cbn.
    split; [exact V3|].
    split; [intros E; rewrite S3u, S2u; auto|].
    split; [intros E; rewrite S3m, M2, S1m; auto|].
    split; [intros E; rewrite H3, S2h, S1h; auto|].
    split; [rewrite S3a, S2a, S1a; reflexivity|].
    split; [rewrite S3c, S2c, S1c; reflexivity|].
    split; [rewrite S3f, S2f, S1f; reflexivity
           | rewrite S3i, S2i, S1i; reflexivity]. }
  destruct (exec bodyJsonRe code) as [mj|] eqn:Ej.
  - destruct (exec_group bodyJsonRe code mj 1 Ej eq_refl) as (t & Ht & _).
    rewrite Ht; cbn [bind]. eexists; split; [reflexivity|].
    destruct (R (Some (trim t))) as ([? ?] & ? & ? & ? & ? & ? & ? & ?).
    repeat split; auto; intros; discriminate.
  - destruct (exec bodyStringRe code) as [ms|] eqn:Es.
    + destruct (exec_group bodyStringRe code ms 1 Es eq_refl)
        as (t & Ht & _).
      rewrite Ht; cbn [bind]. eexists; split; [reflexivity|].
      destruct (R (Some t)) as ([? ?] & ? & ? & ? & ? & ? & ? & ?).
      repeat split; auto; intros; discriminate.
    + exists r3. split; [reflexivity|].
      destruct (R (body r3)) as ([? ?] & ? & ? & ? & ? & ? & ? & ?).
      destruct r3; cbn in *.
      repeat split; auto; intros; congruence.
Qed.

Lemma axiosGet_shorthand (code : str) (m : MatchResult) :
  exec axiosGetRe code = Some m ->
  exists u, getCap 1 (groups m) = Some u /\ u <> []
            /\ parseAxiosCode code = Ok (withUrl u emptyRequest).
Proof.
  intros E. unfold parseAxiosCode. rewrite E.
  destruct (exec_group axiosGetRe code m 1 E eq_refl) as (u & Hu & Hc & Hne).
  rewrite Hu. exists u; auto.
Qed.

Lemma parseAxiosCode_ok (code : str) :
  exists r, parseAxiosCode code = Ok r
    /\ validMethod (method r)
    /\ (exec axiosGetRe code = None -> exec axiosPostRe code = None ->
        exec urlRe code = None -> url r = [])
    /\ (exec axiosPostRe code = None -> exec methodRe code = None ->
        method r = L "GET")
    /\ (exec headersRe code = None -> headers r = [])
    /\ (exec authRe code = None -> auth r = None)
    /\ (exec dataRe code = None -> body r = None)
    /\ contentType r = None
    /\ followRedirects r = true /\ insecure r = false
    /\ (exec axiosGetRe code = None ->
        forall p, exec axiosPostRe code = Some p ->
          (exec methodRe code = None -> method r = L "POST")
          /\ (forall m, exec methodRe code = Some m ->
              exists t, getCap 1 (groups m) = Some t
                        /\ method r = toUpperCase t)).
Proof.
  destruct (exec axiosGetRe code) as [g|] eqn:Eg.
  { destruct (axiosGet_shorthand code g Eg) as (u & _ & _ & ->).
    eexists; split; [reflexivity|]. cbn.
    repeat split; auto; intros; discriminate. }
  unfold parseAxiosCode; rewrite Eg.
  assert (H1 : exists r1,
             match exec axiosPostRe code with
             | Some simplePost =>
                 u <- group 1 simplePost ;;
                 Ok (withMethod (L "POST") (withUrl u emptyRequest))
             | None => Ok emptyRequest
             end = Ok r1
             /\ sameBut true true false false false emptyRequest r1
             /\ (exec axiosPostRe code = None -> r1 = emptyRequest)
             /\ (forall p, exec axiosPostRe code = Some p ->
                 method r1 = L "POST")
             /\ validMethod (method r1)).
  { destruct (exec axiosPostRe code) as [m|] eqn:E.
    - destruct (exec_group axiosPostRe code m 1 E eq_refl) as (t & Ht & _).
      rewrite Ht; cbn [bind]. eexists; split; [reflexivity|].
      unfold sameBut, validMethod; cbn.
      repeat split; auto; intros; discriminate.
    - exists emptyRequest; unfold sameBut, validMethod; cbn.
      repeat split; auto; intros; discriminate. }
  destruct H1 as (r1 & -> & S1 & P1 & P1' & V1); cbn [bind].
  assert (H2 : exists r2,
             match exec urlRe code with
             | Some urlMatch => u <- group 1 urlMatch ;; Ok (withUrl u r1)
             | None => Ok r1
             end = Ok r2
             /\ sameBut false true false false false r1 r2
             /\ (exec urlRe code = None -> url r2 = url r1)).
  { destruct (exec urlRe code) as [m|] eqn:E.
    - destruct (exec_group urlRe code m 1 E eq_refl) as (t & Ht & _).
      rewrite Ht; cbn [bind]. eexists; split; [reflexivity|].
      unfold sameBut; repeat split; auto; discriminate.
    - exists r1; unfold sameBut; repeat split; auto. }
  destruct H2 as (r2 & -> & S2 & U2); cbn [bind].
  destruct (extractMethod_ok code r2) as (r3 & -> & S3 & V3 & M3 & M3').
  cbn [bind].
  destruct (extractHeaders_ok code r3) as (r4 & -> & S4 & H4).
  cbn [bind].
  assert (H5 : exists r5,
             match exec authRe code with
             | Some authBlock =>
                 block <- group 1 authBlock ;;
                 match exec usernameRe block with
                 | Some userMatch =>
                     u <- group 1 userMatch ;;
                     p <- match exec passwordRe block with
                          | Some passMatch => group 1 passMatch
                          | None => Ok []
                          end ;;
                     Ok (withAuth (Some {| user := u; pass := p |}) r4)
                 | None => Ok r4
                 end
             | None => Ok r4
             end = Ok r5
             /\ sameBut false false false false true r4 r5
             /\ (exec authRe code = None -> auth r5 = auth r4)).
  { destruct (exec authRe code) as [m|] eqn:E.
    - destruct (exec_group authRe code m 1 E eq_refl) as (t & Ht & _).
      rewrite Ht; cbn [bind].
      destruct (exec usernameRe t) as [mu|] eqn:Eu.
      + destruct (exec_group usernameRe t mu 1 Eu eq_refl) as (u & Hu & _).
        rewrite Hu; cbn [bind].
        destruct (exec passwordRe t) as [mp|] eqn:Ep.
        * destruct (exec_group passwordRe t mp 1 Ep eq_refl)
            as (p & Hp & _).
          rewrite Hp; cbn [bind]. eexists; split; [reflexivity|].
          unfold sameBut; repeat split; auto; discriminate.
        * cbn [bind]. eexists; split; [reflexivity|].
          unfold sameBut; repeat split; auto; discriminate.
      + exists r4; unfold sameBut; repeat split; auto.
    - exists r4; unfold sameBut; repeat split; auto. }
  destruct H5 as (r5 & -> & S5 & A5); cbn [bind].
  assert (H6 : exists r6,
             match exec dataRe code with
             | Some dataMatch =>
                 match getCap 2 (groups dataMatch) with
                 | Some (x :: t) => Ok (withBody (Some (x :: t)) r5)
                 | _ => b <- group 1 dataMatch ;; Ok (withBody (Some b) r5)
                 end
             | None => Ok r5
             end = Ok r6
             /\ sameBut false false false true false r5 r6
             /\ (exec dataRe code = None -> body r6 = body r5)).
  { destruct (exec dataRe code) as [m|] eqn:E.
    - destruct (exec_group dataRe code m 1 E eq_refl) as (t & Ht & _).
      rewrite Ht; cbn [bind].
      destruct (getCap 2 (groups m)) as [[|x l]|];
        (eexists; split; [reflexivity|]);
        unfold sameBut; repeat split; auto; discriminate.
    - exists r5; unfold sameBut; repeat split; auto. }
  destruct H6 as (r6 & -> & S6 & B6).
  exists r6; split; [reflexivity|].
  use_same S1. use_same S2. use_same S3. use_same S4. use_same S5.
  use_same S6.
  assert (Vr : validMethod (method r6)).
  { replace (method r6) with (method r3) by congruence. apply V3.
    replace (method r2) with (method r1) by congruence. exact V1. }
  assert (D : exec axiosPostRe code = None ->
              method r1 = L "GET" /\ url r1 = []).
  { intros Ep; rewrite (P1 Ep); split; reflexivity. }
  split; [exact Vr|].
  split; [intros _ Ep Eu; destruct (D Ep); specialize (U2 Eu);
          congruence|].
  split; [intros Ep Em; destruct (D Ep); specialize (M3 Em);
          congruence|].
  split; [intros Eh; specialize (H4 Eh); cbn in *; congruence|].
  split; [intros Ea; specialize (A5 Ea); cbn in *; congruence|].
  split; [intros Ed; specialize (B6 Ed); cbn in *; congruence|].
  split; [cbn in *; congruence|].
  split; [cbn in *; congruence|].
  split; [cbn in *; congruence|].
  intros _ p Ep. split.
  - intros Em. specialize (M3 Em). specialize (P1' p Ep). congruence.
  - intros m Em. destruct (M3' m Em) as (t & Ht & Hm).
    exists t; split; [exact Ht|]. congruence.
Qed.

(** C9.  Both extractors return a record for every snippet, and a field
    whose pattern finds no match keeps its default: GET, the empty URL, no
    headers, no body, no auth. *)
Theorem C9_extractors_never_fail (code : str) :
  (exists r, parseFetchCode code = Ok r
     /\ (exec fetchUrlRe code = None -> url r = [])
     /\ (exec methodRe code = None -> method r = L "GET")
     /\ (exec headersRe code = None -> headers r = [])
     /\ (exec bodyStringRe code = None -> exec bodyJsonRe code = None ->
         body r = None)
     /\ auth r = None)
  /\ (exists r, parseAxiosCode code = Ok r
     /\ (exec axiosGetRe code = None -> exec axiosPostRe code = None ->
         exec urlRe code = None -> url r = [])
     /\ (exec axiosPostRe code = None -> exec methodRe code = None ->
         method r = L "GET")
     /\ (exec headersRe code = None -> headers r = [])
     /\ (exec authRe code = None -> auth r = None)
     /\ (exec dataRe code = None -> body r = None)).
Proof.
  split.
  - destruct (parseFetchCode_ok code)
      as (r & E & _ & Hu & Hm & Hh & Hb & Ha & _).
    exists r; auto 10.
  - destruct (parseAxiosCode_ok code)
      as (r & E & _ & Hu & Hm & Hh & Ha & Hb & _).
    exists r; auto 10.
Qed.

Lemma C9_extractors_never_fail_witness :
  (exists r, parseFetchCode (L "call fetch('http://x') please") = Ok r
             /\ method r = L "GET" /\ headers r = [] /\ body r = None)
  /\ (exists r, parseAxiosCode (L "not a snippet at all") = Ok r
             /\ url r = [] /\ method r = L "GET" /\ headers r = []
             /\ auth r = None /\ body r = None).
Proof.
  split.
  - destruct (proj1 (C9_extractors_never_fail
                       (L "call fetch('http://x') please")))
      as (r & E & _ & Hm & Hh & Hb & _).
    exists r; split; [exact E|].
    split; [apply Hm; reflexivity|].
    split; [apply Hh; reflexivity|].
    apply Hb; reflexivity.
  - destruct (proj2 (C9_extractors_never_fail (L "not a snippet at all")))
      as (r & E & Hu & Hm & Hh & Ha & Hb).
    exists r; split; [exact E|].
    split; [apply Hu; reflexivity|].
    split; [apply Hm; reflexivity|].
    split; [apply Hh; reflexivity|].
    split; [apply Ha; reflexivity | apply Hb; reflexivity].
Defined.

(** The searches of [parseAxiosCode] after the two short forms, each as
    the update it makes to the record. *)
Lemma with_same (r : ParsedRequest) :
  withUrl (url r) r = r /\ withMethod (method r) r = r
  /\ withHeaders (headers r) r = r /\ withAuth (auth r) r = r
  /\ withBody (body r) r = r.
Proof. destruct r; repeat split. Qed.

Lemma url_search (code : str) (r : ParsedRequest) :
  match exec urlRe code with
  | Some urlMatch => u <- group 1 urlMatch ;; Ok (withUrl u r)
  | None => Ok r
  end
  = Ok (withUrl match exec urlRe code with
                | Some m => match getCap 1 (groups m) with
                            | Some u => u
                            | None => url r
                            end
                | None => url r
                end r).
Proof.
  destruct (exec urlRe code) as [m|] eqn:E.
  - destruct (exec_group urlRe code m 1 E eq_refl) as (t & Ht & Hc & _).
    rewrite Ht, Hc. reflexivity.
  - rewrite (proj1 (with_same r)). reflexivity.
Qed.

Lemma method_search (code : str) (r : ParsedRequest) :
  extractMethod code r
  = Ok (withMethod match exec methodRe code with
                   | Some m => match getCap 1 (groups m) with
                               | Some t => toUpperCase t
                               | None => method r
                               end
                   | None => method r
                   end r).
Proof.
  unfold extractMethod.
  destruct (exec methodRe code) as [m|] eqn:E.
  - destruct (exec_group methodRe code m 1 E eq_refl) as (t & Ht & Hc & _).
    rewrite Ht, Hc. reflexivity.
  - rewrite (proj1 (proj2 (with_same r))). reflexivity.
Qed.

Lemma addHeaderEntries_headers (ms : list MatchResult) : forall r r',
  addHeaderEntries ms r = Ok r' ->
  r' = withHeaders (headers r') r
  /\ forall r2, headers r2 = headers r ->
                addHeaderEntries ms r2 = Ok (withHeaders (headers r') r2).
Proof.
  induction ms as [|m ms IH]; intros r r' H; cbn [addHeaderEntries] in *.
  - injection H as <-. split.
    + symmetry; apply with_same.
    + intros r2 E. rewrite <- E. f_equal. symmetry; apply with_same.
  - destruct (group 1 m) as [k|]; [|discriminate H].
    destruct (group 2 m) as [v|]; [|discriminate H].
    cbn [bind] in *.
    destruct (IH _ _ H) as [E1 E2]. split.
    + rewrite E1 at 1. reflexivity.
    + intros r2 E. rewrite (E2 (withHeaders (setHeader k v (headers r2)) r2)).
      * reflexivity.
      * cbn. rewrite E. reflexivity.
Qed.

Lemma headers_search (code : str) (r r' : ParsedRequest) :
  extractHeaders code r = Ok r' ->
  r' = withHeaders (headers r') r
  /\ forall r2, headers r2 = headers r ->
                extractHeaders code r2 = Ok (withHeaders (headers r') r2).
Proof.
  unfold extractHeaders.
  destruct (exec headersRe code) as [m|].
  - destruct (group 1 m) as [block|]; [|discriminate].
    cbn [bind]. apply addHeaderEntries_headers.
  - intros H. injection H as <-. split.
    + symmetry; apply with_same.
    + intros r2 E. rewrite <- E. f_equal. symmetry; apply with_same.
Qed.

Lemma auth_search (code : str) (r : ParsedRequest) :
  match exec authRe code with
  | Some authBlock =>
      block <- group 1 authBlock ;;
      match exec usernameRe block with
      | Some userMatch =>
          u <- group 1 userMatch ;;
          p <- match exec passwordRe block with
               | Some passMatch => group 1 passMatch
               | None => Ok []
               end ;;
          Ok (withAuth (Some {| user := u; pass := p |}) r)
      | None => Ok r
      end
  | None => Ok r
  end
  = Ok (withAuth
          match exec authRe code with
          | Some authBlock =>
              match getCap 1 (groups authBlock) with
              | Some block =>
                  match exec usernameRe block with
                  | Some userMatch =>
                      match getCap 1 (groups userMatch) with
                      | Some u =>
                          Some {| user := u;
                                  pass :=
                                    match exec passwordRe block with
                                    | Some passMatch =>
                                        match getCap 1 (groups passMatch)
                                        with
                                        | Some p => p
                                        | None => []
                                        end
                                    | None => []
                                    end |}
                      | None => auth r
                      end
                  | None => auth r
                  end
              | None => auth r
              end
          | None => auth r
          end r).
Proof.
  pose proof (proj1 (proj2 (proj2 (proj2 (with_same r))))) as W.
  destruct (exec authRe code) as [m|] eqn:E; [|rewrite W; reflexivity].
  destruct (exec_group authRe code m 1 E eq_refl) as (t & Ht & Hc & _).
  rewrite Ht, Hc. cbn [bind].
  destruct (exec usernameRe t) as [mu|] eqn:Eu; [|rewrite W; reflexivity].
  destruct (exec_group usernameRe t mu 1 Eu eq_refl) as (u & Hu & Hcu & _).
  rewrite Hu, Hcu. cbn [bind].
  destruct (exec passwordRe t) as [mp|] eqn:Ep; [|reflexivity].
  destruct (exec_group passwordRe t mp 1 Ep eq_refl) as (p & Hp & Hcp & _).
  rewrite Hp, Hcp. reflexivity.
Qed.

Lemma data_search (code : str) (r : ParsedRequest) :
  match exec dataRe code with
  | Some dataMatch =>
      match getCap 2 (groups dataMatch) with
      | Some (x :: t) => Ok (withBody (Some (x :: t)) r)
      | _ => b <- group 1 dataMatch ;; Ok (withBody (Some b) r)
      end
  | None => Ok r
  end
  = Ok (withBody
          match exec dataRe code with
          | Some dataMatch =>
              match getCap 2 (groups dataMatch) with
              | Some (x :: t) => Some (x :: t)
              | _ => match getCap 1 (groups dataMatch) with
                     | Some b => Some b
                     | None => body r
                     end
              end
          | None => body r
          end r).
Proof.
  pose proof (proj2 (proj2 (proj2 (proj2 (with_same r))))) as W.
  destruct (exec dataRe code) as [m|] eqn:E; [|rewrite W; reflexivity].
  destruct (exec_group dataRe code m 1 E eq_refl) as (t & Ht & Hc & _).
  rewrite Ht, Hc. cbn [bind].
  destruct (getCap 2 (groups m)) as [[|x l]|]; reflexivity.
Qed.

(** [parseAxiosCode] when [axios.get] is not found and [axios.post] is:
    every later search runs, on the record that the short form left. *)
Lemma parseAxiosCode_post (code : str) (p : MatchResult) :
  exec axiosGetRe code = None -> exec axiosPostRe code = Some p ->
  exists r up,
    parseAxiosCode code = Ok r
    /\ getCap 1 (groups p) = Some up
    /\ url r = match exec urlRe code with
               | Some m => match getCap 1 (groups m) with
                           | Some u => u
                           | None => up
                           end
               | None => up
               end
    /\ method r = match exec methodRe code with
                  | Some m => match getCap 1 (groups m) with
                              | Some t => toUpperCase t
                              | None => L "POST"
                              end
                  | None => L "POST"
                  end
    /\ extractHeaders code emptyRequest
       = Ok (withHeaders (headers r) emptyRequest)
    /\ auth r = match exec authRe code with
                | Some authBlock =>
                    match getCap 1 (groups authBlock) with
                    | Some block =>
                        match exec usernameRe block with
                        | Some userMatch =>
                            match getCap 1 (groups userMatch) with
                            | Some u =>
                                Some {| user := u;
                                        pass :=
                                          match exec passwordRe block with
                                          | Some passMatch =>
                                              match getCap 1
                                                      (groups passMatch)
                                              with
                                              | Some pw => pw
                                              | None => []
                                              end
                                          | None => []
                                          end |}
                            | None => None
                            end
                        | None => None
                        end
                    | None => None
                    end
                | None => None
                end
    /\ body r = match exec dataRe code with
                | Some dataMatch =>
                    match getCap 2 (groups dataMatch) with
                    | Some (x :: t) => Some (x :: t)
                    | _ => getCap 1 (groups dataMatch)
                    end
                | None => None
                end
    /\ contentType r = None /\ followRedirects r = true
    /\ insecure r = false.
Proof.
  intros Eg Ep.
  destruct (exec_group axiosPostRe code p 1 Ep eq_refl) as (up & Gp & Cp & _).
  unfold parseAxiosCode. rewrite Eg, Ep, Gp. cbn [bind].
  rewrite url_search. cbn [bind].
  rewrite method_search. cbn [bind].
  match goal with
  | |- context [extractHeaders code ?r3] =>
      destruct (extractHeaders_ok code r3) as (r4 & E4 & _);
      destruct (headers_search code r3 r4 E4) as (R4 & H4);
      rewrite E4; cbn [bind]
  end.
  rewrite auth_search. cbn [bind].
  rewrite data_search.
  eexists; exists up. split; [reflexivity|].
  split; [exact Cp|].
  rewrite R4.
  cbn [url method headers body auth contentType followRedirects insecure
       withBody withAuth withHeaders withMethod withUrl emptyRequest].
  repeat split.
  - apply (H4 emptyRequest). reflexivity.
  - destruct (exec dataRe code) as [m|]; [|reflexivity].
    destruct (getCap 2 (groups m)) as [[|x l]|];
      destruct (getCap 1 (groups m)); reflexivity.
Qed.

(** C10.  When the pattern of [axios.get] with a quoted first argument
    matches, [parseAxiosCode] returns at once: that URL, GET, no headers,
    no body, no auth, whatever else the snippet holds.  When the pattern of
    [axios.post] matches instead, every later search still runs: the URL
    is that of a [url] field if there is one and that of the call
    otherwise, the method is that of a [method] field and POST otherwise,
    the headers are those of the header search, the credentials those of
    an [auth] block with a [username], the body that of a [data] field. *)
Theorem C10_axios_get_returns_early :
  (forall (code : str) (m : MatchResult),
      exec axiosGetRe code = Some m ->
      exists u, getCap 1 (groups m) = Some u
        /\ parseAxiosCode code =
           Ok {| method := L "GET"; url := u; headers := []; body := None;
                 contentType := None; auth := None;
                 followRedirects := true; insecure := false |})
  /\ (forall (code : str) (p : MatchResult),
        exec axiosGetRe code = None -> exec axiosPostRe code = Some p ->
        exists r up,
          parseAxiosCode code = Ok r
          /\ getCap 1 (groups p) = Some up
          /\ url r = match exec urlRe code with
                     | Some m => match getCap 1 (groups m) with
                                 | Some u => u
                                 | None => up
                                 end
                     | None => up
                     end
          /\ method r = match exec methodRe code with
                        | Some m => match getCap 1 (groups m) with
                                    | Some t => toUpperCase t
                                    | None => L "POST"
                                    end
                        | None => L "POST"
                        end
          /\ extractHeaders code emptyRequest
             = Ok (withHeaders (headers r) emptyRequest)
          /\ auth r = match exec authRe code with
                      | Some authBlock =>
                          match getCap 1 (groups authBlock) with
                          | Some block =>
                              match exec usernameRe block with
                              | Some userMatch =>
                                  match getCap 1 (groups userMatch) with
                                  | Some u =>
                                      Some {| user := u;
                                              pass :=
                                                match exec passwordRe block with
                                                | Some passMatch =>
                                                    match getCap 1
                                                            (groups passMatch)
                                                    with
                                                    | Some pw => pw
                                                    | None => []
                                                    end
                                                | None => []
                                                end |}
                                  | None => None
                                  end
                              | None => None
                              end
                          | None => None
                          end
                      | None => None
                      end
          /\ body r = match exec dataRe code with
                      | Some dataMatch =>
                          match getCap 2 (groups dataMatch) with
                          | Some (x :: t) => Some (x :: t)
                          | _ => getCap 1 (groups dataMatch)
                          end
                      | None => None
                      end
          /\ contentType r = None /\ followRedirects r = true
          /\ insecure r = false)
  /\ parseAxiosCode
       (L "axios.get('http://x', { method: 'put', headers: { 'A': 'b' }, data: 'payload' })")
     = Ok {| method := L "GET"; url := L "http://x"; headers := [];
             body := None; contentType := None; auth := None;
             followRedirects := true; insecure := false |}
  /\ parseAxiosCode
       (L "axios.post('http://x', { headers: { 'A': 'b' }, data: 'payload' })")
     = Ok {| method := L "POST"; url := L "http://x";
             headers := [(L "A", L "b")]; body := Some (L "payload");
             contentType := None; auth := None;
             followRedirects := true; insecure := false |}
  /\ parseAxiosCode
       (L "axios.post('http://x', { url: '/y', method: 'put', auth: { username: 'u', password: 'p' } })")
     = Ok {| method := L "PUT"; url := L "/y"; headers := [];
             body := None; contentType := None;
             auth := Some {| user := L "u"; pass := L "p" |};
             followRedirects := true; insecure := false |}.
Proof.
  split.
  { intros code m E.
    destruct (axiosGet_shorthand code m E) as (u & Hu & _ & Hp).
    exists u; split; [exact Hu | exact Hp]. }
  split; [exact parseAxiosCode_post|].
  repeat split; reflexivity.
Qed.

Lemma C10_axios_get_returns_early_witness :
  exists u,
    parseAxiosCode (L "axios.get(`/items`, { auth: { username: 'u' } })")
    = Ok {| method := L "GET"; url := u; headers := []; body := None;
            contentType := None; auth := None;
            followRedirects := true; insecure := false |}.
Proof.
  destruct (proj1 C10_axios_get_returns_early
              (L "axios.get(`/items`, { auth: { username: 'u' } })")
              {| groups := [(1, L "/items")];
                 after := L ", { auth: { username: 'u' } })" |}
              eq_refl) as (u & _ & H).
  exists u; exact H.
Defined.

(** ** JSON.parse: the fuel is enough *)

Lemma skipWs_le (s : str) : List.length (skipWs s) <= List.length s.
Proof.
  induction s as [|c s IH]; simpl; [lia|].
  destruct (isJsonWs c); simpl; lia.
Qed.

Lemma skipWs_cons_lt (s s' : str) (c : ascii) :
  skipWs s = c :: s' -> List.length s' < List.length s.
Proof.
  intros H. pose proof (skipWs_le s) as L. rewrite H in L. simpl in L. lia.
Qed.

Lemma parseStringBody_lt (s : str) : forall acc u s',
  parseStringBody s acc = Some (u, s') -> List.length s' < List.length s.
Proof.
  induction s as [s IH] using (well_founded_induction
                                 (Wf_nat.well_founded_ltof _ (@List.length ascii))).
  unfold Wf_nat.ltof in IH.
  intros acc u s' H. destruct s as [|c s]; [discriminate|].
  simpl in H.
  destruct (Ascii.eqb c DQ).
  - injection H as _ <-. simpl; lia.
  - destruct (Ascii.eqb c BS).
    + destruct s as [|e s]; [discriminate|].
      destruct (Ascii.eqb e "u"%char).
      * destruct s as [|h1 [|h2 [|h3 [|h4 s4]]]]; try discriminate.
        destruct (hex4 h1 h2 h3 h4); [|discriminate].
        apply IH in H; simpl in *; lia.
      * destruct (simpleEscape e); [|discriminate].
        apply IH in H; simpl in *; lia.
    + destruct (nat_of_ascii c <? 32); [discriminate|].
      apply IH in H; simpl in *; lia.
Qed.

Lemma spanDigits_le (s : str) : List.length (spanDigits s) <= List.length s.
Proof.
  induction s as [|c s IH]; simpl; [lia|].
  destruct (isDigit c); simpl; lia.
Qed.

Lemma digits1_le (s s' : str) : digits1 s = Some s' -> List.length s' <= List.length s.
Proof.
  destruct s as [|c s]; simpl; [discriminate|].
  destruct (isDigit c); [|discriminate].
  intros H; injection H as <-. pose proof (spanDigits_le s); lia.
Qed.

Lemma parseNumber_le (s s' : str) :
  parseNumber s = Some s' -> List.length s' <= List.length s.
Proof.
  unfold parseNumber.
  set (s1 := match s with
             | [] => s
             | c :: s'0 => if Ascii.eqb c "-"%char then s'0 else s
             end).
  assert (L1 : List.length s1 <= List.length s).
  { subst s1; destruct s as [|c s]; simpl; [lia|].
    destruct (Ascii.eqb c "-"%char); simpl; lia. }
  destruct s1 as [|c s2]; [discriminate|]. simpl in L1.
  set (ai := if Ascii.eqb c "0"%char then Some s2
             else if isDigit c then Some (spanDigits s2) else None).
  assert (L2 : forall s3, ai = Some s3 -> List.length s3 <= List.length s2).
  { subst ai; intros s3 H.
    destruct (Ascii.eqb c "0"%char); [injection H as <-; lia|].
    destruct (isDigit c); [|discriminate].
    injection H as <-; apply spanDigits_le. }
  destruct ai as [s3|]; [|discriminate].
  specialize (L2 s3 eq_refl).
  set (af := match s3 with
             | [] => Some s3
             | d :: s4 =>
                 if Ascii.eqb d "."%char then digits1 s4 else Some s3
             end).
  assert (L3 : forall s5, af = Some s5 -> List.length s5 <= List.length s3).
  { subst af; intros s5 H. destruct s3 as [|d s4].
    - injection H as <-; lia.
    - destruct (Ascii.eqb d "."%char).
      + apply digits1_le in H; simpl; lia.
      + injection H as <-; lia. }
  destruct af as [s5|]; [|discriminate].
  specialize (L3 s5 eq_refl).
  intros H. destruct s5 as [|e s6].
  - injection H as <-; simpl in *; lia.
  - destruct (Ascii.eqb e "e"%char || Ascii.eqb e "E"%char).
    + destruct s6 as [|g s7]; [discriminate|].
      destruct (Ascii.eqb g "+"%char || Ascii.eqb g "-"%char);
        apply digits1_le in H; simpl in *; lia.
    + injection H as <-; simpl in *; lia.
Qed.

Lemma stripPrefix_le (p s s' : str) :
  stripPrefix p s = Some s' -> List.length s' <= List.length s.
Proof.
  intros H; apply stripPrefix_sound in H; subst s.
  rewrite length_app; lia.
Qed.

Lemma valueBody_le elements members (s : str) v s' :
  shrinks elements -> shrinks members ->
  valueBody elements members s = Some (v, s') -> List.length s' <= List.length s.
Proof.
  intros He Hm. unfold valueBody.
  destruct (skipWs s) as [|c s1] eqn:E; [discriminate|].
  apply skipWs_cons_lt in E.
  pose proof (skipWs_le s1) as W.
  destruct (Ascii.eqb c "{"%char).
  { destruct (skipWs s1) as [|d s2] eqn:E1; [discriminate|].
    destruct (Ascii.eqb d "}"%char).
    - intros H; injection H as _ <-. simpl in W; lia.
    - intros H; apply Hm in H. lia. }
  destruct (Ascii.eqb c "["%char).
  { destruct (skipWs s1) as [|d s2] eqn:E1; [discriminate|].
    destruct (Ascii.eqb d "]"%char).
    - intros H; injection H as _ <-. simpl in W; lia.
    - intros H; apply He in H. lia. }
  destruct (Ascii.eqb c DQ).
  { destruct (parseStringBody s1 []) as [[u s2]|] eqn:P; [|discriminate].
    apply parseStringBody_lt in P.
    intros H; injection H as _ <-. lia. }
  destruct (stripPrefix (L "true") (c :: s1)) as [t|] eqn:T.
  { apply stripPrefix_le in T. intros H; injection H as _ <-.
    simpl in T; lia. }
  destruct (stripPrefix (L "false") (c :: s1)) as [t|] eqn:F.
  { apply stripPrefix_le in F. intros H; injection H as _ <-.
    simpl in F; lia. }
  destruct (stripPrefix (L "null") (c :: s1)) as [t|] eqn:Nl.
  { apply stripPrefix_le in Nl. intros H; injection H as _ <-.
    simpl in Nl; lia. }
  destruct (parseNumber (c :: s1)) as [t|] eqn:Nm; [|discriminate].
  apply parseNumber_le in Nm. intros H; injection H as _ <-.
  simpl in Nm; lia.
Qed.

Lemma elementsBody_le value elements (s : str) acc v s' :
  (forall v1 s1, value s = Some (v1, s1) -> List.length s1 <= List.length s) ->
  shrinks elements ->
  elementsBody value elements s acc = Some (v, s') ->
  List.length s' <= List.length s.
Proof.
  intros Hv He. unfold elementsBody.
  destruct (value s) as [[v1 s1]|] eqn:V; [|discriminate].
  specialize (Hv v1 s1 eq_refl).
  destruct (skipWs s1) as [|d s2] eqn:E; [discriminate|].
  apply skipWs_cons_lt in E.
  destruct (Ascii.eqb d ","%char).
  - intros H; apply He in H; lia.
  - destruct (Ascii.eqb d "]"%char); [|discriminate].
    intros H; injection H as _ <-; lia.
Qed.

Lemma membersBody_le value members (s : str) acc v s' :
  (forall x v1 s1, value x = Some (v1, s1) ->
                   List.length s1 <= List.length x) ->
  shrinks members ->
  membersBody value members s acc = Some (v, s') ->
  List.length s' <= List.length s.
Proof.
  intros Hv Hm. unfold membersBody.
  destruct (skipWs s) as [|d s1] eqn:E; [discriminate|].
  apply skipWs_cons_lt in E.
  destruct (Ascii.eqb d DQ); [|discriminate].
  destruct (parseStringBody s1 []) as [[k s2]|] eqn:P; [|discriminate].
  apply parseStringBody_lt in P.
  destruct (skipWs s2) as [|e s3] eqn:E2; [discriminate|].
  apply skipWs_cons_lt in E2.
  destruct (Ascii.eqb e ":"%char); [|discriminate].
  destruct (value s3) as [[v1 s4]|] eqn:V; [|discriminate].
  apply Hv in V.
  destruct (skipWs s4) as [|g s5] eqn:E4; [discriminate|].
  apply skipWs_cons_lt in E4.
  destruct (Ascii.eqb g ","%char).
  - intros H; apply Hm in H; lia.
  - destruct (Ascii.eqb g "}"%char); [|discriminate].
    intros H; injection H as _ <-; lia.
Qed.

Lemma parse_le (f : nat) :
  (forall s v s', parseValue f s = Some (v, s') ->
                  List.length s' <= List.length s)
  /\ shrinks (parseElements f) /\ shrinks (parseMembers f).
Proof.
  induction f as [|f (IHv & IHe & IHm)].
  - repeat split; unfold shrinks; intros; discriminate.
  - split; [|split].
    + intros s v s' H; simpl in H.
      eapply valueBody_le; eauto.
    + intros s acc v s' H; simpl in H.
      eapply elementsBody_le; eauto.
    + intros s acc v s' H; simpl in H.
      eapply membersBody_le; eauto.
Qed.

(** The bodies look at the parsers they are given only on shorter
    inputs. *)
Lemma valueBody_ext e1 m1 e2 m2 (s : str) :
  (forall x acc, List.length x < List.length s -> e1 x acc = e2 x acc) ->
  (forall x acc, List.length x < List.length s -> m1 x acc = m2 x acc) ->
  valueBody e1 m1 s = valueBody e2 m2 s.
Proof.
  intros He Hm. unfold valueBody.
  destruct (skipWs s) as [|c s1] eqn:E; [reflexivity|].
  apply skipWs_cons_lt in E.
  pose proof (skipWs_le s1) as W.
  destruct (Ascii.eqb c "{"%char).
  { destruct (skipWs s1) as [|d s2] eqn:E1; [reflexivity|].
    destruct (Ascii.eqb d "}"%char); [reflexivity|].
    apply Hm; lia. }
  destruct (Ascii.eqb c "["%char); [|reflexivity].
  destruct (skipWs s1) as [|d s2] eqn:E1; [reflexivity|].
  destruct (Ascii.eqb d "]"%char); [reflexivity|].
  apply He; lia.
Qed.

Lemma elementsBody_ext v1 e1 v2 e2 (s : str) acc :
  v1 s = v2 s ->
  (forall v s1, v2 s = Some (v, s1) -> List.length s1 <= List.length s) ->
  (forall x a, List.length x < List.length s -> e1 x a = e2 x a) ->
  elementsBody v1 e1 s acc = elementsBody v2 e2 s acc.
Proof.
  intros Hv Hl He. unfold elementsBody. rewrite Hv.
  destruct (v2 s) as [[v s1]|] eqn:V; [|reflexivity].
  specialize (Hl v s1 eq_refl).
  destruct (skipWs s1) as [|d s2] eqn:E; [reflexivity|].
  apply skipWs_cons_lt in E.
  destruct (Ascii.eqb d ","%char); [|reflexivity].
  apply He; lia.
Qed.

Lemma membersBody_ext v1 m1 v2 m2 (s : str) acc :
  (forall x, List.length x < List.length s -> v1 x = v2 x) ->
  (forall x v s1, v2 x = Some (v, s1) -> List.length s1 <= List.length x) ->
  (forall x a, List.length x < List.length s -> m1 x a = m2 x a) ->
  membersBody v1 m1 s acc = membersBody v2 m2 s acc.
Proof.
  intros Hv Hl Hm. unfold membersBody.
  destruct (skipWs s) as [|d s1] eqn:E; [reflexivity|].
  apply skipWs_cons_lt in E.
  destruct (Ascii.eqb d DQ); [|reflexivity].
  destruct (parseStringBody s1 []) as [[k s2]|] eqn:P; [|reflexivity].
  apply parseStringBody_lt in P.
  destruct (skipWs s2) as [|e s3] eqn:E2; [reflexivity|].
  apply skipWs_cons_lt in E2.
  destruct (Ascii.eqb e ":"%char); [|reflexivity].
  rewrite Hv by lia.
  destruct (v2 s3) as [[v s4]|] eqn:V; [|reflexivity].
  apply Hl in V.
  destruct (skipWs s4) as [|g s5] eqn:E4; [reflexivity|].
  apply skipWs_cons_lt in E4.
  destruct (Ascii.eqb g ","%char); [|reflexivity].
  apply Hm; lia.
Qed.

(** One more unit of fuel changes nothing once the fuel is twice the
    length of the input (and one or two more). *)
Lemma parse_stable (f : nat) :
  (forall s, 2 * List.length s + 1 <= f ->
             parseValue (S f) s = parseValue f s)
  /\ (forall s acc, 2 * List.length s + 2 <= f ->
                    parseElements (S f) s acc = parseElements f s acc)
  /\ (forall s acc, 2 * List.length s + 2 <= f ->
                    parseMembers (S f) s acc = parseMembers f s acc).
Proof.
  induction f as [|f (IHv & IHe & IHm)].
  - repeat split; intros; lia.
  - destruct (parse_le f) as (Lv & Le & Lm).
    split; [|split].
    + intros s Hs.
      change (valueBody (parseElements (S f)) (parseMembers (S f)) s
              = valueBody (parseElements f) (parseMembers f) s).
      apply valueBody_ext; intros x acc Hx; [apply IHe | apply IHm]; lia.
    + intros s acc Hs.
      change (elementsBody (parseValue (S f)) (parseElements (S f)) s acc
              = elementsBody (parseValue f) (parseElements f) s acc).
      apply elementsBody_ext.
      * apply IHv; lia.
      * intros v s1; apply Lv.
      * intros x a Hx; apply IHe; lia.
    + intros s acc Hs.
      change (membersBody (parseValue (S f)) (parseMembers (S f)) s acc
              = membersBody (parseValue f) (parseMembers f) s acc).
      apply membersBody_ext.
      * intros x Hx; apply IHv; lia.
      * intros x v s1; apply Lv.
      * intros x a Hx; apply IHm; lia.
Qed.

(** The fuel of [JSON_parse] is enough: more fuel gives the same result. *)
Lemma JSON_parse_fuel (text : str) (k : nat) :
  parseValue (2 * List.length text + 2 + k) text
  = parseValue (2 * List.length text + 2) text.
Proof.
  induction k as [|k IH]; [f_equal; lia|].
  rewrite <- IH.
  replace (2 * List.length text + 2 + S k)
    with (S (2 * List.length text + 2 + k)) by lia.
  apply (proj1 (parse_stable _)); lia.
Qed.


(** ** Format detector *)

(** C7.  [detectType] tries its checks in a fixed order and the first
    that holds decides: a trimmed input that starts with [curl] and a space
    or a line feed is a cURL command whatever else it holds; an input that
    [JSON.parse] rejects goes on to the checks for fetch and axios. *)
Theorem C7_detector_precedence :
  (forall input : str,
      startsWith (L "curl ") (trim input) = true
      \/ startsWith (L "curl" ++ [NL]) (trim input) = true ->
      detectType input = curl)
  /\ (forall input : str,
        JSON_parse (trim input) = None ->
        detectType input =
        if startsWith (L "curl ") (trim input)
           || startsWith (L "curl" ++ [NL]) (trim input) then curl
        else if includes (L "fetch(") (trim input)
                || includes (L "fetch (") (trim input) then fetch
        else if includes (L "axios") (trim input) then axios
        else unknown)
  /\ (forall input : str,
        detectType input =
        if startsWith (L "curl ") (trim input)
           || startsWith (L "curl" ++ [NL]) (trim input) then curl
        else match postmanCheck (trim input) with
             | Ok true => postman
             | _ =>
                 if includes (L "fetch(") (trim input)
                    || includes (L "fetch (") (trim input) then fetch
                 else if includes (L "axios") (trim input) then axios
                 else unknown
             end)
  /\ detectType (L "  curl https://x.com/axios -H 'X: axios fetch('") = curl
  /\ detectType (jsonText "{'info':{},'item':['fetch( axios']}") = postman
  /\ detectType (L "{ info: 1, item: [] } // axios.fetch(url)") = fetch
  /\ detectType (L "{ not json, but axios") = axios
  /\ detectType (L "null") = unknown.
Proof.
  split.
  { intros input H. unfold detectType.
    destruct H as [H|H]; rewrite H; [reflexivity|].
    rewrite orb_true_r; reflexivity. }
  split.
  { intros input H. unfold detectType, postmanCheck. rewrite H.
    reflexivity. }
  split; [reflexivity|].
  repeat split; vm_compute; reflexivity.
Qed.

Lemma C7_detector_precedence_witness :
  detectType (L "curl axios") = curl
  /\ detectType (L "[1, 2 fetch (x)") = fetch.
Proof.
  split.
  - apply (proj1 C7_detector_precedence (L "curl axios")).
    left; reflexivity.
  - apply (proj1 (proj2 C7_detector_precedence) (L "[1, 2 fetch (x)")).
    reflexivity.
Defined.

(** ** Collection importer *)

Lemma flattenItems_app (l1 l2 : list Postman.Item) :
  Postman.flattenItems (l1 ++ l2)
  = Postman.flattenItems l1 ++ Postman.flattenItems l2.
Proof.
  induction l1 as [|x l1 IH]; simpl; [reflexivity|].
  rewrite IH, app_assoc; reflexivity.
Qed.

Lemma flattenItem_folder (n : str) (r : option Postman.Request)
      (sub : list Postman.Item) :
  Postman.flattenItem (Postman.MkItem n r (Some sub))
  = Postman.flattenItems sub.
Proof.
  simpl. induction sub as [|x sub IH]; simpl; [reflexivity|].
  rewrite IH; reflexivity.
Qed.

(** C8.  [flattenItems] walks the item tree depth first, in the order of
    the document: an item with a nested list contributes the leaves of
    that list and not its own request, an item without a nested list but
    with a request contributes itself, any other item contributes nothing.
    Two folders with one leaf request each give two records, in the order
    of the folders, whatever the folders are called. *)
Theorem C8_collection_flatten :
  (forall (n : str) (r : option Postman.Request)
          (sub rest : list Postman.Item),
      Postman.flattenItems (Postman.MkItem n r (Some sub) :: rest)
      = Postman.flattenItems sub ++ Postman.flattenItems rest)
  /\ (forall (n : str) (r : Postman.Request) (rest : list Postman.Item),
        Postman.flattenItems (Postman.MkItem n (Some r) None :: rest)
        = Postman.MkItem n (Some r) None :: Postman.flattenItems rest)
  /\ (forall (n : str) (rest : list Postman.Item),
        Postman.flattenItems (Postman.MkItem n None None :: rest)
        = Postman.flattenItems rest)
  /\ (forall l1 l2 : list Postman.Item,
        Postman.flattenItems (l1 ++ l2)
        = Postman.flattenItems l1 ++ Postman.flattenItems l2)
  /\ (forall l1 l2 : list Postman.Item,
        Postman.importCollection
          {| Postman.collection_item := Some (l1 ++ l2) |}
        = Postman.importCollection {| Postman.collection_item := Some l1 |}
          ++ Postman.importCollection
               {| Postman.collection_item := Some l2 |})
  /\ (forall (folder1 folder2 name1 name2 : str)
             (own1 own2 : option Postman.Request)
             (req1 req2 : Postman.Request),
        Postman.importCollection
          {| Postman.collection_item :=
               Some [Postman.MkItem folder1 own1
                       (Some [Postman.MkItem name1 (Some req1) None]);
                     Postman.MkItem folder2 own2
                       (Some [Postman.MkItem name2 (Some req2) None])] |}
        = [Postman.toRequest req1; Postman.toRequest req2])
  /\ parsePostmanCollection
       (jsonText "{'info':{'name':'c'},'item':[{'name':'Users','item':[{'name':'list','request':{'method':'GET','url':'http://a/users'}}]},{'name':'Orders','request':{'method':'PUT','url':'http://a/own'},'item':[{'name':'create','request':{'method':'POST','url':{'raw':'http://a/orders'}}}]}]}")
     = Returns [withUrl (L "http://a/users") emptyRequest;
                withMethod (L "POST")
                  (withUrl (L "http://a/orders") emptyRequest)].
Proof.
  split.
  { intros n r sub rest.
    change (Postman.flattenItems (Postman.MkItem n r (Some sub) :: rest))
      with (Postman.flattenItem (Postman.MkItem n r (Some sub))
              ++ Postman.flattenItems rest).
    rewrite flattenItem_folder; reflexivity. }
  split; [reflexivity|].
  split; [reflexivity|].
  split; [exact flattenItems_app|].
  split.
  { intros l1 l2. unfold Postman.importCollection; cbn.
    rewrite flattenItems_app, flat_map_app; reflexivity. }
  split; [reflexivity | vm_compute; reflexivity].
Qed.

(** ** Code generators *)

Lemma bodyLine_json (field open close b : str) :
  JSON_parse b <> None ->
  bodyLine field open close b = field ++ open ++ b ++ close ++ L ",".
Proof.
  unfold bodyLine; destruct (JSON_parse b); [reflexivity | congruence].
Qed.

Lemma bodyLine_text (field open close b : str) :
  JSON_parse b = None ->
  bodyLine field open close b = field ++ L "'" ++ escapeQuotes b ++ L "',".
Proof. unfold bodyLine; intros ->; reflexivity. Qed.

Lemma toFetchLines_body (req : ParsedRequest) (b : str) :
  body req = Some b -> b <> [] ->
  In (bodyLine (L "  body: ") (L "JSON.stringify(") (L ")") b)
     (toFetchLines req).
Proof.
  intros Hb Hne. unfold toFetchLines. rewrite Hb.
  apply truthy_nonempty in Hne. cbn [truthyOpt]. rewrite Hne.
  rewrite !orb_true_r. cbn [orb negb].
  rewrite !in_app_iff. right; left. right; right; left. left; reflexivity.
Qed.

Lemma toAxiosConfig_body (req : ParsedRequest) (b : str) :
  body req = Some b -> b <> [] ->
  In (bodyLine (L "  data: ") [] [] b) (toAxiosConfig req).
Proof.
  intros Hb Hne. unfold toAxiosConfig. rewrite Hb.
  apply truthy_nonempty in Hne. rewrite Hne.
  rewrite !in_app_iff. right; right; right. left; reflexivity.
Qed.

Lemma toAxiosLines_config (req : ParsedRequest) (b : str) :
  body req = Some b -> b <> [] ->
  toAxiosLines req =
  [L "import axios from 'axios';"; []; L "const { data } = await axios({";
   join [NL] (toAxiosConfig req); L "});"; []; L "console.log(data);"].
Proof.
  intros Hb Hne. unfold toAxiosLines. rewrite Hb.
  apply truthy_nonempty in Hne. cbn [truthyOpt]. rewrite Hne.
  cbn [negb]. rewrite andb_false_r. reflexivity.
Qed.

Lemma JSON_parse_nonempty (b : str) : JSON_parse b <> None -> b <> [].
Proof. intros H ->; apply H; reflexivity. Qed.

Lemma empty_body_as_none (req : ParsedRequest) :
  body req = Some [] ->
  toFetchLines req = toFetchLines (withBody None req)
  /\ toAxiosLines req = toAxiosLines (withBody None req)
  /\ toAxiosConfig req = toAxiosConfig (withBody None req).
Proof.
  intros H. unfold toFetchLines, toAxiosLines, toAxiosConfig.
  cbn [method url headers body auth withBody]. rewrite H.
  repeat split; reflexivity.
Qed.

Lemma toFetchLines_no_body_line (req : ParsedRequest) :
  truthyOpt (body req) = false ->
  Forall (fun l => startsWith (L "  body:") l = false) (toFetchLines req).
Proof.
  intros H. unfold toFetchLines. cbv zeta.
  assert (B : match body req with
              | Some b =>
                  if truthy b
                  then [bodyLine (L "  body: ") (L "JSON.stringify(")
                                 (L ")") b]
                  else []
              | None => []
              end = []).
  { destruct (body req) as [b|]; [|reflexivity].
    cbn in H. rewrite H. reflexivity. }
  rewrite B.
  repeat (apply Forall_app; split);
    repeat match goal with
           | |- context [match ?x with Some _ => _ | None => _ end] =>
               destruct x
           | |- context [if ?c then _ else _] => destruct c
           end;
    repeat (apply Forall_app; split);
    repeat (constructor; try reflexivity);
    try (apply Forall_forall; intros l Hl;
         apply in_map_iff in Hl as (kv & <- & _);
         repeat match goal with
                | |- context [if ?c then _ else _] => destruct c
                end; reflexivity).
Qed.

Lemma toAxiosConfig_no_data_line (req : ParsedRequest) :
  truthyOpt (body req) = false ->
  Forall (fun l => startsWith (L "  data:") l = false) (toAxiosConfig req).
Proof.
  intros H. unfold toAxiosConfig.
  assert (B : match body req with
              | Some b =>
                  if truthy b then [bodyLine (L "  data: ") [] [] b] else []
              | None => []
              end = []).
  { destruct (body req) as [b|]; [|reflexivity].
    cbn in H. rewrite H. reflexivity. }
  rewrite B.
  repeat (apply Forall_app; split);
    repeat match goal with
           | |- context [match ?x with Some _ => _ | None => _ end] =>
               destruct x
           | |- context [if ?c then _ else _] => destruct c
           end;
    repeat (apply Forall_app; split);
    repeat (constructor; try reflexivity);
    try (apply Forall_forall; intros l Hl;
         apply in_map_iff in Hl as (kv & <- & _); reflexivity).
Qed.

(** C6 (amended).  When the body of a record is JSON text, [toFetch] has
    the line [body: JSON.stringify(] the body [),] and [toAxios] the line
    [data: ] the body [,], the body text standing as it is; when the body
    is not JSON text and is not the empty string, both have the body
    between single quotes, every single quote in it behind a backslash;
    when the body is the empty string, both write what they write for the
    record without body, and that has no [body:] and no [data:] line. *)
Theorem C6_body_literal :
  (forall (req : ParsedRequest) (b : str),
      body req = Some b ->
      (JSON_parse b <> None ->
       In (L "  body: JSON.stringify(" ++ b ++ L "),") (toFetchLines req)
       /\ In (L "  data: " ++ b ++ L ",") (toAxiosConfig req))
      /\ (b <> [] -> JSON_parse b = None ->
          In (L "  body: '" ++ escapeQuotes b ++ L "',") (toFetchLines req)
          /\ In (L "  data: '" ++ escapeQuotes b ++ L "',")
                (toAxiosConfig req))
      /\ toFetch req = join [NL] (toFetchLines req)
      /\ (b <> [] ->
          toAxios req =
          join [NL]
            [L "import axios from 'axios';"; [];
             L "const { data } = await axios({";
             join [NL] (toAxiosConfig req); L "});"; [];
             L "console.log(data);"]))
  /\ toFetchLines (withBody (Some (jsonText "{'a':1}")) emptyRequest)
     = [L "const response = await fetch('', {"; L "  method: 'GET',";
        L "  body: JSON.stringify(" ++ jsonText "{'a':1}" ++ L "),";
        L "});"; [];
        L "const data = await response.json();"; L "console.log(data);"]
  /\ toAxiosConfig (withBody (Some (jsonText "{'a':1}")) emptyRequest)
     = [L "  method: 'get',"; L "  url: '',";
        L "  data: " ++ jsonText "{'a':1}" ++ L ","]
  /\ toFetchLines (withBody (Some (L "notjson")) emptyRequest)
     = [L "const response = await fetch('', {"; L "  method: 'GET',";
        L "  body: 'notjson',"; L "});"; [];
        L "const data = await response.json();"; L "console.log(data);"]
  /\ toAxiosConfig (withBody (Some (L "it's not")) emptyRequest)
     = [L "  method: 'get',"; L "  url: '',"; L "  data: 'it\'s not',"]
  /\ (forall req : ParsedRequest,
        body req = Some [] ->
        toFetch req = toFetch (withBody None req)
        /\ toAxios req = toAxios (withBody None req)
        /\ Forall (fun l => startsWith (L "  body:") l = false)
                  (toFetchLines req)
        /\ Forall (fun l => startsWith (L "  data:") l = false)
                  (toAxiosConfig req)).
Proof.
  split.
  { intros req b Hb. split; [|split; [|split]].
    - intros Hj. pose proof (JSON_parse_nonempty b Hj) as Hne.
      pose proof (toFetchLines_body req b Hb Hne) as F.
      pose proof (toAxiosConfig_body req b Hb Hne) as A.
      rewrite bodyLine_json in F, A by exact Hj.
      split; [exact F | exact A].
    - intros Hne Hj.
      pose proof (toFetchLines_body req b Hb Hne) as F.
      pose proof (toAxiosConfig_body req b Hb Hne) as A.
      rewrite bodyLine_text in F, A by exact Hj.
      split; [exact F | exact A].
    - reflexivity.
    - intros Hne. unfold toAxios. rewrite (toAxiosLines_config req b Hb Hne).
      reflexivity. }
  split; [vm_compute; reflexivity|].
  split; [vm_compute; reflexivity|].
  split; [vm_compute; reflexivity|].
  split; [vm_compute; reflexivity|].
  intros req Hb.
  destruct (empty_body_as_none req Hb) as (F & A & _).
  assert (Ht : truthyOpt (body req) = false) by (rewrite Hb; reflexivity).
  split; [unfold toFetch; rewrite F; reflexivity|].
  split; [unfold toAxios; rewrite A; reflexivity|].
  split; [apply toFetchLines_no_body_line | apply toAxiosConfig_no_data_line];
    exact Ht.
Qed.

Lemma C6_body_literal_witness :
  In (L "  body: JSON.stringify([1, 2]),")
     (toFetchLines (withBody (Some (L "[1, 2]")) emptyRequest))
  /\ In (L "  data: 'a=b',")
        (toAxiosConfig (withBody (Some (L "a=b")) emptyRequest)).
Proof.
  split.
  - refine (proj1 (proj1 (proj1 C6_body_literal
                            (withBody (Some (L "[1, 2]")) emptyRequest)
                            (L "[1, 2]") eq_refl) _)).
    vm_compute; discriminate.
  - refine (proj2 (proj1 (proj2 (proj1 C6_body_literal
                                   (withBody (Some (L "a=b")) emptyRequest)
                                   (L "a=b") eq_refl)) _ _)).
    + discriminate.
    + vm_compute; reflexivity.
Defined.

(** C6 as stated fails for the empty body: it is not JSON text, and both
    generators treat it as no body at all.  [parseFetchCode] produces such
    a record. *)
Lemma C6_body_literal_counterexample :
  let req := withBody (Some []) (withUrl (L "http://x") emptyRequest) in
  parseFetchCode (L "fetch('http://x', { body: JSON.stringify( ) })") = Ok req
  /\ body req = Some []
  /\ JSON_parse [] = None
  /\ toFetchLines req
     = [L "const response = await fetch('http://x');"; [];
        L "const data = await response.json();"; L "console.log(data);"]
  /\ ~ In (L "  body: '" ++ escapeQuotes [] ++ L "',") (toFetchLines req)
  /\ toAxiosLines req
     = [L "import axios from 'axios';"; [];
        L "const { data } = await axios.get('http://x');";
        L "console.log(data);"]
  /\ includes (L "body") (toFetch req) = false
  /\ includes (L "data:") (toAxios req) = false.
Proof.
  cbv zeta. repeat split; try (vm_compute; reflexivity).
  vm_compute. intros H; repeat destruct H as [H|H]; try discriminate H;
    exact H.
Qed.

(** ** The method of a record *)

Lemma importer_method_nonempty (c : Postman.Collection) (r : ParsedRequest) :
  In r (Postman.importCollection c) -> method r <> [].
Proof.
  unfold Postman.importCollection.
  intros H. apply in_flat_map in H as (i & _ & H).
  destruct (Postman.request i) as [req|]; [|contradiction].
  destruct H as [<-|[]]. cbn.
  unfold Postman.orElse.
  destruct (Postman.req_method req) as [m|]; [|discriminate].
  destruct m; cbn; discriminate.
Qed.

Lemma parseCurl_validMethod (input : str) :
  validMethod (method (parseCurl input)).
Proof.
  unfold parseCurl. rewrite curlLoop_uses.
  apply fold_validMethod. split; [discriminate | reflexivity].
Qed.

Lemma parsePostmanCollection_typed (json : str) (l : list ParsedRequest) :
  parsePostmanCollection json = Returns l ->
  l = [] \/ exists c, l = Postman.importCollection c.
Proof.
  unfold parsePostmanCollection.
  destruct (JSON_parse json) as [[| | | | |ms]|]; try discriminate;
    try (intros H; injection H as <-; left; reflexivity).
  destruct (Postman.optArr Postman.asItem (Postman.field "item" ms));
    [|discriminate].
  intros H; injection H as <-; right; eexists; reflexivity.
Qed.

(** C1.  The method that [parseCurl], [parseFetchCode] and
    [parseAxiosCode] put into the record is never empty and is upper case;
    the method of a record of [parsePostmanCollection] is never empty, but
    it is the method of the collection as it is written: a request whose
    method is [get] gives a record with method [get]. *)
Theorem C1_method_nonempty_uppercase :
  (forall input : str, validMethod (method (parseCurl input)))
  /\ (forall (code : str) (r : ParsedRequest),
        parseFetchCode code = Ok r -> validMethod (method r))
  /\ (forall (code : str) (r : ParsedRequest),
        parseAxiosCode code = Ok r -> validMethod (method r))
  /\ (forall (json : str) (l : list ParsedRequest) (r : ParsedRequest),
        parsePostmanCollection json = Returns l -> In r l ->
        method r <> [])
  /\ parsePostmanCollection
       (jsonText "{'item':[{'name':'r','request':{'method':'get','url':'http://x'}}]}")
     = Returns [ {| method := L "get"; url := L "http://x"; headers := [];
                    body := None; contentType := None; auth := None;
                    followRedirects := true; insecure := false |} ]
  /\ toUpperCase (L "get") <> L "get"
  /\ ~ validMethod (L "get").
Proof.
  split; [exact parseCurl_validMethod|].
  split.
  { intros code r E. destruct (parseFetchCode_ok code) as (r' & E' & V & _).
    congruence. }
  split.
  { intros code r E. destruct (parseAxiosCode_ok code) as (r' & E' & V & _).
    congruence. }
  split.
  { intros json l r E Hin.
    destruct (parsePostmanCollection_typed json l E) as [->|[c ->]];
      [contradiction|].
    eapply importer_method_nonempty; exact Hin. }
  split; [vm_compute; reflexivity|].
  split; [discriminate|].
  intros [_ H]; discriminate H.
Qed.

Lemma C1_method_nonempty_uppercase_witness :
  validMethod (method (parseCurl (L "curl -X patch http://x")))
  /\ validMethod (L "POST")
  /\ validMethod (L "DELETE").
Proof.
  split; [|split].
  - apply (proj1 C1_method_nonempty_uppercase).
  - apply (proj1 (proj2 C1_method_nonempty_uppercase)
             (L "fetch('http://x', { method: 'post' })")
             (withMethod (L "POST") (withUrl (L "http://x") emptyRequest))).
    reflexivity.
  - apply (proj1 (proj2 (proj2 C1_method_nonempty_uppercase))
             (L "axios({ url: '/a', method: 'delete' })")
             (withMethod (L "DELETE") (withUrl (L "/a") emptyRequest))).
    reflexivity.
Defined.

(** ** Further properties of the tokenizer *)

Lemma tokStep_tokens_nonempty (st : TokState) (ch : ascii) :
  Forall (fun t => t <> []) (tokens st) ->
  Forall (fun t => t <> []) (tokens (tokStep st ch)).
Proof.
  intros H. unfold tokStep.
  repeat match goal with
         | |- context [if ?c then _ else _] => destruct c eqn:?
         end; cbn [tokens]; auto.
  apply Forall_app; split; [exact H|].
  constructor; [|constructor]. apply truthy_nonempty; assumption.
Qed.

Lemma tokLoop_tokens_nonempty (input : str) : forall st,
  Forall (fun t => t <> []) (tokens st) ->
  Forall (fun t => t <> []) (tokens (tokLoop input st)).
Proof.
  induction input as [|c input IH]; intros st H; [exact H|].
  rewrite tokLoop_cons. apply IH, tokStep_tokens_nonempty, H.
Qed.

(** X1.  No token of [tokenize] is the empty string. *)
Theorem X1_tokenize_no_empty_token (input : str) :
  Forall (fun t => t <> []) (tokenize input).
Proof.
  unfold tokenize, tokFlush.
  pose proof (tokLoop_tokens_nonempty input tokInit (Forall_nil _)) as H.
  destruct (truthy (current (tokLoop input tokInit))) eqn:E; [|exact H].
  apply Forall_app; split; [exact H|].
  constructor; [|constructor]. apply truthy_nonempty; exact E.
Qed.

Lemma tokStep_frame (ts : list str) (st : TokState) (ch : ascii) :
  tokStep (withTokensBefore ts st) ch = withTokensBefore ts (tokStep st ch).
Proof.
  destruct st as [tk cur s d e].
  unfold tokStep, withTokensBefore; cbn [tokens current inSingle inDouble escaped].
  repeat match goal with
         | |- context [if ?c then _ else _] => destruct c eqn:?
         end; cbn; rewrite ?app_assoc; reflexivity.
Qed.

Lemma tokLoop_frame (ts : list str) (input : str) : forall st,
  tokLoop input (withTokensBefore ts st)
  = withTokensBefore ts (tokLoop input st).
Proof.
  induction input as [|c input IH]; intros st; [reflexivity|].
  rewrite !tokLoop_cons, tokStep_frame, IH; reflexivity.
Qed.

Lemma tokFlush_frame (ts : list str) (st : TokState) :
  tokFlush (withTokensBefore ts st) = ts ++ tokFlush st.
Proof.
  unfold tokFlush, withTokensBefore; cbn.
  destruct (truthy (current st)); rewrite ?app_assoc; reflexivity.
Qed.

(** X2.  Where the first part of a command leaves no quote open and no
    escape pending, a space splits the command: the tokens of the whole
    are the tokens of the part before the space followed by the tokens of
    the part after it. *)
Theorem X2_tokenize_splits_at_space (a b : str) :
  closedState (tokLoop a tokInit) = true ->
  tokenize (a ++ SP :: b) = tokenize a ++ tokenize b.
Proof.
  intros H. unfold closedState in H.
  apply andb_true_iff in H as [H He].
  apply andb_true_iff in H as [Hs Hd].
  apply negb_true_iff in Hs, Hd, He.
  unfold tokenize. rewrite tokLoop_app, tokLoop_cons.
  set (st := tokLoop a tokInit) in *.
  assert (E : tokStep st SP = withTokensBefore (tokFlush st) tokInit).
  { unfold tokStep, tokFlush, withTokensBefore. rewrite He, Hs, Hd. cbn.
    destruct st as [ts cur s d e]; cbn in *; subst.
    destruct cur; cbn; rewrite ?app_nil_r; reflexivity. }
  rewrite E, tokLoop_frame, tokFlush_frame. reflexivity.
Qed.

Lemma X2_tokenize_splits_at_space_witness :
  tokenize (L "-H 'a: b'" ++ SP :: L "http://x")
  = tokenize (L "-H 'a: b'") ++ tokenize (L "http://x").
Proof. apply X2_tokenize_splits_at_space; reflexivity. Defined.

Lemma tokLoop_plain (s : str) : forall st,
  closedState st = true ->
  forallb (fun c => negb (isShellSpecial c)) s = true ->
  tokFlush (tokLoop s st)
  = tokens st ++ filter truthy (split_go SP (rev (current st)) s).
Proof.
  induction s as [|c s IH]; intros st Hc Hp.
  - cbn. rewrite rev_involutive. unfold tokFlush.
    destruct (truthy (current st)); rewrite ?app_nil_r; reflexivity.
  - cbn [forallb] in Hp. apply andb_true_iff in Hp as [Hc1 Hp].
    unfold isShellSpecial in Hc1. apply negb_true_iff in Hc1.
    apply orb_false_iff in Hc1 as [Hc1 Hb].
    apply orb_false_iff in Hc1 as [Hq Hdq].
    unfold closedState in Hc.
    apply andb_true_iff in Hc as [Hc He].
    apply andb_true_iff in Hc as [Hs Hd].
    apply negb_true_iff in Hs, Hd, He.
    rewrite tokLoop_cons. cbn [split_go].
    unfold tokStep. rewrite He, Hs, Hd, Hq, Hdq, Hb. cbn.
    destruct (Ascii.eqb_spec c SP) as [->|Hsp].
    + destruct (truthy (current st)) eqn:Ht.
      * rewrite IH;
          [| unfold closedState; cbn; rewrite ?Hs, ?Hd, ?He; reflexivity | exact Hp].
        cbn. rewrite rev_involutive, Ht, <- app_assoc. reflexivity.
      * rewrite IH;
          [| unfold closedState; cbn; rewrite ?Hs, ?Hd, ?He; reflexivity | exact Hp].
        destruct (current st) eqn:Ec; [|discriminate].
        cbn. rewrite Ec. reflexivity.
    + rewrite IH;
        [| unfold closedState; cbn; rewrite ?Hs, ?Hd, ?He; reflexivity | exact Hp].
      cbn. rewrite rev_app_distr. reflexivity.
Qed.

(** X3.  On a command with no quote and no backslash [tokenize] is
    [split(' ')] with the empty pieces dropped. *)
Theorem X3_tokenize_plain (input : str) :
  forallb (fun c => negb (isShellSpecial c)) input = true ->
  tokenize input = filter truthy (split SP input).
Proof.
  intros H. unfold tokenize, split.
  rewrite tokLoop_plain by (auto; reflexivity). reflexivity.
Qed.

Lemma X3_tokenize_plain_witness :
  tokenize (L " curl  -k http://x ") = [L "curl"; L "-k"; L "http://x"].
Proof. apply (X3_tokenize_plain (L " curl  -k http://x ")); reflexivity. Defined.

(** ** Further properties of the cURL parser *)

(** The state in which the token loop ends. *)
Lemma parseCurl_fold (input : str) :
  parseCurl input
  = result (fold_left applyUse
              (flagUses (tokenize (stripCurl (normalize input)))) curlInit).
Proof. unfold parseCurl; rewrite curlLoop_uses; reflexivity. Qed.

(** A property that holds at the start of the loop and that every
    iteration keeps holds at its end. *)
Lemma fold_applyUse_inv (P : CurlState -> Prop) :
  (forall t next st, P st -> P (fst (curlStep t next st))) ->
  forall us st, P st -> P (fold_left applyUse us st).
Proof.
  intros Hstep us; induction us as [|u us IH]; intros st H; [exact H|].
  cbn [fold_left]. apply IH. apply Hstep, H.
Qed.

Lemma curlStep_url (t : str) (next : option str) (st : CurlState) :
  url (result (fst (curlStep t next st)))
  = if urlShaped t then t else url (result st).
Proof.
  unfold curlStep, isOneOf, urlShaped, defaultPost. cbn [existsb].
  flag_cases t; cbn; break_ifs; cbn; try reflexivity; discriminate.
Qed.

Lemma lastOpt_cons {A} (x : A) (l : list A) :
  lastOpt (x :: l)
  = match lastOpt l with Some y => Some y | None => Some x end.
Proof.
  destruct l as [|y l]; [reflexivity|].
  change (x :: y :: l) with ([x] ++ y :: l).
  rewrite lastOpt_app by discriminate.
  destruct (lastOpt (y :: l)) eqn:E; [reflexivity|].
  unfold lastOpt in E. cbn in E.
  assert (F : forall (l0 : list A) (a : A),
             fold_left (fun (_ : option A) z => Some z) l0 (Some a) <> None).
  { induction l0; cbn; intros; [discriminate | apply IHl0]. }
  exfalso; exact (F _ _ E).
Qed.

Lemma fold_url (us : list (str * option str)) : forall st,
  url (result (fold_left applyUse us st))
  = match lastOpt (filter urlShaped (map fst us)) with
    | Some u => u
    | None => url (result st)
    end.
Proof.
  induction us as [|u us IH]; intros st; [reflexivity|].
  cbn [fold_left map filter]. rewrite IH.
  unfold applyUse. rewrite curlStep_url.
  destruct (urlShaped (fst u)) eqn:E.
  - rewrite lastOpt_cons.
    destruct (lastOpt (filter urlShaped (map fst us))); reflexivity.
  - reflexivity.
Qed.

(** X4.  The URL of [parseCurl] is the last of the tokens in flag position
    that do not start with a dash and start with [http] or a slash, and
    the empty string when there is none; so it is empty or of that
    shape. *)
Theorem X4_parseCurl_last_url_wins (input : str) :
  url (parseCurl input)
  = match lastOpt (filter urlShaped
                     (flagTokens (tokenize (stripCurl (normalize input)))))
    with
    | Some u => u
    | None => []
    end
  /\ (url (parseCurl input) = [] \/ urlShaped (url (parseCurl input)) = true).
Proof.
  assert (E : url (parseCurl input)
              = match lastOpt (filter urlShaped
                     (flagTokens (tokenize (stripCurl (normalize input)))))
                with
                | Some u => u
                | None => []
                end).
  { rewrite parseCurl_fold, fold_url. reflexivity. }
  split; [exact E|].
  rewrite E.
  set (l := flagTokens (tokenize (stripCurl (normalize input)))).
  assert (H : forall u, lastOpt (filter urlShaped l) = Some u ->
                        urlShaped u = true).
  { intros u Hu.
    assert (In u (filter urlShaped l)).
    { generalize dependent u. generalize (filter urlShaped l) as f.
      induction f as [|x f IHf]; intros u Hu; [discriminate|].
      rewrite lastOpt_cons in Hu.
      destruct (lastOpt f) eqn:F.
      - injection Hu as <-. right; apply IHf; reflexivity.
      - injection Hu as <-. left; reflexivity. }
    apply filter_In in H as [_ H]; exact H. }
  destruct (lastOpt (filter urlShaped l)); [right; auto | left; reflexivity].
Qed.

Lemma curlStep_followRedirects (t : str) (next : option str)
      (st : CurlState) :
  followRedirects (result st) = true ->
  followRedirects (result (fst (curlStep t next st))) = true.
Proof.
  unfold curlStep, isOneOf, defaultPost. cbn [existsb].
  flag_cases t; cbn; break_ifs; cbn; auto.
Qed.

Lemma curlStep_insecure (t : str) (next : option str) (st : CurlState) :
  insecure (result (fst (curlStep t next st)))
  = insecure (result st) || isOneOf t [L "-k"; L "--insecure"].
Proof.
  unfold curlStep, isOneOf, defaultPost. cbn [existsb].
  flag_cases t; cbn; break_ifs; cbn; rewrite ?orb_false_r, ?orb_true_r;
    reflexivity.
Qed.

Lemma fold_insecure (us : list (str * option str)) : forall st,
  insecure (result (fold_left applyUse us st))
  = insecure (result st)
    || existsb (fun t => isOneOf t [L "-k"; L "--insecure"]) (map fst us).
Proof.
  induction us as [|u us IH]; intros st; cbn [fold_left map existsb].
  - rewrite orb_false_r; reflexivity.
  - rewrite IH. unfold applyUse. rewrite curlStep_insecure.
    rewrite orb_assoc. reflexivity.
Qed.

(** X5.  [parseCurl] never turns [followRedirects] off, with or without
    the location flag, and [insecure] is set exactly when the insecure
    flag stands in flag position somewhere in the command. *)
Theorem X5_parseCurl_boolean_flags (input : str) :
  followRedirects (parseCurl input) = true
  /\ insecure (parseCurl input)
     = existsb (fun t => isOneOf t [L "-k"; L "--insecure"])
         (flagTokens (tokenize (stripCurl (normalize input)))).
Proof.
  split.
  - rewrite parseCurl_fold.
    apply (fold_applyUse_inv
             (fun st => followRedirects (result st) = true)).
    + intros t next st; apply curlStep_followRedirects.
    + reflexivity.
  - rewrite parseCurl_fold, fold_insecure. reflexivity.
Qed.

Lemma curlStep_body (t : str) (next : option str) (st : CurlState) :
  notEmptyString (body (result st)) ->
  notEmptyString (body (result (fst (curlStep t next st)))).
Proof.
  unfold curlStep, isOneOf, defaultPost. cbn [existsb].
  intros H.
  flag_cases t; cbn; break_ifs; cbn; auto;
    try (apply truthy_nonempty; assumption);
    try (intros E'; apply app_eq_nil in E' as [_ E']; discriminate E').
Qed.



Lemma getHeader_setHeader_same (k v : str) (h : list (str * str)) :
  getHeader k (setHeader k v h) = Some v.
Proof.
  induction h as [|[k' v'] h IH]; cbn.
  - rewrite eqb_str_refl; reflexivity.
  - destruct (eqb_str k' k) eqn:E; cbn.
    + rewrite eqb_str_refl; reflexivity.
    + rewrite E; exact IH.
Qed.

Lemma getHeader_setHeader_other (k k' v : str) (h : list (str * str)) :
  k' <> k -> getHeader k' (setHeader k v h) = getHeader k' h.
Proof.
  intros Hne. induction h as [|[k2 v2] h IH]; cbn.
  - destruct (eqb_str k k') eqn:E; [|reflexivity].
    apply eqb_str_eq in E; congruence.
  - destruct (eqb_str k2 k) eqn:E; cbn.
    + apply eqb_str_eq in E; subst k2.
      destruct (eqb_str k k') eqn:E'; [|reflexivity].
      apply eqb_str_eq in E'; congruence.
    + rewrite IH; reflexivity.
Qed.



Lemma curlStep_contentType (t : str) (next : option str) (st : CurlState) :
  contentTypeCached (result st) ->
  contentTypeCached (result (fst (curlStep t next st))).
Proof.
  unfold curlStep, isOneOf, defaultPost, contentTypeCached.
  cbn [existsb].
  intros H.
  flag_cases t; cbn; break_ifs; cbn; auto; intros v Hv;
    first
      [ injection Hv as <-; eexists; split;
        [| apply getHeader_setHeader_same ];
        first [ apply eqb_str_eq; eassumption | reflexivity ]
      | destruct (H v Hv) as (k & Hk & Hg); exists k; split; [exact Hk|];
        rewrite getHeader_setHeader_other; [exact Hg|];
        intros ->;
        first [ match goal with
                | E : eqb_str (toLowerCase _) _ = false |- _ =>
                    rewrite Hk in E; discriminate E
                end
              | discriminate Hk ] ].
Qed.

(** X6.  A body that [parseCurl] finds is never the empty string, so both
    code generators print it: [toFetch] and [toAxios] have its line. *)
Theorem X6_parseCurl_body_is_printed (input b : str) :
  body (parseCurl input) = Some b ->
  b <> []
  /\ In (bodyLine (L "  body: ") (L "JSON.stringify(") (L ")") b)
        (toFetchLines (parseCurl input))
  /\ In (bodyLine (L "  data: ") [] [] b) (toAxiosConfig (parseCurl input)).
Proof.
  intros Hb.
  assert (Hne : b <> []).
  { assert (H : notEmptyString (body (parseCurl input))).
    { rewrite parseCurl_fold.
      apply (fold_applyUse_inv
               (fun st => notEmptyString (body (result st)))).
      - intros t next st; apply curlStep_body.
      - exact I. }
    rewrite Hb in H; exact H. }
  split; [exact Hne|].
  split; [apply toFetchLines_body | apply toAxiosConfig_body]; assumption.
Qed.

Lemma X6_parseCurl_body_is_printed_witness :
  In (L "  body: 'a=1',")
     (toFetchLines (parseCurl (L "curl http://x --data a=1"))).
Proof.
  apply (proj1 (proj2 (X6_parseCurl_body_is_printed
                         (L "curl http://x --data a=1") (L "a=1") eq_refl))).
Defined.

(** X7.  Whenever [parseCurl] sets [contentType], the headers hold the
    same value under a name that is [content-type] up to case. *)
Theorem X7_parseCurl_contentType_cached (input v : str) :
  contentType (parseCurl input) = Some v ->
  exists k, toLowerCase k = L "content-type"
            /\ getHeader k (headers (parseCurl input)) = Some v.
Proof.
  revert v. change (contentTypeCached (parseCurl input)).
  rewrite parseCurl_fold.
  apply (fold_applyUse_inv (fun st => contentTypeCached (result st))).
  - intros t next st; apply curlStep_contentType.
  - intros v Hv; discriminate Hv.
Qed.

Lemma X7_parseCurl_contentType_cached_witness :
  exists k, toLowerCase k = L "content-type"
            /\ getHeader k
                 (headers (parseCurl
                    (L "curl -H 'CONTENT-type: text/plain' http://x")))
               = Some (L "text/plain").
Proof.
  apply (X7_parseCurl_contentType_cached
           (L "curl -H 'CONTENT-type: text/plain' http://x")
           (L "text/plain")).
  reflexivity.
Defined.

Lemma curlStep_body_effect (t : str) (next : option str) (st : CurlState) :
  body (result (fst (curlStep t next st)))
  = match next with
    | Some n =>
        if truthy n then
          if isOneOf t dataFlags then Some n
          else if isOneOf t [L "--data-urlencode"]
               then ampersand (body (result st)) n
               else body (result st)
        else body (result st)
    | None => body (result st)
    end.
Proof.
  unfold curlStep, isOneOf, dataFlags, defaultPost, ampersand.
  cbn [existsb].
  destruct next as [n|]; [destruct (truthy n) eqn:Hn|];
    flag_cases t; cbn; rewrite ?Hn; cbn; break_ifs; cbn; try reflexivity;
    congruence.
Qed.

Lemma fold_urlencode (us : list (str * option str)) : forall st,
  flat_map (useArg dataFlags) us = [] ->
  body (result (fold_left applyUse us st))
  = fold_left ampersand (flat_map (useArg [L "--data-urlencode"]) us)
      (body (result st)).
Proof.
  induction us as [|[t next] us IH]; intros st Hno; [reflexivity|].
  cbn [fold_left flat_map] in *. apply app_eq_nil in Hno as [Hu Hus].
  rewrite fold_left_app, IH by exact Hus. f_equal.
  unfold applyUse; cbn [fst snd]. rewrite curlStep_body_effect.
  unfold useArg in *; cbn [fst snd] in *.
  destruct next as [n|]; [|reflexivity].
  destruct (truthy n); rewrite ?andb_false_r, ?andb_true_r in *;
    [|reflexivity].
  destruct (isOneOf t dataFlags); [discriminate Hu|].
  destruct (isOneOf t [L "--data-urlencode"]); reflexivity.
Qed.

Lemma join_cons2 (sep x y : str) (l : list str) :
  join sep (x :: y :: l) = x ++ sep ++ join sep (y :: l).
Proof. reflexivity. Qed.

Lemma fold_ampersand_join (l : list str) : forall x,
  x <> [] ->
  fold_left ampersand l (Some x) = Some (join (L "&") (x :: l)).
Proof.
  induction l as [|a l IH]; intros x Hx; [reflexivity|].
  cbn [fold_left]. unfold ampersand at 2.
  apply truthy_nonempty in Hx as Ht. rewrite Ht.
  rewrite IH by (destruct x; [congruence | discriminate]).
  f_equal. destruct l as [|b l].
  - reflexivity.
  - rewrite !join_cons2. rewrite <- !app_assoc. reflexivity.
Qed.

Lemma useArg_nonempty (flags : list str) (us : list (str * option str)) :
  Forall (fun n => n <> []) (flat_map (useArg flags) us).
Proof.
  induction us as [|[t next] us IH]; cbn; [constructor|].
  apply Forall_app; split; [|exact IH].
  unfold useArg; cbn. destruct next as [n|]; [|constructor].
  destruct (isOneOf t flags); cbn; [|constructor].
  destruct (truthy n) eqn:E; constructor; [|constructor].
  apply truthy_nonempty; exact E.
Qed.

(** X8.  In a command with no plain data flag the body is the arguments of
    the url-encode flags joined with ampersands, and there is no body when
    there is no such flag. *)
Theorem X8_parseCurl_urlencode_joins (input : str) :
  let toks := tokenize (stripCurl (normalize input)) in
  dataArgs toks = [] ->
  body (parseCurl input)
  = match argsOf [L "--data-urlencode"] toks with
    | [] => None
    | l => Some (join (L "&") l)
    end.
Proof.
  intros toks Hno. rewrite parseCurl_fold. fold toks.
  rewrite fold_urlencode by exact Hno.
  unfold argsOf.
  pose proof (useArg_nonempty [L "--data-urlencode"] (flagUses toks)) as F.
  destruct (flat_map (useArg [L "--data-urlencode"]) (flagUses toks))
    as [|a l]; [reflexivity|].
  inversion F as [|? ? Ha _]; subst.
  cbn [fold_left]. unfold ampersand at 2. cbn [body curlInit result emptyRequest].
  apply fold_ampersand_join; exact Ha.
Qed.

Lemma X8_parseCurl_urlencode_joins_witness :
  body (parseCurl
          (L "curl http://x --data-urlencode a=1 -k --data-urlencode 'b=2 3'"))
  = Some (L "a=1&b=2 3").
Proof.
  apply (X8_parseCurl_urlencode_joins
           (L "curl http://x --data-urlencode a=1 -k --data-urlencode 'b=2 3'")).
  reflexivity.
Defined.

(** ** The headers of a record *)










(** ** Further properties of the format detector *)

Lemma trimStart_app_nonspace (l m : str) (c : ascii) :
  isSpace c = false -> trimStart (l ++ c :: m) = trimStart l ++ c :: m.
Proof.
  intros Hc. induction l as [|x l IH]; cbn.
  - rewrite Hc; reflexivity.
  - destruct (isSpace x); [exact IH | reflexivity].
Qed.

Lemma trimStart_spaces (a s : str) :
  forallb isSpace a = true -> trimStart (a ++ s) = trimStart s.
Proof.
  induction a as [|x a IH]; cbn; intros H; [reflexivity|].
  apply andb_true_iff in H as [Hx Ha]. rewrite Hx. exact (IH Ha).
Qed.

Lemma trimStart_all_spaces (a : str) :
  forallb isSpace a = true -> trimStart a = [].
Proof.
  intros H. rewrite <- (app_nil_r a), trimStart_spaces by exact H.
  reflexivity.
Qed.

Lemma trimEnd_app_nonspace (x y : str) (c : ascii) :
  isSpace c = false -> trimEnd (x ++ c :: y) = x ++ c :: trimEnd y.
Proof.
  intros Hc. unfold trimEnd.
  rewrite rev_app_distr. cbn [rev]. rewrite <- app_assoc. cbn [app].
  rewrite trimStart_app_nonspace by exact Hc.
  rewrite rev_app_distr. cbn [rev]. rewrite rev_involutive.
  rewrite <- app_assoc. reflexivity.
Qed.

Lemma trimEnd_spaces (s b : str) :
  forallb isSpace b = true -> trimEnd (s ++ b) = trimEnd s.
Proof.
  intros H. unfold trimEnd. rewrite rev_app_distr.
  rewrite trimStart_spaces; [reflexivity|].
  rewrite forallb_forall in *. intros x Hx. apply H.
  apply in_rev; exact Hx.
Qed.

Lemma trimStart_head (s : str) :
  trimStart s = []
  \/ exists c t, trimStart s = c :: t /\ isSpace c = false.
Proof.
  induction s as [|x s IH]; cbn; [left; reflexivity|].
  destruct (isSpace x) eqn:E; [exact IH|].
  right; exists x, s; auto.
Qed.

Lemma trim_padding (a s b : str) :
  forallb isSpace a = true -> forallb isSpace b = true ->
  trim (a ++ s ++ b) = trim s.
Proof.
  intros Ha Hb. unfold trim. rewrite trimStart_spaces by exact Ha.
  destruct (trimStart_head s) as [E|(c & t & E & Hc)].
  - assert (Hs : forallb isSpace s = true).
    { clear -E. induction s as [|x s IH]; cbn in *; [reflexivity|].
      destruct (isSpace x); [auto | discriminate]. }
    rewrite E. rewrite trimStart_all_spaces; [reflexivity|].
    rewrite forallb_app, Hs, Hb; reflexivity.
  - assert (Es : exists p, s = p ++ c :: t /\ forallb isSpace p = true).
    { clear -E. induction s as [|x s IH]; cbn in *; [discriminate|].
      destruct (isSpace x) eqn:Hx.
      - destruct (IH E) as (p & -> & Hp). exists (x :: p); cbn.
        rewrite Hx, Hp; auto.
      - exists []; cbn; rewrite E; auto. }
    destruct Es as (p & -> & Hp).
    rewrite <- app_assoc. rewrite trimStart_spaces by exact Hp.
    cbn [app trimStart]. rewrite Hc.
    rewrite E.
    change (c :: t ++ b) with ((c :: t) ++ b).
    apply trimEnd_spaces; exact Hb.
Qed.

(** X10.  [detectType] ignores white space around its input. *)
Theorem X10_detectType_ignores_padding (a s b : str) :
  forallb isSpace a = true -> forallb isSpace b = true ->
  detectType (a ++ s ++ b) = detectType s.
Proof.
  intros Ha Hb. unfold detectType.
  rewrite trim_padding by assumption. reflexivity.
Qed.

Lemma X10_detectType_ignores_padding_witness :
  detectType ([NL; SP] ++ L "curl http://x" ++ [SP; NL])
  = detectType (L "curl http://x").
Proof. apply X10_detectType_ignores_padding; reflexivity. Defined.

Lemma join_snoc (sep : str) (l : list str) (x : str) :
  l <> [] -> join sep (l ++ [x]) = join sep l ++ sep ++ x.
Proof.
  induction l as [|a l IH]; [congruence|]; intros _.
  destruct l as [|b l]; [reflexivity|].
  change ((a :: b :: l) ++ [x]) with (a :: (b :: l) ++ [x]).
  change (join sep (a :: (b :: l) ++ [x]))
    with (a ++ sep ++ join sep ((b :: l) ++ [x])).
  rewrite IH by discriminate. rewrite join_cons2.
  rewrite <- !app_assoc. reflexivity.
Qed.

(** A text that starts and ends with a character that is not white space
    is its own [trim]. *)
Lemma trim_own (s t z : str) (c x : ascii) :
  s = c :: t -> s = z ++ [x] -> isSpace c = false -> isSpace x = false ->
  trim s = s.
Proof.
  intros E1 E2 Hc Hx. destruct z as [|c' m].
  - cbn in E2. rewrite E2. unfold trim, trimEnd; cbn. rewrite Hx; cbn.
    rewrite Hx; reflexivity.
  - rewrite E2 in E1. injection E1 as -> _. rewrite E2.
    apply trim_fixed; assumption.
Qed.

Lemma JSON_parse_not_json (c : ascii) (s : str) :
  c = "c"%char \/ c = "i"%char -> JSON_parse (c :: s) = None.
Proof.
  intros H. unfold JSON_parse.
  replace (2 * List.length (c :: s) + 2)
    with (S (2 * List.length (c :: s) + 1)) by lia.
  destruct H as [->| ->]; reflexivity.
Qed.

Lemma toCurl_starts (r : ParsedRequest) :
  exists y, toCurl r = L "curl " ++ BS :: y.
Proof.
  unfold toCurl, toCurlParts.
  destruct (eqb_str (method r) (L "GET")); cbn [app];
    rewrite join_cons2; eexists; reflexivity.
Qed.

(** X11.  What [toCurl] writes is detected as a cURL command. *)
Theorem X11_toCurl_is_detected (r : ParsedRequest) :
  detectType (toCurl r) = curl.
Proof.
  destruct (toCurl_starts r) as [y E].
  assert (T : trim (L "curl " ++ BS :: y) = L "curl " ++ BS :: trimEnd y).
  { unfold trim.
    change (trimStart (L "curl " ++ BS :: y)) with (L "curl " ++ BS :: y).
    apply trimEnd_app_nonspace; reflexivity. }
  unfold detectType. rewrite E, T. reflexivity.
Qed.

Lemma cons_app_snoc {A} (f : A) (R T : list A) (c : A) :
  (f :: R) ++ (T ++ [c]) = f :: (R ++ T) ++ [c].
Proof. cbn. rewrite app_assoc. reflexivity. Qed.

Lemma cons2_app_snoc {A} (f m : A) (R T : list A) (c : A) :
  ([f; m] ++ R) ++ (T ++ [c]) = f :: ((m :: R) ++ T) ++ [c].
Proof. cbn. rewrite app_assoc. reflexivity. Qed.

Lemma toFetchLines_shape (r : ParsedRequest) :
  exists pre post rest,
    toFetchLines r
    = pre ++ (L "const response = await fetch('" ++ post)
            :: rest ++ [L "console.log(data);"]
    /\ (pre = []
        \/ exists a, pre = [L "const credentials = btoa('" ++ a; []]).
Proof.
  unfold toFetchLines. cbv zeta.
  change [[]; L "const data = await response.json();";
          L "console.log(data);"]
    with ([[]; L "const data = await response.json();"]
            ++ [L "console.log(data);"]).
  match goal with
  | |- context [if ?c then _ else _ ++ _ ++ _ ++ _] => destruct c
  end.
  - rewrite cons_app_snoc.
    destruct (auth r) as [a|].
    + exists [L "const credentials = btoa('" ++ user a ++ L ":" ++ pass a
                ++ L "');"; []].
      eexists (url r ++ L "');"), _. split; [reflexivity|].
      right; eexists; reflexivity.
    + exists []. eexists (url r ++ L "');"), _.
      split; [reflexivity | left; reflexivity].
  - rewrite cons2_app_snoc.
    destruct (auth r) as [a|] eqn:Ea.
    + exists [L "const credentials = btoa('" ++ user a ++ L ":" ++ pass a
                ++ L "');"; []].
      eexists (url r ++ L "', {"), _. split; [reflexivity|].
      right; eexists; reflexivity.
    + exists []. eexists (url r ++ L "', {"), _.
      split; [reflexivity | left; reflexivity].
Qed.

Lemma toFetch_shape (r : ParsedRequest) :
  exists a b z,
    toFetch r = L "co" ++ a ++ L "fetch(" ++ b
    /\ toFetch r = z ++ L ";".
Proof.
  destruct (toFetchLines_shape r) as (pre & post & rest & E & Hpre).
  unfold toFetch. rewrite E.
  assert (Z : exists z, join [NL]
                (pre ++ (L "const response = await fetch('" ++ post)
                   :: rest ++ [L "console.log(data);"]) = z ++ L ";").
  { rewrite app_comm_cons, app_assoc.
    rewrite join_snoc by (destruct pre; discriminate).
    exists (join [NL]
              (pre ++ (L "const response = await fetch('" ++ post) :: rest)
            ++ [NL] ++ L "console.log(data)").
    rewrite <- !app_assoc. reflexivity. }
  destruct Z as [z Z]. 
  assert (J : exists t, join [NL]
                ((L "const response = await fetch('" ++ post)
                   :: rest ++ [L "console.log(data);"])
              = L "const response = await fetch('" ++ post ++ NL :: t).
  { destruct rest; cbn [app]; rewrite join_cons2; rewrite <- app_assoc;
      eexists; reflexivity. }
  destruct J as [t J].
  destruct Hpre as [->|[a ->]].
  - rewrite app_nil_l in Z |- *. rewrite J.
    exists (L "nst response = await "), (L "'" ++ post ++ NL :: t), z.
    split; [reflexivity | rewrite <- Z, J; reflexivity].
  - exists (L "nst credentials = btoa('" ++ a ++ [NL] ++ [NL]
              ++ L "const response = await "),
           (L "'" ++ post ++ NL :: t), z.
    split; [|exact Z].
    cbn [app].
    rewrite !join_cons2. unfold str in *. rewrite J.
    rewrite <- !app_assoc. reflexivity.
Qed.

(** X12.  What [toFetch] writes, for any record, is detected as fetch
    code. *)
Theorem X12_toFetch_is_detected (r : ParsedRequest) :
  detectType (toFetch r) = fetch.
Proof.
  destruct (toFetch_shape r) as (a & b & z & E1 & E2).
  assert (T : trim (toFetch r) = toFetch r).
  { eapply (trim_own (toFetch r) _ z "c"%char ";"%char);
      [rewrite E1; reflexivity | exact E2 | reflexivity | reflexivity]. }
  assert (F1 : startsWith (L "curl ") (toFetch r) = false)
    by (rewrite E1; reflexivity).
  assert (F2 : startsWith (L "curl" ++ [NL]) (toFetch r) = false)
    by (rewrite E1; reflexivity).
  assert (F3 : JSON_parse (toFetch r) = None)
    by (rewrite E1; apply JSON_parse_not_json; left; reflexivity).
  assert (F4 : includes (L "fetch(") (toFetch r) = true).
  { rewrite E1, app_assoc. apply includes_app. }
  unfold detectType, postmanCheck. rewrite T, F1, F2, F3, F4. reflexivity.
Qed.

Lemma toAxiosLines_shape (r : ParsedRequest) :
  exists rest,
    toAxiosLines r
    = L "import axios from 'axios';" :: [] :: rest
        ++ [L "console.log(data);"].
Proof.
  unfold toAxiosLines.
  match goal with
  | |- context [if ?c then _ else _] => destruct c
  end.
  - exists [L "const { data } = await axios.get('" ++ url r ++ L "');"].
    reflexivity.
  - exists [L "const { data } = await axios({";
            join [NL] (toAxiosConfig r); L "});"; []].
    reflexivity.
Qed.

Lemma toAxios_shape (r : ParsedRequest) :
  exists b z,
    toAxios r = L "import axios" ++ b /\ toAxios r = z ++ L ";".
Proof.
  destruct (toAxiosLines_shape r) as (rest & E).
  unfold toAxios. rewrite E.
  exists (L " from 'axios';" ++ [NL]
            ++ join [NL] ([] :: rest ++ [L "console.log(data);"])),
         (join [NL] (L "import axios from 'axios';" :: [] :: rest)
            ++ [NL] ++ L "console.log(data)").
  split.
  - change ([] :: rest ++ [L "console.log(data);"])
      with (([] : str) :: rest ++ [L "console.log(data);"]).
    unfold str in *. rewrite join_cons2. reflexivity.
  - rewrite !app_comm_cons. unfold str in *.
    rewrite join_snoc by discriminate.
    rewrite <- !app_assoc. reflexivity.
Qed.

(** X13.  What [toAxios] writes is detected as axios code, unless the text
    holds a call of [fetch], which the detector looks for first: then it
    is detected as fetch code. *)
Theorem X13_toAxios_is_detected (r : ParsedRequest) :
  detectType (toAxios r)
  = if includes (L "fetch(") (toAxios r)
       || includes (L "fetch (") (toAxios r)
    then fetch else axios.
Proof.
  destruct (toAxios_shape r) as (b & z & E1 & E2).
  assert (T : trim (toAxios r) = toAxios r).
  { eapply (trim_own (toAxios r) _ z "i"%char ";"%char);
      [rewrite E1; reflexivity | exact E2 | reflexivity | reflexivity]. }
  assert (F1 : startsWith (L "curl ") (toAxios r) = false)
    by (rewrite E1; reflexivity).
  assert (F2 : startsWith (L "curl" ++ [NL]) (toAxios r) = false)
    by (rewrite E1; reflexivity).
  assert (F3 : JSON_parse (toAxios r) = None)
    by (rewrite E1; apply JSON_parse_not_json; right; reflexivity).
  assert (F4 : includes (L "axios") (toAxios r) = true).
  { rewrite E1.
    change (L "import axios" ++ b) with (L "import " ++ L "axios" ++ b).
    apply includes_app. }
  unfold detectType, postmanCheck. rewrite T, F1, F2, F3, F4. reflexivity.
Qed.

(** X14.  An input is detected as a collection exactly when it is not a
    cURL command and its trimmed text is a JSON object with truthy [info]
    and [item] members.  When moreover the document is of the type the
    importer declares ([item] an array of items of that type),
    [parsePostmanCollection] returns its records for the trimmed text. *)
Theorem X14_detected_collection_parses (input : str) :
  (detectType input = postman <->
   (startsWith (L "curl ") (trim input)
    || startsWith (L "curl" ++ [NL]) (trim input) = false
    /\ exists ms,
         JSON_parse (trim input) = Some (JObj ms)
         /\ truthyProp (Postman.field "info" ms) = true
         /\ truthyProp (Postman.field "item" ms) = true))
  /\ (detectType input = postman ->
      forall ms its,
        JSON_parse (trim input) = Some (JObj ms) ->
        Postman.optArr Postman.asItem (Postman.field "item" ms) = Some its ->
        exists l,
          its = Some l
          /\ parsePostmanCollection (trim input)
             = Returns (Postman.importCollection
                          {| Postman.collection_item := Some l |})).
Proof.
  assert (H : detectType input = postman ->
              startsWith (L "curl ") (trim input)
              || startsWith (L "curl" ++ [NL]) (trim input) = false
              /\ exists ms,
                   JSON_parse (trim input) = Some (JObj ms)
                   /\ truthyProp (Postman.field "info" ms) = true
                   /\ truthyProp (Postman.field "item" ms) = true).
  { unfold detectType, postmanCheck.
    destruct (startsWith (L "curl ") (trim input)
              || startsWith (L "curl" ++ [NL]) (trim input));
      [discriminate|].
    intros D. split; [reflexivity|].
    destruct (JSON_parse (trim input)) as [v|].
    - destruct v as [| | | | |ms]; cbn [getProp bind truthyProp] in D;
        try (repeat match type of D with
                    | (if ?c then _ else _) = _ => destruct c
                    end; discriminate D).
      exists ms. split; [reflexivity|].
      unfold Postman.field.
      destruct (truthyProp (lookupKey (units (L "info")) ms));
        cbn [bind] in D.
      + destruct (truthyProp (lookupKey (units (L "item")) ms));
          [auto|].
        repeat match type of D with
               | (if ?c then _ else _) = _ => destruct c
               end; discriminate D.
      + repeat match type of D with
               | (if ?c then _ else _) = _ => destruct c
               end; discriminate D.
    - repeat match type of D with
             | (if ?c then _ else _) = _ => destruct c
             end; discriminate D. }
  split; [split; [exact H|]|].
  - intros (Hc & ms & Hj & Hi & Ht).
    unfold detectType, postmanCheck, getProp. rewrite Hc, Hj.
    unfold Postman.field in Hi, Ht. cbn [bind]. rewrite Hi. cbn [bind].
    rewrite Ht. reflexivity.
  - intros D ms its Hj Ho. destruct (H D) as (_ & ms' & Hj' & _ & Ht).
    rewrite Hj in Hj'. injection Hj' as <-.
    unfold parsePostmanCollection. rewrite Hj, Ho.
    destruct its as [l|]; [exists l; split; reflexivity|].
    exfalso. unfold Postman.optArr in Ho.
    destruct (Postman.field "item" ms) as [[| | | |xs|]|];
      try discriminate Ho; try discriminate Ht.
    destruct (Postman.mapM Postman.asItem xs); discriminate Ho.
Qed.

Lemma X14_detected_collection_parses_witness :
  detectType (jsonText " {'info':{'name':'c'},'item':[]} ") = postman.
Proof.
  apply (proj2 (proj1 (X14_detected_collection_parses
                         (jsonText " {'info':{'name':'c'},'item':[]} ")))).
  split; [reflexivity|].
  exists [(units (L "info"), JObj [(units (L "name"), JStr (units (L "c")))]);
          (units (L "item"), JArr [])].
  repeat split; vm_compute; reflexivity.
Defined.

(** ** Generated code read back by the extractors *)

Lemma stripPrefix_app (p s : str) : stripPrefix p (p ++ s) = Some s.
Proof.
  induction p as [|x p IH]; cbn; [destruct s; reflexivity|].
  rewrite Ascii.eqb_refl; exact IH.
Qed.

(** The greedy repetition takes the whole run when what follows the run
    matches. *)
Lemma star_greedy (R : Type) (p : ascii -> bool) (k : str -> option R)
      (l : str) (x : ascii) (rest : str) (res : R) :
  forallb p l = true -> p x = false -> k (x :: rest) = Some res ->
  star p (l ++ x :: rest) k = Some res.
Proof.
  intros Hl Hx Hk. induction l as [|c l IH]; cbn.
  - rewrite Hx; exact Hk.
  - cbn in Hl. apply andb_true_iff in Hl as [Hc Hl].
    rewrite Hc, (IH Hl). reflexivity.
Qed.

Lemma exec_hit (r : re) (s : str) (m : MatchResult) :
  matchAt r s = Some m -> exec r s = Some m.
Proof. intros H; destruct s; cbn; rewrite H; reflexivity. Qed.

Lemma exec_skip (r : re) (c : ascii) (s : str) :
  matchAt r (c :: s) = None -> exec r (c :: s) = exec r s.
Proof. intros H; cbn; rewrite H; reflexivity. Qed.

(** A call [name('u'] with [u] free of quote characters is matched at its
    start, and [u] is the first group. *)
Lemma matchAt_quotedCall (name u rest : str) :
  u <> [] -> forallb notQuote u = true ->
  matchAt (quotedCall name) (name ++ L "('" ++ u ++ SQ :: rest)
  = Some {| groups := [(1, u)]; after := rest |}.
Proof.
  intros Hne Hu. destruct u as [|x u]; [congruence|].
  cbn in Hu. apply andb_true_iff in Hu as [Hx Hu].
  unfold matchAt, quotedCall, seq. cbn [fold_right mt].
  rewrite stripPrefix_app.
  cbn [L list_ascii_of_string app star isSpace].
  change (isSpace "(") with false. cbv iota.
  cbn [stripPrefix]. change (Ascii.eqb "(" "(") with true. cbv iota.
  cbn [star]. change (isSpace SQ) with false. cbv iota.
  change (isQuote SQ) with true. cbv iota.
  rewrite Hx.
  rewrite (star_greedy _ notQuote _ u SQ rest
             {| groups := [(1, x :: u)]; after := rest |});
    [reflexivity | exact Hu | reflexivity |].
  change (isQuote SQ) with true. cbv iota.
  change (SQ :: x :: u ++ SQ :: rest) with ([SQ] ++ (x :: u) ++ SQ :: rest).
  f_equal. f_equal. f_equal. f_equal.
  change (x :: u ++ SQ :: rest) with ((x :: u) ++ SQ :: rest).
  apply consumed_app.
Qed.

Lemma toAxios_bare_get (r : ParsedRequest) :
  method r = L "GET" -> truthyOpt (body r) = false ->
  headers r = [] -> auth r = None ->
  toAxios r
  = L "import axios from 'axios';" ++ NL :: NL
      :: L "const { data } = await " ++ L "axios.get" ++ L "('" ++ url r
      ++ SQ :: L ");" ++ NL :: L "console.log(data);".
Proof.
  intros Hm Hb Hh Ha. unfold toAxios, toAxiosLines.
  rewrite Hm, Hb, Hh, Ha.
  change (eqb_str (L "GET") (L "GET") && negb false && negb (hasKeys [])
          && negb (isSome None)) with true. cbv iota.
  cbn [app]. rewrite !join_cons2. cbn [join].
  unfold str in *. rewrite <- !app_assoc. reflexivity.
Qed.

(** X15.  A GET request without headers, credentials or body, whose URL
    holds no quote character, is written by [toAxios] as the short
    [axios.get] call, and [parseAxiosCode] reads that text back as the
    record with this URL and defaults elsewhere: the round trip loses only
    the [insecure], [followRedirects] and [contentType] fields. *)
Theorem X15_axios_get_roundtrip (r : ParsedRequest) :
  method r = L "GET" -> truthyOpt (body r) = false ->
  headers r = [] -> auth r = None ->
  forallb notQuote (url r) = true ->
  parseAxiosCode (toAxios r) = Ok (withUrl (url r) emptyRequest).
Proof.
  intros Hm Hb Hh Ha Hq.
  rewrite (toAxios_bare_get r Hm Hb Hh Ha).
  destruct (url r) as [|x u] eqn:Eu.
  - vm_compute. reflexivity.
  - assert (E : exec axiosGetRe
                  (L "import axios from 'axios';" ++ NL :: NL
                   :: L "const { data } = await " ++ L "axios.get" ++ L "('"
                   ++ (x :: u) ++ SQ :: L ");" ++ NL
                   :: L "console.log(data);")
                = Some {| groups := [(1, x :: u)];
                          after := L ");" ++ NL :: L "console.log(data);" |}).
    { cbn [L list_ascii_of_string app]. unfold axiosGetRe.
      repeat (rewrite exec_skip by reflexivity).
      apply exec_hit.
      apply (matchAt_quotedCall (L "axios.get") (x :: u)); [discriminate|].
      exact Hq. }
    unfold parseAxiosCode. unfold str in *. rewrite E. reflexivity.
Qed.

Lemma X15_axios_get_roundtrip_witness :
  parseAxiosCode (toAxios (withUrl (L "https://api.example.com/users?id=1")
                             emptyRequest))
  = Ok (withUrl (L "https://api.example.com/users?id=1") emptyRequest).
Proof.
  apply (X15_axios_get_roundtrip
           (withUrl (L "https://api.example.com/users?id=1") emptyRequest));
    reflexivity.
Defined.

Lemma toFetch_without_auth (r : ParsedRequest) :
  auth r = None ->
  exists rest,
    toFetch r
    = L "const response = await " ++ L "fetch" ++ L "('" ++ url r
        ++ SQ :: rest.
Proof.
  intros Ha. unfold toFetch, toFetchLines. rewrite Ha. cbv zeta.
  match goal with
  | |- context [if negb ?c then _ else _] => destruct c
  end; cbn [negb app].
  - rewrite join_cons2.
    eexists. unfold str in *. rewrite <- !app_assoc. reflexivity.
  - rewrite join_cons2.
    eexists. unfold str in *. rewrite <- !app_assoc. reflexivity.
Qed.

Lemma parseFetchCode_url (code : str) (m : MatchResult) (u : str) :
  exec fetchUrlRe code = Some m -> getCap 1 (groups m) = Some u ->
  exists r, parseFetchCode code = Ok r /\ url r = u.
Proof.
  intros E G. unfold parseFetchCode. rewrite E. unfold group at 1.
  rewrite G. cbn [bind].
  destruct (extractMethod_ok code (withUrl u emptyRequest))
    as (r2 & -> & S2 & _). cbn [bind].
  destruct (extractHeaders_ok code r2) as (r3 & -> & S3 & _). cbn [bind].
  destruct S2 as (_ & S2u & _). destruct S3 as (_ & S3u & _).
  assert (U : url r3 = u) by (rewrite S3u, S2u; reflexivity).
  destruct (exec bodyJsonRe code) as [mj|] eqn:Ej.
  - destruct (exec_group bodyJsonRe code mj 1 Ej eq_refl) as (t & -> & _).
    cbn [bind]. eexists; split; [reflexivity | exact U].
  - destruct (exec bodyStringRe code) as [ms|] eqn:Es.
    + destruct (exec_group bodyStringRe code ms 1 Es eq_refl)
        as (t & -> & _).
      cbn [bind]. eexists; split; [reflexivity | exact U].
    + exists r3; split; [reflexivity | exact U].
Qed.

(** X16.  For a request without credentials whose URL is not empty and
    holds no quote character, [parseFetchCode] recovers the URL from what
    [toFetch] writes, whatever the method, headers and body are. *)
Theorem X16_fetch_url_roundtrip (r : ParsedRequest) :
  auth r = None -> url r <> [] -> forallb notQuote (url r) = true ->
  exists r', parseFetchCode (toFetch r) = Ok r' /\ url r' = url r.
Proof.
  intros Ha Hne Hq.
  destruct (toFetch_without_auth r Ha) as (rest & ->).
  apply (parseFetchCode_url _ {| groups := [(1, url r)]; after := rest |});
    [| reflexivity].
  cbn [L list_ascii_of_string app]. unfold fetchUrlRe.
  repeat (rewrite exec_skip by reflexivity).
  apply exec_hit.
  apply (matchAt_quotedCall (L "fetch") (url r)); assumption.
Qed.

Lemma X16_fetch_url_roundtrip_witness :
  exists r',
    parseFetchCode
      (toFetch (withBody (Some (L "{}"))
                  (withMethod (L "PUT")
                     (withUrl (L "https://api.example.com/a") emptyRequest))))
    = Ok r'
    /\ url r' = L "https://api.example.com/a".
Proof.
  apply (X16_fetch_url_roundtrip
           (withBody (Some (L "{}"))
              (withMethod (L "PUT")
                 (withUrl (L "https://api.example.com/a") emptyRequest))));
    [reflexivity | discriminate | reflexivity].
Defined.

(** ** The shell command read back by the cURL parser *)

Lemma joinLines_keep (p : str) : forall q,
  includes [BS; NL] p = false -> startsWith [NL] q = false ->
  joinLines false (p ++ q) = p ++ joinLines false q.
Proof.
  induction p as [|c p IH]; intros q H Hq; [reflexivity|].
  simpl in H. apply orb_false_iff in H as [H1 H2].
  change ((c :: p) ++ q) with (c :: (p ++ q)).
  change (joinLines false (c :: p ++ q)) with
    (match p ++ q with
     | d :: s'' =>
         if Ascii.eqb c BS && Ascii.eqb d NL then SP :: joinLines true s''
         else c :: joinLines false (p ++ q)
     | [] => [c]
     end).
  destruct p as [|d p'].
  - cbn [app]. destruct q as [|d q']; [reflexivity|].
    cbn in Hq. rewrite andb_true_r in Hq.
    rewrite (Ascii.eqb_sym d NL), Hq, andb_false_r. reflexivity.
  - cbn [app].
    assert (E : Ascii.eqb c BS && Ascii.eqb d NL = false).
    { destruct (Ascii.eqb_spec c BS), (Ascii.eqb_spec d NL); subst;
        simpl in *; try reflexivity; discriminate. }
    rewrite E. change (d :: p' ++ q) with ((d :: p') ++ q).
    rewrite IH by assumption. reflexivity.
Qed.

Lemma joinLines_sep (c : ascii) (rest : str) :
  isSpace c = false ->
  joinLines false (curlSep ++ c :: rest)
  = twoSpaces ++ joinLines false (c :: rest).
Proof.
  intros Hc. unfold curlSep, twoSpaces. cbn. rewrite Hc. reflexivity.
Qed.

Lemma partOk_inv (p : str) :
  partOk p = true ->
  includes [BS; NL] p = false
  /\ (exists c t, p = c :: t /\ isSpace c = false)
  /\ (exists z x, p = z ++ [x] /\ isSpace x = false).
Proof.
  unfold partOk. intros H.
  apply andb_true_iff in H as [H H3]. apply andb_true_iff in H as [H1 H2].
  apply negb_true_iff in H1. split; [exact H1|]. split.
  - destruct p as [|c t]; [discriminate|].
    apply negb_true_iff in H2. eauto.
  - destruct (rev p) as [|x z] eqn:E; [discriminate|].
    apply negb_true_iff in H3. exists (rev z), x. split; [|exact H3].
    rewrite <- (rev_involutive p), E. reflexivity.
Qed.

Lemma join_head (sep : str) (c : ascii) (t : str) (l : list str) :
  exists t', join sep ((c :: t) :: l) = c :: t'.
Proof. destruct l; cbn; eauto. Qed.

Lemma joinLines_join (parts : list str) :
  forallb partOk parts = true ->
  joinLines false (join curlSep parts) = join twoSpaces parts.
Proof.
  induction parts as [|p parts IH]; intros H; [reflexivity|].
  cbn [forallb] in H. apply andb_true_iff in H as [Hp H].
  destruct (partOk_inv p Hp) as (Hn & _ & _).
  destruct parts as [|p2 parts].
  - cbn [join]. rewrite <- (app_nil_r p) at 1.
    rewrite joinLines_keep by (auto; reflexivity).
    cbn. apply app_nil_r.
  - rewrite !join_cons2.
    rewrite joinLines_keep by (auto; reflexivity).
    assert (Hp2 : partOk p2 = true).
    { cbn [forallb] in H. apply andb_true_iff in H as [H2 _]; exact H2. }
    destruct (partOk_inv p2 Hp2) as (_ & (c & t & -> & Hc) & _).
    destruct (join_head curlSep c t parts) as [t' E].
    unfold str in *.
    rewrite E, joinLines_sep by exact Hc. rewrite <- E, IH by exact H.
    reflexivity.
Qed.

Lemma join_last (sep : str) (l : list str) (z : str) (x : ascii) :
  exists z', join sep (l ++ [z ++ [x]]) = z' ++ [x].
Proof.
  destruct l as [|a l].
  - exists z; reflexivity.
  - rewrite join_snoc by discriminate.
    exists (join sep (a :: l) ++ sep ++ z). rewrite <- !app_assoc.
    reflexivity.
Qed.

Lemma trim_join (parts : list str) :
  parts <> [] -> forallb partOk parts = true ->
  trim (join twoSpaces parts) = join twoSpaces parts.
Proof.
  intros Hne H.
  destruct parts as [|p parts]; [congruence|].
  assert (Hp : partOk p = true).
  { cbn [forallb] in H. apply andb_true_iff in H as [H2 _]; exact H2. }
  destruct (partOk_inv p Hp) as (_ & (c & t & Ep & Hc) & _).
  destruct (exists_last Hne) as (l & q & El).
  assert (Hq : partOk q = true).
  { rewrite El, forallb_app in H. apply andb_true_iff in H as [_ H].
    cbn in H. rewrite andb_true_r in H. exact H. }
  destruct (partOk_inv q Hq) as (_ & _ & (z & x & Eq & Hx)).
  destruct (join_last twoSpaces l z x) as [z' Ez].
  destruct (join_head twoSpaces c t parts) as [t' Et].
  apply (trim_own _ t' z' c x); [| | exact Hc | exact Hx].
  - rewrite Ep. exact Et.
  - rewrite El, Eq. exact Ez.
Qed.

Lemma stripCurl_join (p : str) (parts : list str) :
  partOk p = true ->
  stripCurl (join twoSpaces (L "curl" :: p :: parts))
  = join twoSpaces (p :: parts).
Proof.
  intros Hp. destruct (partOk_inv p Hp) as (_ & (c & t & -> & Hc) & _).
  rewrite join_cons2.
  destruct (join_head twoSpaces c t parts) as [t' E].
  unfold str in *. rewrite E.
  unfold stripCurl, twoSpaces. cbn. rewrite Hc. reflexivity.
Qed.

(** What [parseCurl] tokenizes when it is given parts joined by [toCurl]. *)
Lemma normalize_parts (p : str) (parts : list str) :
  forallb partOk (p :: parts) = true ->
  stripCurl (normalize (join curlSep (L "curl" :: p :: parts)))
  = join twoSpaces (p :: parts).
Proof.
  intros H. unfold normalize.
  assert (H' : forallb partOk (L "curl" :: p :: parts) = true).
  { change (partOk (L "curl") && forallb partOk (p :: parts) = true).
    rewrite H. reflexivity. }
  rewrite joinLines_join, trim_join by (auto; discriminate).
  apply stripCurl_join.
  cbn [forallb] in H. apply andb_true_iff in H as [H2 _]; exact H2.
Qed.

(** *** Tokens of the parts *)

Lemma tokLoop_app_space (a b : str) :
  closedState (tokLoop a tokInit) = true ->
  tokLoop (a ++ SP :: b) tokInit
  = withTokensBefore (tokenize a) (tokLoop b tokInit).
Proof.
  intros H. unfold closedState in H.
  apply andb_true_iff in H as [H He].
  apply andb_true_iff in H as [Hs Hd].
  apply negb_true_iff in Hs, Hd, He.
  unfold tokenize. rewrite tokLoop_app, tokLoop_cons.
  set (st := tokLoop a tokInit) in *.
  assert (E : tokStep st SP = withTokensBefore (tokFlush st) tokInit).
  { unfold tokStep, tokFlush, withTokensBefore. rewrite He, Hs, Hd. cbn.
    destruct st as [ts cur s d e]; cbn in *; subst.
    destruct cur; cbn; rewrite ?app_nil_r; reflexivity. }
  rewrite E, tokLoop_frame. reflexivity.
Qed.

Lemma tokenize_join (parts : list str) :
  forallb (fun p => closedState (tokLoop p tokInit)) parts = true ->
  tokenize (join twoSpaces parts) = List.concat (map tokenize parts).
Proof.
  induction parts as [|p parts IH]; intros H; [reflexivity|].
  cbn [forallb] in H. apply andb_true_iff in H as [Hp H].
  destruct parts as [|p2 parts].
  - cbn. rewrite app_nil_r. reflexivity.
  - rewrite join_cons2. unfold twoSpaces at 1. cbn [app].
    unfold tokenize at 1. rewrite tokLoop_app_space by exact Hp.
    rewrite tokFlush_frame. rewrite tokLoop_cons.
    change (tokStep tokInit SP) with tokInit.
    change (tokFlush (tokLoop (join twoSpaces (p2 :: parts)) tokInit))
      with (tokenize (join twoSpaces (p2 :: parts))).
    rewrite IH by exact H. reflexivity.
Qed.

Lemma tokLoop_bare (m : str) : forall st,
  closedState st = true ->
  forallb bareChar m = true ->
  tokLoop m st = tokAfter (tokens st) (current st ++ m).
Proof.
  induction m as [|c m IH]; intros st Hc Hm.
  - cbn. rewrite app_nil_r. unfold closedState in Hc.
    destruct st as [ts cur [|] [|] [|]]; cbn in *; try discriminate.
    reflexivity.
  - cbn [forallb] in Hm. apply andb_true_iff in Hm as [Hc1 Hm].
    unfold bareChar in Hc1.
    apply andb_true_iff in Hc1 as [Hc1 Hsp].
    unfold isShellSpecial in Hc1. apply negb_true_iff in Hc1.
    apply orb_false_iff in Hc1 as [Hc1 Hb].
    apply orb_false_iff in Hc1 as [Hq Hdq].
    assert (Hs : Ascii.eqb c SP = false).
    { destruct (Ascii.eqb_spec c SP) as [->|]; [discriminate|reflexivity]. }
    unfold closedState in Hc.
    destruct st as [ts cur [|] [|] [|]]; cbn in Hc; try discriminate.
    rewrite tokLoop_cons. unfold tokStep.
    cbn [escaped inSingle inDouble tokens current].
    rewrite Hb, Hq, Hdq, Hs. cbn [andb negb].
    rewrite IH; [| reflexivity | exact Hm].
    cbn [tokens current]. rewrite <- app_assoc. reflexivity.
Qed.

Lemma tokLoop_quoted (x : str) :
  forallb (fun c => negb (Ascii.eqb c SQ)) x = true ->
  tokLoop (quoted x) tokInit = tokAfter [] x.
Proof.
  intros H. unfold quoted. rewrite tokLoop_cons.
  change (tokStep tokInit SQ) with
    {| tokens := []; current := []; inSingle := true; inDouble := false;
       escaped := false |}.
  assert (Hn : ~ In SQ x).
  { intros Hin. rewrite forallb_forall in H. specialize (H _ Hin).
    discriminate. }
  rewrite tokLoop_app.
  rewrite (tokLoop_inSingle x
             {| tokens := []; current := []; inSingle := true;
                inDouble := false; escaped := false |})
    by (auto; reflexivity).
  reflexivity.
Qed.

Lemma tokenize_after (ts : list str) (cur : str) :
  tokFlush (tokAfter ts cur) = ts ++ (if truthy cur then [cur] else []).
Proof.
  unfold tokFlush, tokAfter; cbn.
  destruct (truthy cur); rewrite ?app_nil_r; reflexivity.
Qed.

Lemma tokLoop_flagged (f x : str) :
  tokLoop f tokInit = tokAfter [] f -> f <> [] ->
  forallb (fun c => negb (Ascii.eqb c SQ)) x = true ->
  tokLoop (flagged f x) tokInit = tokAfter [f] x.
Proof.
  intros Hf Hne Hx. unfold flagged.
  rewrite tokLoop_app_space by (rewrite Hf; reflexivity).
  unfold tokenize. rewrite Hf, tokenize_after, tokLoop_quoted by exact Hx.
  destruct f; [congruence | reflexivity].
Qed.

Lemma tokLoop_flag_word (f m : str) :
  tokLoop f tokInit = tokAfter [] f -> f <> [] ->
  forallb bareChar m = true ->
  tokLoop (f ++ SP :: m) tokInit = tokAfter [f] m.
Proof.
  intros Hf Hne Hm.
  rewrite tokLoop_app_space by (rewrite Hf; reflexivity).
  unfold tokenize. rewrite Hf, tokenize_after.
  rewrite tokLoop_bare by (auto; reflexivity).
  destruct f; [congruence | reflexivity].
Qed.

(** *** The parts of the command *)

Lemma toCurlParts_args (r : ParsedRequest) :
  toCurlParts r = L "curl" :: curlArgs r.
Proof.
  unfold toCurlParts, curlArgs, flagged, quoted.
  cbn [app]. f_equal. f_equal. f_equal.
  f_equal; [| f_equal].
  - apply map_ext. intros [k v]. cbn [fst snd L list_ascii_of_string app].
    rewrite <- !app_assoc. reflexivity.
  - destruct (auth r) as [a|]; [|reflexivity].
    cbn [L list_ascii_of_string app]. rewrite <- !app_assoc. reflexivity.
Qed.

Lemma noBreak_cons (c : ascii) (s : str) :
  c <> BS -> includes [BS; NL] (c :: s) = includes [BS; NL] s.
Proof.
  intros H. cbn. apply Ascii.eqb_neq in H.
  rewrite (Ascii.eqb_sym BS c), H. reflexivity.
Qed.

Lemma noBreak_app (a b : str) :
  includes [BS; NL] a = false -> includes [BS; NL] b = false ->
  startsWith [NL] b = false ->
  includes [BS; NL] (a ++ b) = false.
Proof.
  intros Ha Hb Hn. induction a as [|x a IH]; [exact Hb|].
  cbn [includes] in Ha. apply orb_false_iff in Ha as [H1 H2].
  change ((x :: a) ++ b) with (x :: (a ++ b)). cbn [includes].
  rewrite (IH H2), orb_false_r.
  destruct a as [|y a]; cbn [app].
  - cbn [startsWith]. cbn [startsWith] in Hn.
    destruct b; [apply andb_false_r|].
    rewrite Hn. apply andb_false_r.
  - exact H1.
Qed.

Lemma bareChar_inv (c : ascii) :
  bareChar c = true ->
  c <> BS /\ c <> SQ /\ c <> DQ /\ isSpace c = false.
Proof.
  unfold bareChar, isShellSpecial. intros H.
  apply andb_true_iff in H as [H Hs].
  apply negb_true_iff in H, Hs.
  apply orb_false_iff in H as [H Hb]. apply orb_false_iff in H as [Hq Hd].
  repeat split; try exact Hs; intros ->; discriminate.
Qed.

Lemma bare_noBreak (m : str) :
  forallb bareChar m = true -> includes [BS; NL] m = false.
Proof.
  induction m as [|c m IH]; intros H; [reflexivity|].
  cbn [forallb] in H. apply andb_true_iff in H as [Hc H].
  destruct (bareChar_inv c Hc) as (Hb & _).
  rewrite noBreak_cons by exact Hb. exact (IH H).
Qed.

Lemma partOk_intro (p t z : str) (c x : ascii) :
  p = c :: t -> p = z ++ [x] -> includes [BS; NL] p = false ->
  isSpace c = false -> isSpace x = false -> partOk p = true.
Proof.
  intros E1 E2 Hn Hc Hx. unfold partOk. rewrite Hn.
  rewrite E2 at 2. rewrite rev_unit, Hx. rewrite E1, Hc. reflexivity.
Qed.

Lemma bareWord_inv (f : str) :
  bareWord f = true ->
  forallb bareChar f = true
  /\ (exists c t, f = c :: t /\ isSpace c = false)
  /\ (exists z y, f = z ++ [y] /\ isSpace y = false).
Proof.
  unfold bareWord. intros H. apply andb_true_iff in H as [Ht H].
  split; [exact H|]. split.
  - destruct f as [|c t]; [discriminate|].
    cbn [forallb] in H. apply andb_true_iff in H as [Hc _].
    destruct (bareChar_inv c Hc) as (_ & _ & _ & Hs). eauto.
  - assert (Hne : f <> []) by (destruct f; [discriminate | congruence]).
    destruct (exists_last Hne) as (z & y & ->).
    rewrite forallb_app in H. apply andb_true_iff in H as [_ H].
    cbn [forallb] in H. apply andb_true_iff in H as [Hy _].
    destruct (bareChar_inv y Hy) as (_ & _ & _ & Hs). eauto.
Qed.

Lemma quotable_inv (x : str) :
  quotable x = true ->
  forallb (fun c => negb (Ascii.eqb c SQ)) x = true
  /\ includes [BS; NL] x = false.
Proof.
  unfold quotable. intros H. apply andb_true_iff in H as [H1 H2].
  apply negb_true_iff in H2. auto.
Qed.

Lemma quoted_noBreak (x : str) :
  includes [BS; NL] x = false -> includes [BS; NL] (quoted x) = false.
Proof.
  intros H. unfold quoted. rewrite noBreak_cons by discriminate.
  apply noBreak_app; [exact H | reflexivity | reflexivity].
Qed.

Lemma segReads_nil : segReads [] [].
Proof. repeat split. Qed.

Lemma segReads_app (a b : list str) (ta tb : list str) :
  segReads a ta -> segReads b tb -> segReads (a ++ b) (ta ++ tb).
Proof.
  intros (A1 & A2 & A3) (B1 & B2 & B3). unfold segReads.
  rewrite !forallb_app, map_app, concat_app, A1, A2, A3, B1, B2, B3.
  repeat split.
Qed.

Lemma segReads_one (p : str) (ts : list str) (cur : str) :
  partOk p = true -> tokLoop p tokInit = tokAfter ts cur ->
  segReads [p] (ts ++ if truthy cur then [cur] else []).
Proof.
  intros Hp Ht. unfold segReads. cbn [forallb map List.concat].
  unfold tokenize. rewrite Hp, Ht, tokenize_after, app_nil_r.
  repeat split.
Qed.

Lemma segReads_map {A} (g : A -> str) (h : A -> list str) (l : list A) :
  (forall x, In x l -> segReads [g x] (h x)) ->
  segReads (map g l) (List.concat (map h l)).
Proof.
  induction l as [|x l IH]; intros H; [apply segReads_nil|].
  cbn [map List.concat].
  change (g x :: map g l) with ([g x] ++ map g l).
  apply segReads_app; [apply H; left; reflexivity|].
  apply IH. intros y Hy. apply H. right; exact Hy.
Qed.

Lemma quoted_reads (x : str) :
  quotable x = true ->
  segReads [quoted x] (if truthy x then [x] else []).
Proof.
  intros H. destruct (quotable_inv x H) as [Hq Hn].
  apply (segReads_one (quoted x) [] x).
  - apply (partOk_intro (quoted x) (x ++ [SQ]) (SQ :: x) SQ SQ);
      try reflexivity.
    apply quoted_noBreak; exact Hn.
  - apply tokLoop_quoted; exact Hq.
Qed.

Lemma flagged_reads (f x : str) :
  bareWord f = true -> quotable x = true -> truthy x = true ->
  segReads [flagged f x] [f; x].
Proof.
  intros Hf H Hx. destruct (quotable_inv x H) as [Hq Hn].
  destruct (bareWord_inv f Hf) as (Hb & (c & t & Ef & Hc) & _).
  assert (Hne : f <> []) by (rewrite Ef; discriminate).
  assert (Hl : tokLoop f tokInit = tokAfter [] f).
  { rewrite tokLoop_bare by (auto; reflexivity). reflexivity. }
  pose proof (segReads_one (flagged f x) [f] x) as S.
  rewrite Hx in S. apply S.
  - apply (partOk_intro (flagged f x) (t ++ SP :: SQ :: x ++ [SQ])
             (f ++ SP :: SQ :: x) c SQ).
    + unfold flagged, quoted. rewrite Ef. reflexivity.
    + unfold flagged, quoted. rewrite <- app_assoc. reflexivity.
    + unfold flagged. apply noBreak_app.
      * apply bare_noBreak; exact Hb.
      * rewrite noBreak_cons by discriminate. apply quoted_noBreak, Hn.
      * reflexivity.
    + exact Hc.
    + reflexivity.
  - apply tokLoop_flagged; assumption.
Qed.

Lemma flag_word_reads (f m : str) :
  bareWord f = true -> bareWord m = true ->
  segReads [f ++ SP :: m] [f; m].
Proof.
  intros Hf Hm.
  destruct (bareWord_inv f Hf) as (Hb & (c & t & Ef & Hc) & _).
  destruct (bareWord_inv m Hm) as (Hbm & (c' & t' & Em' & _) & (z & y & Em & Hy)).
  assert (Hne : f <> []) by (rewrite Ef; discriminate).
  assert (Hl : tokLoop f tokInit = tokAfter [] f).
  { rewrite tokLoop_bare by (auto; reflexivity). reflexivity. }
  pose proof (segReads_one (f ++ SP :: m) [f] m) as S.
  assert (Ht : truthy m = true) by (rewrite Em'; reflexivity).
  rewrite Ht in S. apply S.
  - apply (partOk_intro (f ++ SP :: m) (t ++ SP :: m) (f ++ SP :: z) c y).
    + rewrite Ef. reflexivity.
    + rewrite Em, <- app_assoc. reflexivity.
    + apply noBreak_app.
      * apply bare_noBreak; exact Hb.
      * rewrite noBreak_cons by discriminate. apply bare_noBreak, Hbm.
      * reflexivity.
    + exact Hc.
    + exact Hy.
  - apply tokLoop_flag_word; assumption.
Qed.

Lemma quotable_cons (c : ascii) (x : str) :
  c <> SQ -> c <> BS -> quotable x = true -> quotable (c :: x) = true.
Proof.
  intros H1 H2 H. destruct (quotable_inv x H) as [Hq Hn].
  unfold quotable. cbn [forallb]. rewrite Hq, noBreak_cons, Hn by exact H2.
  apply Ascii.eqb_neq in H1. rewrite H1. reflexivity.
Qed.

Lemma quotable_app (a b : str) :
  quotable a = true -> quotable b = true -> startsWith [NL] b = false ->
  quotable (a ++ b) = true.
Proof.
  intros Ha Hb Hn.
  destruct (quotable_inv a Ha) as [Ha1 Ha2].
  destruct (quotable_inv b Hb) as [Hb1 Hb2].
  unfold quotable. rewrite forallb_app, Ha1, Hb1.
  rewrite noBreak_app by assumption. reflexivity.
Qed.

Lemma curlSafe_inv (r : ParsedRequest) :
  curlSafe r = true ->
  bareWord (method r) = true
  /\ toUpperCase (method r) = method r
  /\ (url r = [] \/ urlShaped (url r) = true)
  /\ quotable (url r) = true
  /\ forallb headerOk (headers r) = true
  /\ (forall a, auth r = Some a -> authOk a = true)
  /\ (forall b, body r = Some b -> quotable b = true).
Proof.
  unfold curlSafe. intros H.
  repeat match type of H with
         | _ && _ = true => let H' := fresh "H" in
                            apply andb_true_iff in H as [H H']
         end.
  split; [exact H|]. split; [apply eqb_str_eq; assumption|].
  split.
  { destruct (url r); [left; reflexivity | right; assumption]. }
  split; [assumption|]. split; [assumption|]. split.
  - intros a E. rewrite E in *. assumption.
  - intros b E. rewrite E in *. assumption.
Qed.

Lemma headerOk_inv (k v : str) :
  headerOk (k, v) = true ->
  k <> [] /\ noColon k = true /\ trim k = k
  /\ forallb isDigit k = false /\ k <> L "__proto__"
  /\ quotable k = true /\ trim v = v /\ quotable v = true.
Proof.
  unfold headerOk. cbn [fst snd]. intros H.
  repeat match type of H with
         | _ && _ = true => let H' := fresh "H" in
                            apply andb_true_iff in H as [H H']
         end.
  repeat split; try assumption.
  - destruct k; [discriminate | congruence].
  - apply eqb_str_eq; assumption.
  - apply negb_true_iff; assumption.
  - intros E. apply eqb_str_eq in E. rewrite E in *. discriminate.
  - apply eqb_str_eq; assumption.
Qed.

Lemma authOk_inv (a : Auth) :
  authOk a = true ->
  noColon (user a) = true /\ noColon (pass a) = true
  /\ quotable (user a) = true /\ quotable (pass a) = true.
Proof.
  unfold authOk. intros H.
  repeat match type of H with
         | _ && _ = true => let H' := fresh "H" in
                            apply andb_true_iff in H as [H H']
         end.
  auto.
Qed.

Lemma curlArgs_reads (r : ParsedRequest) :
  curlSafe r = true -> segReads (curlArgs r) (curlTokens r).
Proof.
  intros H.
  destruct (curlSafe_inv r H) as (Hm & _ & _ & Hu & Hh & Ha & Hb).
  unfold curlArgs, curlTokens.
  repeat apply segReads_app.
  - destruct (eqb_str (method r) (L "GET")); [apply segReads_nil|].
    apply flag_word_reads; [reflexivity | exact Hm].
  - apply quoted_reads; exact Hu.
  - apply segReads_map. intros [k v] Hin. cbn [fst snd].
    rewrite forallb_forall in Hh. specialize (Hh _ Hin).
    destruct (headerOk_inv k v Hh) as (Hk & _ & _ & _ & _ & Hqk & _ & Hqv).
    apply flagged_reads; [reflexivity | |].
    + apply quotable_app; [exact Hqk | | reflexivity].
      apply quotable_cons; [discriminate | discriminate |].
      apply quotable_cons; [discriminate | discriminate | exact Hqv].
    + destruct k; [congruence | reflexivity].
  - destruct (auth r) as [a|]; [|apply segReads_nil].
    destruct (authOk_inv a (Ha a eq_refl)) as (_ & _ & Hqu & Hqp).
    apply flagged_reads; [reflexivity | |].
    + apply quotable_app; [exact Hqu | | reflexivity].
      apply quotable_cons; [discriminate | discriminate | exact Hqp].
    + destruct (user a); reflexivity.
  - destruct (body r) as [b|]; [|apply segReads_nil].
    destruct (truthy b) eqn:Ht; [|apply segReads_nil].
    apply flagged_reads; [reflexivity | apply Hb; reflexivity | exact Ht].
  - destruct (insecure r); [|apply segReads_nil].
    apply (segReads_one (L "-k") [] (L "-k")); reflexivity.
Qed.

(** [parseCurl] of [toCurl] runs the token loop on [curlTokens]. *)
Lemma parseCurl_toCurl_tokens (r : ParsedRequest) :
  curlSafe r = true ->
  parseCurl (toCurl r) = result (curlLoop (curlTokens r) curlInit).
Proof.
  intros H. destruct (curlArgs_reads r H) as (H1 & H2 & H3).
  unfold parseCurl, toCurl. rewrite toCurlParts_args.
  change (SP :: BS :: NL :: L "  ") with curlSep.
  destruct (curlArgs r) as [|p parts] eqn:E.
  { unfold curlArgs in E. apply app_eq_nil in E as [_ E]. discriminate E. }
  cbv zeta. rewrite normalize_parts by exact H1.
  rewrite tokenize_join by exact H2. rewrite H3. reflexivity.
Qed.

(** *** The token loop on the tokens of the command *)

Lemma curlLoop_valued (t n : str) (rest : list str) (st st' : CurlState) :
  curlStep t (Some n) st = (st', true) ->
  curlLoop (t :: n :: rest) st = curlLoop rest st'.
Proof. intros H. rewrite curlLoop_cons2, H. reflexivity. Qed.

Lemma curlLoop_single (t : str) (rest : list str) (st st' : CurlState) :
  curlStep t None st = (st', false) ->
  (forall n, curlStep t (Some n) st = (st', false)) ->
  curlLoop (t :: rest) st = curlLoop rest st'.
Proof.
  intros H1 H2. destruct rest as [|n rest].
  - cbn. rewrite H1. reflexivity.
  - rewrite curlLoop_cons2, H2. reflexivity.
Qed.

Lemma indexOf_noColon (k rest : str) :
  noColon k = true ->
  indexOf COLON (k ++ COLON :: rest) = Z.of_nat (List.length k).
Proof.
  induction k as [|c k IH]; intros H.
  - reflexivity.
  - cbn [noColon forallb] in H. apply andb_true_iff in H as [Hc H].
    apply negb_true_iff in Hc.
    cbn [app indexOf List.length]. rewrite Hc, (IH H).
    rewrite Nat2Z.inj_succ.
    destruct (Z.of_nat (List.length k) <? 0)%Z eqn:E; [|reflexivity].
    apply Z.ltb_lt in E. pose proof (Nat2Z.is_nonneg (List.length k)). lia.
Qed.

Lemma split_go_noColon (k : str) : forall cur rest,
  noColon k = true ->
  split_go COLON cur (k ++ COLON :: rest)
  = rev (rev k ++ cur) :: split_go COLON [] rest.
Proof.
  induction k as [|c k IH]; intros cur rest H.
  - cbn. reflexivity.
  - cbn [noColon forallb] in H. apply andb_true_iff in H as [Hc H].
    apply negb_true_iff in Hc.
    cbn [app split_go]. rewrite Hc, IH by exact H.
    cbn [rev]. rewrite <- app_assoc. reflexivity.
Qed.

Lemma split_go_end (k : str) : forall cur,
  noColon k = true -> split_go COLON cur k = [rev (rev k ++ cur)].
Proof.
  induction k as [|c k IH]; intros cur H.
  - reflexivity.
  - cbn [noColon forallb] in H. apply andb_true_iff in H as [Hc H].
    apply negb_true_iff in Hc.
    cbn [split_go]. rewrite Hc, IH by exact H.
    cbn [rev]. rewrite <- app_assoc. reflexivity.
Qed.

Lemma split_user_pass (u p : str) :
  noColon u = true -> noColon p = true ->
  split COLON (u ++ L ":" ++ p) = [u; p].
Proof.
  intros Hu Hp. unfold split.
  change (L ":" ++ p) with (COLON :: p).
  rewrite split_go_noColon, split_go_end by assumption.
  rewrite !app_nil_r, !rev_involutive. reflexivity.
Qed.

Lemma trim_cons_space (v : str) : trim (SP :: v) = trim v.
Proof. reflexivity. Qed.

Lemma step_method (m : str) (st : CurlState) :
  truthy m = true ->
  curlStep (L "-X") (Some m) st
  = ({| result := withMethod (toUpperCase m) (result st);
        explicitMethod := true |}, true).
Proof. intros H. unfold curlStep. cbn. rewrite H. reflexivity. Qed.

Lemma step_header (k v : str) (st : CurlState) :
  headerOk (k, v) = true ->
  curlStep (L "-H") (Some (k ++ L ": " ++ v)) st = (addHeader st (k, v), true).
Proof.
  intros H.
  destruct (headerOk_inv k v H) as (Hk & Hc & Htk & _ & _ & _ & Htv & _).
  unfold curlStep.
  change (isOneOf (L "-H") [L "-X"; L "--request"]) with false.
  change (isOneOf (L "-H") [L "-H"; L "--header"]) with true.
  cbv iota.
  assert (Ht : truthy (k ++ L ": " ++ v) = true).
  { destruct k; [congruence | reflexivity]. }
  rewrite Ht. cbv zeta.
  change (L ": " ++ v) with (COLON :: SP :: v).
  rewrite indexOf_noColon by exact Hc.
  assert (Hpos : (Z.of_nat (List.length k) >? 0)%Z = true).
  { destruct k; [congruence|]. cbn [List.length]. apply Z.gtb_lt. lia. }
  rewrite Hpos, Nat2Z.id.
  assert (E1 : substring 0 (List.length k) (k ++ COLON :: SP :: v) = k).
  { unfold substring. cbn [skipn]. rewrite Nat.sub_0_r.
    rewrite firstn_app, Nat.sub_diag, firstn_all. cbn. apply app_nil_r. }
  assert (E2 : substringFrom (List.length k + 1) (k ++ COLON :: SP :: v)
               = SP :: v).
  { unfold substringFrom. rewrite skipn_app.
    rewrite skipn_all2 by lia.
    replace (List.length k + 1 - List.length k) with 1 by lia.
    reflexivity. }
  rewrite E1, E2, Htk, trim_cons_space, Htv.
  unfold addHeader, isContentType. cbn [fst snd].
  destruct (eqb_str (toLowerCase k) (L "content-type")); reflexivity.
Qed.

Lemma step_auth (a : Auth) (st : CurlState) :
  authOk a = true ->
  curlStep (L "-u") (Some (user a ++ L ":" ++ pass a)) st
  = (onResult (withAuth (Some a)) st, true).
Proof.
  intros H. destruct (authOk_inv a H) as (Hu & Hp & _).
  unfold curlStep.
  change (isOneOf (L "-u") [L "-X"; L "--request"]) with false.
  change (isOneOf (L "-u") [L "-H"; L "--header"]) with false.
  change (isOneOf (L "-u")
            [L "-d"; L "--data"; L "--data-raw"; L "--data-binary"])
    with false.
  change (isOneOf (L "-u") [L "--data-urlencode"]) with false.
  change (isOneOf (L "-u") [L "-u"; L "--user"]) with true.
  cbv iota.
  assert (Ht : truthy (user a ++ L ":" ++ pass a) = true).
  { destruct (user a); reflexivity. }
  rewrite Ht. cbv zeta. rewrite split_user_pass by assumption.
  cbn [nth nth_error]. destruct a; reflexivity.
Qed.

Lemma step_data (b : str) (st : CurlState) :
  truthy b = true ->
  curlStep (L "-d") (Some b) st
  = (defaultPost (onResult (withBody (Some b)) st), true).
Proof. intros H. unfold curlStep. cbn. rewrite H. reflexivity. Qed.

Lemma loop_headers (hs : list (str * str)) (rest : list str) : forall st,
  forallb headerOk hs = true ->
  curlLoop (List.concat
              (map (fun kv => [L "-H"; fst kv ++ L ": " ++ snd kv]) hs)
            ++ rest) st
  = curlLoop rest (fold_left addHeader hs st).
Proof.
  induction hs as [|[k v] hs IH]; intros st H; [reflexivity|].
  cbn [forallb] in H. apply andb_true_iff in H as [Hkv H].
  cbn [map List.concat fst snd app fold_left].
  rewrite (curlLoop_valued _ _ _ _ _ (step_header k v st Hkv)).
  apply IH; exact H.
Qed.

Lemma setHeader_fresh (k v : str) (h : list (str * str)) :
  ~ In k (keys h) -> setHeader k v h = h ++ [(k, v)].
Proof.
  induction h as [|[k' v'] h IH]; intros Hn; [reflexivity|].
  cbn [setHeader app].
  destruct (eqb_str k' k) eqn:E.
  - apply eqb_str_eq in E. subst. exfalso. apply Hn. left; reflexivity.
  - rewrite IH; [reflexivity|]. intros Hin. apply Hn. right; exact Hin.
Qed.

Lemma fold_addHeader (hs : list (str * str)) : forall st,
  NoDup (keys (headers (result st)) ++ keys hs) ->
  fold_left addHeader hs st
  = onResult (fun r =>
       withContentType
         (match lastOpt (map snd (filter isContentType hs)) with
          | Some v => Some v
          | None => contentType r
          end)
         (withHeaders (headers r ++ hs) r)) st.
Proof.
  induction hs as [|[k v] hs IH]; intros st Hd.
  - destruct st as [[m u h b ct a fr ins] e].
    unfold onResult, withContentType, withHeaders. cbn.
    rewrite app_nil_r. reflexivity.
  - cbn [fold_left].
    assert (Hk : ~ In k (keys (headers (result st)))).
    { intros Hin. cbn [keys map fst] in Hd.
      apply NoDup_remove_2 in Hd. apply Hd. apply in_or_app. left.
      exact Hin. }
    assert (Eh : headers (result (addHeader st (k, v)))
                 = headers (result st) ++ [(k, v)]).
    { unfold addHeader. cbn [fst snd].
      destruct (isContentType (k, v)); cbn; apply setHeader_fresh, Hk. }
    rewrite IH.
    2:{ rewrite Eh. unfold keys in *. rewrite map_app, <- app_assoc.
        exact Hd. }
    destruct st as [[m u h b ct a fr ins] e].
    cbn [result headers] in Hk.
    unfold addHeader, onResult, withContentType, withHeaders.
    cbn [fst snd result headers contentType method url body auth
         followRedirects insecure explicitMethod filter].
    rewrite (setHeader_fresh k v h Hk).
    destruct (isContentType (k, v)) eqn:Ec;
      cbn [fst snd result headers contentType method url body auth
           followRedirects insecure explicitMethod map];
      rewrite <- ?app_assoc; cbn [app]; [|reflexivity].
    rewrite lastOpt_cons.
    destruct (lastOpt (map snd (filter isContentType hs))); reflexivity.
Qed.

Lemma loop_method (g : bool) (m : str) (rest : list str) (st : CurlState) :
  truthy m = true ->
  curlLoop ((if g then [] else [L "-X"; m]) ++ rest) st
  = curlLoop rest
      (if g then st
       else {| result := withMethod (toUpperCase m) (result st);
               explicitMethod := true |}).
Proof.
  intros H. destruct g; [reflexivity|].
  apply curlLoop_valued, step_method, H.
Qed.

Lemma loop_url (u : str) (rest : list str) (st : CurlState) :
  u = [] \/ urlShaped u = true ->
  curlLoop ((if truthy u then [u] else []) ++ rest) st
  = curlLoop rest (if truthy u then onResult (withUrl u) st else st).
Proof.
  intros [->|H]; [reflexivity|].
  unfold urlShaped in H. apply andb_true_iff in H as [_ H].
  apply orb_true_iff in H.
  destruct (curlLoop_url u st H) as [E1 E2].
  assert (Ht : truthy u = true).
  { destruct H as [H|H]; apply startsWith_prefix in H as [t ->];
      reflexivity. }
  rewrite Ht. apply curlLoop_single; assumption.
Qed.

Lemma loop_auth (o : option Auth) (rest : list str) (st : CurlState) :
  (forall a, o = Some a -> authOk a = true) ->
  curlLoop (match o with
            | Some a => [L "-u"; user a ++ L ":" ++ pass a]
            | None => []
            end ++ rest) st
  = curlLoop rest (match o with
                   | Some a => onResult (withAuth (Some a)) st
                   | None => st
                   end).
Proof.
  intros H. destruct o as [a|]; [|reflexivity].
  apply curlLoop_valued, step_auth, H. reflexivity.
Qed.

Lemma loop_body (o : option str) (rest : list str) (st : CurlState) :
  curlLoop (match o with
            | Some b => if truthy b then [L "-d"; b] else []
            | None => []
            end ++ rest) st
  = curlLoop rest
      (if truthyOpt o then defaultPost (onResult (withBody o) st) else st).
Proof.
  destruct o as [b|]; [|reflexivity]. cbn [truthyOpt].
  destruct (truthy b) eqn:Ht; [|reflexivity].
  apply curlLoop_valued, step_data, Ht.
Qed.

Lemma loop_insecure (i : bool) (st : CurlState) :
  curlLoop (if i then [L "-k"] else []) st
  = if i then onResult (withInsecure true) st else st.
Proof. destruct i; reflexivity. Qed.

Lemma parseCurl_toCurl_readBack (r : ParsedRequest) :
  curlSafe r = true -> NoDup (keys (headers r)) ->
  parseCurl (toCurl r) = readBack r.
Proof.
  intros H Hd.
  rewrite parseCurl_toCurl_tokens by exact H.
  destruct (curlSafe_inv r H) as (Hm & Hup & Hu & _ & Hh & Ha & _).
  unfold curlTokens.
  assert (Ht : truthy (method r) = true).
  { unfold bareWord in Hm. apply andb_true_iff in Hm as [Hm _]; exact Hm. }
  rewrite loop_method by exact Ht.
  rewrite loop_url by exact Hu.
  rewrite loop_headers by exact Hh.
  rewrite loop_auth by exact Ha.
  rewrite loop_body, loop_insecure.
  rewrite fold_addHeader.
  2:{ destruct (eqb_str (method r) (L "GET")), (truthy (url r));
        exact Hd. }
  unfold readBack.
  destruct (eqb_str (method r) (L "GET")) eqn:Em.
  - apply eqb_str_eq in Em.
    destruct r as [m u h b ct a fr ins].
    cbn [method url headers body auth insecure contentType] in *. subst m.
    destruct (lastOpt (map snd (filter isContentType h)));
    destruct (truthy u) eqn:Eu, a as [a|], (truthyOpt b) eqn:Eb, ins;
      cbn; rewrite ?Eb; try reflexivity;
      destruct u; try discriminate; reflexivity.
  - destruct r as [m u h b ct a fr ins].
    cbn [method url headers body auth insecure contentType] in *.
    rewrite Hup.
    destruct (lastOpt (map snd (filter isContentType h)));
    destruct (truthy u) eqn:Eu, a as [a|], (truthyOpt b) eqn:Eb, ins;
      cbn; rewrite ?Eb; try reflexivity;
      destruct u; try discriminate; reflexivity.
Qed.

(** X17.  Round trip through the shell command, for a request that the
    command can carry ([curlSafe]) and whose header names are pairwise
    distinct.  The conditions of [curlSafe] are: the method is not empty,
    holds only ASCII characters, no white space, quote or backslash, and
    is in upper case; the URL is empty or starts with [http] or a slash;
    every header name is not empty, holds no colon, has no white space at
    its ends, is not made of digits only and is not [__proto__]; every
    header value has no white space at its ends; user and password hold
    no colon; and neither the URL nor a header name or value nor the user,
    the password or the body holds a single quote or a backslash followed
    by a line feed.  [parseCurl] reads such a request back from what
    [toCurl] writes field by field, with these changes: a GET request with
    a body comes back as POST, an empty body comes back as no body, the
    cached content type is the value of the last content-type header, and
    the redirect flag is set. *)
Theorem X17_toCurl_roundtrip (r : ParsedRequest) :
  curlSafe r = true -> NoDup (keys (headers r)) ->
  parseCurl (toCurl r) = readBack r.
Proof. exact (parseCurl_toCurl_readBack r). Qed.

Lemma X17_toCurl_roundtrip_witness :
  let r := {| method := L "GET";
              url := L "https://api.example.com/users";
              headers := [(L "Content-Type", L "application/json");
                          (L "X-Trace", L "a b")];
              body := Some (L "{name: 1}");
              contentType := None;
              auth := Some {| user := L "bob"; pass := L "pw" |};
              followRedirects := false;
              insecure := true |} in
  parseCurl (toCurl r)
  = {| method := L "POST";
       url := L "https://api.example.com/users";
       headers := [(L "Content-Type", L "application/json");
                   (L "X-Trace", L "a b")];
       body := Some (L "{name: 1}");
       contentType := Some (L "application/json");
       auth := Some {| user := L "bob"; pass := L "pw" |};
       followRedirects := true;
       insecure := true |}.
Proof.
  intros r. apply (X17_toCurl_roundtrip r); [reflexivity|].
  repeat constructor; cbn; intuition discriminate.
Defined.

Lemma readBack_safe (r : ParsedRequest) :
  curlSafe r = true -> curlSafe (readBack r) = true.
Proof.
  unfold curlSafe, readBack.
  cbn [method url headers body auth].
  destruct (eqb_str (method r) (L "GET") && truthyOpt (body r)) eqn:E.
  - apply andb_true_iff in E as [_ E]. rewrite E.
    intros H.
    repeat match type of H with
           | _ && _ = true => let H' := fresh "H" in
                              apply andb_true_iff in H as [H H']
           end.
    cbv iota. rewrite H4, H3, H2, H1, H0. reflexivity.
  - intros H.
    repeat match type of H with
           | _ && _ = true => let H' := fresh "H" in
                              apply andb_true_iff in H as [H H']
           end.
    rewrite H, H6, H5, H4, H3, H2, H1.
    destruct (truthyOpt (body r)); [rewrite H0|]; reflexivity.
Qed.

Lemma readBack_idem (r : ParsedRequest) :
  readBack (readBack r) = readBack r.
Proof.
  unfold readBack. cbn [method url headers body auth insecure].
  destruct (eqb_str (method r) (L "GET")) eqn:Em,
           (truthyOpt (body r)) eqn:Eb;
    cbn [andb]; rewrite ?Em, ?Eb; cbn [andb truthyOpt];
    reflexivity.
Qed.

(** X18.  For such a request a second round trip changes nothing: what
    [parseCurl] reads from [toCurl] is written and read back as
    itself. *)
Theorem X18_toCurl_roundtrip_stable (r : ParsedRequest) :
  curlSafe r = true -> NoDup (keys (headers r)) ->
  parseCurl (toCurl (parseCurl (toCurl r))) = parseCurl (toCurl r).
Proof.
  intros H Hd. rewrite (parseCurl_toCurl_readBack r H Hd).
  rewrite parseCurl_toCurl_readBack;
    [apply readBack_idem | apply readBack_safe; exact H | exact Hd].
Qed.

Lemma X18_toCurl_roundtrip_stable_witness :
  let r := {| method := L "GET";
              url := L "/items";
              headers := [(L "Accept", L "text/plain")];
              body := Some (L "q=1");
              contentType := Some (L "text/html");
              auth := None;
              followRedirects := false;
              insecure := false |} in
  parseCurl (toCurl (parseCurl (toCurl r))) = parseCurl (toCurl r).
Proof.
  intros r. apply (X18_toCurl_roundtrip_stable r); [reflexivity|].
  repeat constructor; cbn; intuition discriminate.
Defined.

(** ** Further properties of the collection importer *)

(** Induction on items together with their nested lists. *)
Lemma Item_nested_ind (P : Postman.Item -> Prop) :
  (forall n r, P (Postman.MkItem n r None)) ->
  (forall n r sub, Forall P sub -> P (Postman.MkItem n r (Some sub))) ->
  forall i, P i.
Proof.
  intros Hleaf Hnode.
  fix IH 1. intros [n r [sub|]]; [|apply Hleaf].
  apply Hnode. induction sub as [|x sub IHs]; constructor.
  - apply IH.
  - exact IHs.
Qed.

Lemma flattenItem_leaves (i : Postman.Item) :
  Forall (fun x => Postman.item x = None
                   /\ exists r, Postman.request x = Some r)
         (Postman.flattenItem i).
Proof.
  induction i as [n r | n r sub IH] using Item_nested_ind.
  - destruct r as [r|]; cbn; [|constructor].
    constructor; [|constructor]. split; [reflexivity | cbn; eauto].
  - rewrite flattenItem_folder.
    induction IH as [|x sub Hx _ IHs]; cbn [Postman.flattenItems];
      [constructor|].
    apply Forall_app; split; assumption.
Qed.

Lemma flattenItems_leaves (l : list Postman.Item) :
  Forall (fun x => Postman.item x = None
                   /\ exists r, Postman.request x = Some r)
         (Postman.flattenItems l).
Proof.
  induction l as [|x l IH]; cbn [Postman.flattenItems]; [constructor|].
  apply Forall_app; split; [apply flattenItem_leaves | exact IH].
Qed.

Lemma flattenItems_fixed (l : list Postman.Item) :
  Forall (fun x => Postman.item x = None
                   /\ exists r, Postman.request x = Some r) l ->
  Postman.flattenItems l = l.
Proof.
  induction 1 as [|x l [Hi [r Hr]] _ IH]; [reflexivity|].
  cbn [Postman.flattenItems]. rewrite IH.
  destruct x as [n rq it]. cbn in Hi, Hr. subst. reflexivity.
Qed.

Lemma importCollection_length (l : list Postman.Item) :
  Forall (fun x => Postman.item x = None
                   /\ exists r, Postman.request x = Some r) l ->
  List.length
    (flat_map (fun i => match Postman.request i with
                        | Some req => [Postman.toRequest req]
                        | None => []
                        end) l)
  = List.length l.
Proof.
  induction 1 as [|x l [_ [r Hr]] _ IH]; [reflexivity|].
  cbn [flat_map]. rewrite Hr. cbn. rewrite IH. reflexivity.
Qed.

(** X19.  [flattenItems] keeps only leaves that carry a request: every item
    it pushes has no nested list and has a request.  Hence flattening its
    result again changes nothing, and the importer returns exactly one
    record for each item pushed. *)
Theorem X19_flattenItems_leaves (l : list Postman.Item) :
  Forall (fun x => Postman.item x = None
                   /\ exists r, Postman.request x = Some r)
         (Postman.flattenItems l)
  /\ Postman.flattenItems (Postman.flattenItems l) = Postman.flattenItems l
  /\ List.length (Postman.importCollection
                    {| Postman.collection_item := Some l |})
     = List.length (Postman.flattenItems l).
Proof.
  pose proof (flattenItems_leaves l) as H.
  split; [exact H|]. split.
  - apply flattenItems_fixed; exact H.
  - unfold Postman.importCollection. cbn [Postman.collection_item].
    apply importCollection_length; exact H.
Qed.

(** ** The command line *)

Lemma isOption_cases (a : str) :
  Cli.isOption a = true ->
  In a [L "--help"; L "-h"; L "--version"; L "-v"; L "--to";
        L "--from"; L "--file"; L "-f"; L "--json"; L "--all"].
Proof.
  unfold Cli.isOption, isOneOf. intros H.
  apply existsb_exists in H as (x & Hin & E).
  apply eqb_str_eq in E. subst. exact Hin.
Qed.

Lemma argLoop_input (a : str) (rest : list str) (o : Cli.Options) :
  Cli.isOption a = false ->
  Cli.argLoop (a :: rest) o = Cli.argLoop rest (Cli.pushInput a o).
Proof.
  unfold Cli.isOption, isOneOf. cbn [existsb Cli.argLoop].
  intros H.
  repeat (apply orb_false_iff in H as [?E H]).
  unfold isOneOf. cbn [existsb].
  rewrite E, E0, E1, E2, E3, E4, E5, E6, E7, E8. reflexivity.
Qed.

Lemma detected_not_option (input : str) (t : InputType) :
  detectType input = t -> t <> unknown ->
  Cli.isOption input = false /\ truthy input = true.
Proof.
  intros H Ht. split.
  - destruct (Cli.isOption input) eqn:E; [|reflexivity].
    exfalso. apply isOption_cases in E. cbn [In] in E.
    repeat (destruct E as [E|E]; [subst input; apply Ht; rewrite <- H;
                                  vm_compute; reflexivity|]).
    exact E.
  - destruct input; [|reflexivity].
    exfalso. apply Ht. rewrite <- H. vm_compute. reflexivity.
Qed.

Lemma outputLoop_one (o : Cli.Options) (r : ParsedRequest) (e : Cli.Event) :
  Cli.render o r = Some e ->
  Cli.outputLoop o false 0 [r] = ([e], Cli.Returned).
Proof. intros H. cbn. rewrite H. reflexivity. Qed.

Lemma argLoop_to (v : str) (rest : list str) (o : Cli.Options) :
  Cli.argLoop (L "--to" :: v :: rest) o
  = Cli.argLoop rest (Cli.withTo (if truthy v then v else L "fetch") o).
Proof. reflexivity. Qed.


(** The run on an input that is detected as a cURL command. *)
Lemma mainWith_curl (w : Cli.World) (o : Cli.Options) (input : str)
      (e : Cli.Event) :
  detectType input = curl ->
  Cli.inputParts o = [input] -> Cli.filePath o = [] ->
  Cli.fromFormat o = [] ->
  Cli.render o (parseCurl input) = Some e ->
  Cli.mainWith w o = ([e], Cli.Returned).
Proof.
  intros Hd Hi Hf Hfrom Hr.
  destruct (detected_not_option input curl Hd) as [Hn Ht]; [discriminate|].
  unfold Cli.mainWith, Cli.readInput.
  rewrite Hf, Hi, Hfrom. cbn [truthy app join].
  rewrite Ht. cbv iota. rewrite Ht. cbn [negb]. rewrite Hd.
  cbn [Cli.typeName].
  change (eqb_str (L "curl") (L "unknown")) with false. cbv iota.
  unfold Cli.parseInput. rewrite eqb_str_refl.
  cbn [List.length Nat.ltb Nat.leb].
  rewrite (outputLoop_one o _ e Hr). reflexivity.
Qed.



Lemma detectType_curl_word (c : ascii) (y : str) :
  isSpace c = false -> detectType (L "curl " ++ c :: y) = curl.
Proof.
  intros Hc.
  assert (T : trim (L "curl " ++ c :: y) = L "curl " ++ c :: trimEnd y).
  { unfold trim.
    change (trimStart (L "curl " ++ c :: y)) with (L "curl " ++ c :: y).
    apply trimEnd_app_nonspace; exact Hc. }
  unfold detectType. rewrite T. reflexivity.
Qed.

Lemma toCurl_readBack (r : ParsedRequest) :
  eqb_str (method r) (L "GET") && truthyOpt (body r) = false ->
  toCurl (readBack r) = toCurl r.
Proof.
  intros H. unfold toCurl, toCurlParts, readBack.
  cbn [method url headers body auth insecure]. rewrite H.
  destruct (body r) as [b|]; [|reflexivity].
  cbn [truthyOpt]. destruct (truthy b) eqn:Eb; [rewrite Eb|]; reflexivity.
Qed.

(** X21.  The tool reproduces its own shell commands: given the command
    that [toCurl] writes for a request that the shell command can carry,
    and asked for a shell command, [main] prints that same command and
    returns.  A GET request with a body is left out: its command is read
    back as a POST request. *)
Theorem X21_main_reproduces_toCurl (w : Cli.World) (r : ParsedRequest) :
  curlSafe r = true -> NoDup (keys (headers r)) ->
  eqb_str (method r) (L "GET") && truthyOpt (body r) = false ->
  Cli.main w [L "--to"; L "curl"; toCurl r]
  = ([Cli.Log (toCurl r)], Cli.Returned).
Proof.
  intros H Hd Hg.
  assert (D : detectType (toCurl r) = curl).
  { destruct (toCurl_starts r) as [y ->].
    apply detectType_curl_word. reflexivity. }
  destruct (detected_not_option _ curl D) as [Hn Ht]; [discriminate|].
  unfold Cli.main. rewrite argLoop_to, argLoop_input by exact Hn.
  cbn [Cli.argLoop].
  apply (mainWith_curl w _ (toCurl r)); try reflexivity; [exact D|].
  rewrite (parseCurl_toCurl_readBack r H Hd).
  rewrite <- (toCurl_readBack r Hg). reflexivity.
Qed.

Lemma X21_main_reproduces_toCurl_witness :
  let r := {| method := L "PUT";
              url := L "https://api.example.com/users/7";
              headers := [(L "Accept", L "*/*")];
              body := Some (L "name=bob");
              contentType := None;
              auth := Some {| user := L "bob"; pass := L "pw" |};
              followRedirects := true;
              insecure := false |} in
  Cli.main {| Cli.readFile := fun _ => None; Cli.stdinData := None |}
           [L "--to"; L "curl"; toCurl r]
  = ([Cli.Log (toCurl r)], Cli.Returned).
Proof.
  intros r.
  apply (X21_main_reproduces_toCurl
           {| Cli.readFile := fun _ => None; Cli.stdinData := None |} r);
    [reflexivity | | reflexivity].
  repeat constructor; cbn; intuition discriminate.
Defined.

Lemma argLoop_free (a : str) (rest : list str) (o : Cli.Options) :
  Cli.isHelp a = false -> Cli.isVersion a = false ->
  Cli.takesValue a = false ->
  exists o', Cli.argLoop (a :: rest) o = Cli.argLoop rest o'.
Proof.
  unfold Cli.isHelp, Cli.isVersion, Cli.takesValue, isOneOf.
  cbn [existsb Cli.argLoop]. unfold isOneOf. cbn [existsb].
  intros H1 H2 H3. rewrite H1, H2.
  repeat (apply orb_false_iff in H3 as [?E H3]).
  rewrite E, E0, E1, E2. cbn [orb].
  destruct (eqb_str a (L "--json") || false); [eauto|].
  destruct (eqb_str a (L "--all") || false); eauto.
Qed.

Lemma argLoop_first_exit (pre : list str) (a : str) (post : list str) :
  forall o,
  forallb (fun x => negb (Cli.isHelp x || Cli.isVersion x
                          || Cli.takesValue x)) pre = true ->
  Cli.argLoop (pre ++ a :: post) o = Cli.argLoop (a :: post) o
  \/ exists o', Cli.argLoop (pre ++ a :: post) o
                = Cli.argLoop (a :: post) o'.
Proof.
  induction pre as [|x pre IH]; intros o H; [left; reflexivity|].
  cbn [forallb] in H. apply andb_true_iff in H as [Hx H].
  apply negb_true_iff in Hx.
  apply orb_false_iff in Hx as [Hx H3]. apply orb_false_iff in Hx as [H1 H2].
  destruct (argLoop_free x (pre ++ a :: post) o H1 H2 H3) as [o' E].
  right. cbn [app]. rewrite E.
  destruct (IH o' H) as [E'|[o2 E']]; eauto.
Qed.

(** X22.  The first help or version option decides the run, provided that
    no argument before it is an option that takes a value (which would
    take it as its value): the help or the version is printed, the
    process exits with status 0, and neither the other arguments nor the
    file system nor the standard input matter. *)
Theorem X22_main_help_version (w : Cli.World) (pre : list str) (a : str)
        (post : list str) :
  forallb (fun x => negb (Cli.isHelp x || Cli.isVersion x
                          || Cli.takesValue x)) pre = true ->
  (Cli.isHelp a = true ->
   Cli.main w (pre ++ a :: post) = ([Cli.PrintHelp], Cli.Exit 0))
  /\ (Cli.isHelp a = false -> Cli.isVersion a = true ->
      Cli.main w (pre ++ a :: post) = ([Cli.PrintVersion], Cli.Exit 0)).
Proof.
  intros H. unfold Cli.main.
  assert (E : exists o', Cli.argLoop (pre ++ a :: post) Cli.initOptions
                         = Cli.argLoop (a :: post) o').
  { destruct (argLoop_first_exit pre a post Cli.initOptions H) as [E|E];
      eauto. }
  destruct E as [o' ->]. cbn [Cli.argLoop].
  split.
  - intros Ha. unfold Cli.isHelp in Ha. rewrite Ha. reflexivity.
  - intros Ha Hv. unfold Cli.isHelp in Ha. unfold Cli.isVersion in Hv.
    rewrite Ha, Hv. reflexivity.
Qed.

Lemma X22_main_help_version_witness :
  Cli.main {| Cli.readFile := fun _ => None; Cli.stdinData := None |}
           ([L "curl x"; L "--json"] ++ L "-h" :: [L "--to"; L "nonsense"])
  = ([Cli.PrintHelp], Cli.Exit 0).
Proof.
  apply (X22_main_help_version
           {| Cli.readFile := fun _ => None; Cli.stdinData := None |}
           [L "curl x"; L "--json"] (L "-h") [L "--to"; L "nonsense"]);
    reflexivity.
Defined.















